(** * Order saga: orchestrated steps with compensation over an in-memory ledger

    A shallow embedding of [saga_demo] (models.py, store.py, services.py,
    saga.py), with [seed] of run_order.py, and the properties of its
    orchestrator.

    - Python [int] is [Z].
    - [decimal.Decimal] is a finite decimal number, an integer coefficient
      and an integer exponent, under the default arithmetic context:
      precision 28 and ROUND_HALF_EVEN.  [+], [-] and [*] round their exact
      result to 28 significant digits, [quantize] traps (InvalidOperation)
      when its result would need more.  The sign is carried by the
      coefficient, so -0 is 0.  NaN and the infinities are not values of
      the model, and the exponent limits of the context
      (Emin/Emax = -999999/999999) are taken to be out of reach.  Every
      statement below is therefore about stores whose decimals are
      finite numbers: on a NaN Python's [<] raises InvalidOperation,
      which no comparison of the model does.
    - Arithmetic and comparisons in the statements are those of the
      program: [Decimal.sub] is Python's [-] on decimals, [Decimal.eqb] its
      [==].
    - The dictionaries of [Store] are [gmap]s from key to record.  The seed
      helpers of [Store] build one fresh record per key, so no record is
      shared between two keys, and a mutation of the record under a key is
      an update of the map at that key.
    - Exceptions and the mutation of the store are an explicit state and
      error monad [M]; a raise keeps the mutations made before it.
    - A log line is a value of [LogEntry]: one constructor per f-string of
      the source, carrying the interpolated values.  The rendered text is
      not modelled.
    - An optional promo code counts as supplied when it is true for
      Python, that is neither [None] nor the empty string: this is the
      test of [calculate_discount] and of [execute]. *)

From Stdlib Require Import ZArith Lia Bool.
From stdpp Require Import base option list strings gmap fin_maps.

Local Open Scope Z_scope.

(** ** decimal.Decimal under the default context

    The operations the program uses, after the General Decimal Arithmetic
    Specification as the [decimal] module implements it: an operation
    computes its exact result and hands it to [_fix], which rounds it to
    the precision of the context. *)

Module Decimal.

Record t : Type := mk { coef : Z; exp : Z }.

(** [getcontext().prec] *)
Definition prec : Z := 28.

Fixpoint digits_aux (fuel : nat) (n : Z) : Z :=
  match fuel with
  | O => 1
  | S fuel' => if n <? 10 then 1 else 1 + digits_aux fuel' (n / 10)
  end.

(** [len(self._int)]: the number of decimal digits of [|n|]; the
    coefficient zero is the one digit [0]. *)
Definition digits (n : Z) : Z :=
  digits_aux (S (Z.to_nat (Z.log2 (Z.abs n)))) (Z.abs n).

(** [self.adjusted()] *)
Definition adjusted (x : t) : Z := exp x + digits (coef x) - 1.

(** Drop the last [d] digits of [n >= 0], rounding half to even. *)
Definition round_half_even (n d : Z) : Z :=
  let p := 10 ^ d in
  let q := n / p in
  let r := n mod p in
  if (p <? 2 * r) || ((2 * r =? p) && Z.odd q) then q + 1 else q.

(** [self._fix(context)]: round to [prec] significant digits. *)
Definition fix_ (x : t) : t :=
  let n := digits (coef x) in
  if n <=? prec then x
  else
    let d := n - prec in
    let q := round_half_even (Z.abs (coef x)) d in
    if q =? 10 ^ prec
    then mk (Z.sgn (coef x) * 10 ^ (prec - 1)) (exp x + d + 1)
    else mk (Z.sgn (coef x) * q) (exp x + d).

(** [self._rescale(e, ROUND_HALF_EVEN)] *)
Definition rescale (x : t) (e : Z) : t :=
  if coef x =? 0 then mk 0 e
  else if e <=? exp x then mk (coef x * 10 ^ (exp x - e)) e
  else mk (Z.sgn (coef x) * round_half_even (Z.abs (coef x)) (e - exp x)) e.

(** [self.quantize(q)] for a quantum [q] of exponent [e], as in
    [x.quantize(Decimal("0.01"))] with [e = -2]; [None] is the trap of
    InvalidOperation ("quantize result has too many digits for current
    context"). *)
Definition quantize (x : t) (e : Z) : option t :=
  if coef x =? 0 then Some (fix_ (mk 0 e))
  else if prec <? adjusted x - e + 1 then None
  else
    let ans := rescale x e in
    if prec <? digits (coef ans) then None else Some (fix_ ans).

Definition neg (x : t) : t := mk (- coef x) (exp x).

(** [self + other]: the exact sum at the smaller exponent, then rounded. *)
Definition add (x y : t) : t :=
  let e := Z.min (exp x) (exp y) in
  fix_ (mk (coef x * 10 ^ (exp x - e) + coef y * 10 ^ (exp y - e)) e).

(** [self - other] is [self + other.copy_negate()]. *)
Definition sub (x y : t) : t := add x (neg y).

(** [self * other]: the exact product, then rounded. *)
Definition mul (x y : t) : t :=
  fix_ (mk (coef x * coef y) (exp x + exp y)).

(** Numeric comparison: no rounding, the coefficients are aligned. *)
Definition compare (x y : t) : comparison :=
  let e := Z.min (exp x) (exp y) in
  Z.compare (coef x * 10 ^ (exp x - e)) (coef y * 10 ^ (exp y - e)).

(** [x < y], [x <= y], [x == y] *)
Definition ltb (x y : t) : bool :=
  match compare x y with Lt => true | _ => false end.
Definition leb (x y : t) : bool :=
  match compare x y with Gt => false | _ => true end.
Definition eqb (x y : t) : bool :=
  match compare x y with Eq => true | _ => false end.

(** The builtin [min(x, y)]: the first argument unless the second is
    strictly smaller. *)
Definition min (x y : t) : t := if ltb y x then y else x.

(** [Decimal(n)] for an [int] *)
Definition of_int (n : Z) : t := mk n 0.

(** [Decimal("0.00")] *)
Definition zero2 : t := mk 0 (-2).

(** A value keeps all its digits under the context precision. *)
Definition fits (x : t) : bool := Z.abs (coef x) <? 10 ^ prec.

(** The difference before the context rounds it. *)
Definition exact_sub (x y : t) : t :=
  let e := Z.min (exp x) (exp y) in
  mk (coef x * 10 ^ (exp x - e) - coef y * 10 ^ (exp y - e)) e.

End Decimal.

(** ** models.py *)

Module User.
Record t : Type := mk { id : Z; balance : Decimal.t }.
(** [user.balance = b] *)
Definition set_balance (u : t) (b : Decimal.t) : t := mk (id u) b.
(** The dataclass [__eq__]: fields compared with [==], so balances are
    compared numerically. *)
Definition eqb (u v : t) : bool :=
  (id u =? id v) && Decimal.eqb (balance u) (balance v).
End User.

Module InventoryItem.
Record t : Type := mk { sku : string; price : Decimal.t; on_hand : Z }.
(** [item.on_hand = n] *)
Definition set_on_hand (i : t) (n : Z) : t := mk (sku i) (price i) n.
End InventoryItem.

Module PromoCode.
Record t : Type :=
  mk { code : string; remaining_uses : Z; discount_amount : Decimal.t }.
(** [promo.remaining_uses = n] *)
Definition set_remaining_uses (p : t) (n : Z) : t :=
  mk (code p) n (discount_amount p).
End PromoCode.

Module OrderRequest.
Record t : Type := mk {
  order_id : Z;
  user_id : Z;
  sku : string;
  qty : Z;
  promo_code : option string
}.
End OrderRequest.

(** Truth value of an [Optional[str]]: [None] and the empty string are
    false. *)
Definition truthy (s : option string) : bool :=
  match s with
  | None => false
  | Some s' => negb (String.eqb s' "")
  end.

(** ** Exceptions

    The source raises [ValueError] with a message, [SagaError] for the
    injected fault, and the decimal module raises [InvalidOperation].  One
    constructor stands for one message of the source. *)

Inductive exn : Type :=
  (* ValueError("qty must be > 0") *)
  | QtyNotPositive
  (* ValueError("User {user_id} not found") *)
  | UserNotFound (user_id : Z)
  (* ValueError("Item {sku} not found") *)
  | ItemNotFound (sku : string)
  (* ValueError("Promo {promo_code} not found") *)
  | PromoNotFound (code : string)
  (* ValueError("Promo {promo_code} has no remaining uses") *)
  | PromoExhausted (code : string)
  (* ValueError("Insufficient inventory for {sku}: have={on_hand},
     need={qty}") *)
  | InsufficientInventory (sku : string) (have need : Z)
  (* ValueError("Insufficient balance for user {user_id}: have={balance},
     need={amount}") *)
  | InsufficientBalance (user_id : Z) (have need : Decimal.t)
  (* SagaError("Artificial failure at step {name}") *)
  | ArtificialFailure (step : string)
  (* decimal.InvalidOperation *)
  | InvalidOperation.

(** ** store.py *)

(** The lines of [Store.logs].  Every line starts with [[order=<id>]]; the
    comment gives the rest of the f-string. *)
Inductive LogEntry : Type :=
  (* SAGA START user={user_id} sku={sku} qty={qty} promo={promo_code} *)
  | LogSagaStart (order_id user_id : Z) (sku : string) (qty : Z)
                 (promo : option string)
  (* amounts: base={base} discount={discount} final={final} *)
  | LogAmounts (order_id : Z) (base discount final : Decimal.t)
  (* STEP {name} *)
  | LogStep (order_id : Z) (name : string)
  (* STEP {name} OK *)
  | LogStepOk (order_id : Z) (name : string)
  (* COMPENSATE {name} *)
  | LogCompensate (order_id : Z) (name : string)
  (* COMPENSATE {name} OK *)
  | LogCompensateOk (order_id : Z) (name : string)
  (* COMPENSATION FAILED at {name}: {comp_exc} *)
  | LogCompensationFailed (order_id : Z) (name : string) (e : exn)
  (* SAGA OK *)
  | LogSagaOk (order_id : Z)
  (* SAGA FAILED: {e} *)
  | LogSagaFailed (order_id : Z) (e : exn)
  (* SAGA END (failed) *)
  | LogSagaEnd (order_id : Z)
  (* promo reserved: {code} (remaining={remaining_uses}) *)
  | LogPromoReserved (order_id : Z) (code : string) (remaining : Z)
  (* promo released: {code} (remaining={remaining_uses}) *)
  | LogPromoReleased (order_id : Z) (code : string) (remaining : Z)
  (* inventory reserved: {sku} qty={qty} (on_hand={on_hand}) *)
  | LogInventoryReserved (order_id : Z) (sku : string) (qty on_hand : Z)
  (* inventory released: {sku} qty={qty} (on_hand={on_hand}) *)
  | LogInventoryReleased (order_id : Z) (sku : string) (qty on_hand : Z)
  (* charged user={user_id} amount={amount} (balance={balance}) *)
  | LogCharged (order_id user_id : Z) (amount balance : Decimal.t)
  (* refunded user={user_id} amount={amount} (balance={balance}) *)
  | LogRefunded (order_id user_id : Z) (amount balance : Decimal.t)
  (* order finalized *)
  | LogFinalized (order_id : Z)
  (* finalize has no compensation *)
  | LogFinalizeNoCompensation (order_id : Z).

Module Store.
Record t : Type := mk {
  users : gmap Z User.t;
  items : gmap string InventoryItem.t;
  promos : gmap string PromoCode.t;
  logs : list LogEntry
}.

(** [Store()] *)
Definition empty : t := mk ∅ ∅ ∅ [].

Definition set_users (st : t) (m : gmap Z User.t) : t :=
  mk m (items st) (promos st) (logs st).
Definition set_items (st : t) (m : gmap string InventoryItem.t) : t :=
  mk (users st) m (promos st) (logs st).
Definition set_promos (st : t) (m : gmap string PromoCode.t) : t :=
  mk (users st) (items st) m (logs st).

(** [self.logs.append(message)] *)
Definition log (message : LogEntry) (st : t) : t :=
  mk (users st) (items st) (promos st) (logs st ++ [message]).

Definition add_user (user_id : Z) (balance : Decimal.t) (st : t) : t :=
  set_users st (<[user_id := User.mk user_id balance]> (users st)).
Definition add_item (sku : string) (price : Decimal.t) (on_hand : Z)
    (st : t) : t :=
  set_items st (<[sku := InventoryItem.mk sku price on_hand]> (items st)).
Definition add_promo (code : string) (remaining_uses : Z)
    (discount_amount : Decimal.t) (st : t) : t :=
  set_promos st
    (<[code := PromoCode.mk code remaining_uses discount_amount]> (promos st)).
End Store.

(** ** Mutation and exceptions: a state and error monad over the store *)

Inductive result (A : Type) : Type :=
  | Ok (a : A)
  | Raise (e : exn).
Arguments Ok {A} a.
Arguments Raise {A} e.

Definition M (A : Type) : Type := Store.t → Store.t * result A.

Definition ret {A} (a : A) : M A := λ st, (st, Ok a).
Definition raise {A} (e : exn) : M A := λ st, (st, Raise e).
Definition bind {A B} (m : M A) (k : A → M B) : M B :=
  λ st, match m st with
        | (st', Ok a) => k a st'
        | (st', Raise e) => (st', Raise e)
        end.
Definition get : M Store.t := λ st, (st, Ok st).
Definition modify (f : Store.t → Store.t) : M unit := λ st, (f st, Ok tt).
Definition log (message : LogEntry) : M unit := modify (Store.log message).

(** [try: m  except Exception as e: ...]: the exception becomes a value,
    the mutations made before the raise stay. *)
Definition try_ {A} (m : M A) : M (exn + A) :=
  λ st, match m st with
        | (st', Ok a) => (st', Ok (inr a))
        | (st', Raise e) => (st', Ok (inl e))
        end.

(** A decimal operation that may trap. *)
Definition trap {A} (o : option A) : M A :=
  match o with
  | Some a => ret a
  | None => raise InvalidOperation
  end.

Notation "'let*' x ':=' m 'in' k" := (bind m (λ x, k))
  (at level 10, x name, m at level 100, k at level 200).
Notation "m ';;;' k" := (bind m (λ _, k))
  (at level 100, k at level 200, right associativity).

(** ** services.py *)

Module DiscountsService.

Definition calculate_discount (st : Store.t) (promo_code : option string)
    (base_amount : Decimal.t) : Decimal.t :=
  if negb (truthy promo_code) then Decimal.zero2
  else
    match promo_code ≫= (λ c, Store.promos st !! c) with
    | None => Decimal.zero2
    | Some promo =>
        if PromoCode.remaining_uses promo <=? 0 then Decimal.zero2
        else Decimal.min (PromoCode.discount_amount promo) base_amount
    end.

Definition reserve_promo_use (order_id : Z) (promo_code : string) : M unit :=
  let* st := get in
  match Store.promos st !! promo_code with
  | None => raise (PromoNotFound promo_code)
  | Some promo =>
      if PromoCode.remaining_uses promo <=? 0
      then raise (PromoExhausted promo_code)
      else
        let promo' :=
          PromoCode.set_remaining_uses promo
            (PromoCode.remaining_uses promo - 1) in
        modify (λ s, Store.set_promos s
                       (<[promo_code := promo']> (Store.promos s))) ;;;
        log (LogPromoReserved order_id promo_code
               (PromoCode.remaining_uses promo'))
  end.

Definition release_promo_use (order_id : Z) (promo_code : string) : M unit :=
  let* st := get in
  match Store.promos st !! promo_code with
  | None => ret tt
  | Some promo =>
      let promo' :=
        PromoCode.set_remaining_uses promo
          (PromoCode.remaining_uses promo + 1) in
      modify (λ s, Store.set_promos s
                     (<[promo_code := promo']> (Store.promos s))) ;;;
      log (LogPromoReleased order_id promo_code
             (PromoCode.remaining_uses promo'))
  end.

End DiscountsService.

Module InventoryService.

Definition reserve_inventory (order_id : Z) (sku : string) (qty : Z)
    : M unit :=
  let* st := get in
  match Store.items st !! sku with
  | None => raise (ItemNotFound sku)
  | Some item =>
      if InventoryItem.on_hand item <? qty
      then raise (InsufficientInventory sku (InventoryItem.on_hand item) qty)
      else
        let item' :=
          InventoryItem.set_on_hand item (InventoryItem.on_hand item - qty) in
        modify (λ s, Store.set_items s (<[sku := item']> (Store.items s))) ;;;
        log (LogInventoryReserved order_id sku qty
               (InventoryItem.on_hand item'))
  end.

Definition release_inventory (order_id : Z) (sku : string) (qty : Z)
    : M unit :=
  let* st := get in
  match Store.items st !! sku with
  | None => ret tt
  | Some item =>
      let item' :=
        InventoryItem.set_on_hand item (InventoryItem.on_hand item + qty) in
      modify (λ s, Store.set_items s (<[sku := item']> (Store.items s))) ;;;
      log (LogInventoryReleased order_id sku qty
             (InventoryItem.on_hand item'))
  end.

End InventoryService.

Module BillingService.

Definition charge_user_balance (order_id user_id : Z) (amount : Decimal.t)
    : M unit :=
  let* st := get in
  match Store.users st !! user_id with
  | None => raise (UserNotFound user_id)
  | Some user =>
      if Decimal.ltb (User.balance user) amount
      then raise (InsufficientBalance user_id (User.balance user) amount)
      else
        let user' :=
          User.set_balance user (Decimal.sub (User.balance user) amount) in
        modify (λ s, Store.set_users s (<[user_id := user']> (Store.users s))) ;;;
        log (LogCharged order_id user_id amount (User.balance user'))
  end.

Definition refund_user_balance (order_id user_id : Z) (amount : Decimal.t)
    : M unit :=
  let* st := get in
  match Store.users st !! user_id with
  | None => ret tt
  | Some user =>
      let user' :=
        User.set_balance user (Decimal.add (User.balance user) amount) in
      modify (λ s, Store.set_users s (<[user_id := user']> (Store.users s))) ;;;
      log (LogRefunded order_id user_id amount (User.balance user'))
  end.

End BillingService.

(** ** saga.py *)

Module Step.

(** A step object: the order it belongs to, its name, and its two
    abstract methods, bound to their parameters at construction. *)
Record t : Type := mk {
  order_id : Z;
  name : string;
  execute : M unit;
  compensate : M unit
}.

Definition run (s : t) : M unit :=
  log (LogStep (order_id s) (name s)) ;;;
  execute s ;;;
  log (LogStepOk (order_id s) (name s)).

Definition run_compensation (s : t) : M unit :=
  log (LogCompensate (order_id s) (name s)) ;;;
  compensate s ;;;
  log (LogCompensateOk (order_id s) (name s)).

End Step.

Definition ReservePromoUse (order_id : Z) (promo_code : string) : Step.t :=
  Step.mk order_id "ReservePromoUse"
    (DiscountsService.reserve_promo_use order_id promo_code)
    (DiscountsService.release_promo_use order_id promo_code).

Definition ReserveInventory (order_id : Z) (sku : string) (qty : Z) : Step.t :=
  Step.mk order_id "ReserveInventory"
    (InventoryService.reserve_inventory order_id sku qty)
    (InventoryService.release_inventory order_id sku qty).

Definition ChargeUserBalance (order_id user_id : Z) (amount : Decimal.t)
    : Step.t :=
  Step.mk order_id "ChargeUserBalance"
    (BillingService.charge_user_balance order_id user_id amount)
    (BillingService.refund_user_balance order_id user_id amount).

Definition FinalizeOrder (order_id : Z) : Step.t :=
  Step.mk order_id "FinalizeOrder"
    (log (LogFinalized order_id))
    (log (LogFinalizeNoCompensation order_id)).

Record OrderAmounts : Type := mkOrderAmounts {
  base_amount : Decimal.t;
  discount_amount : Decimal.t;
  final_amount : Decimal.t
}.

Module SagaOrchestrator.

Definition _calculate_amounts (req : OrderRequest.t) : M OrderAmounts :=
  let* st := get in
  match Store.items st !! OrderRequest.sku req with
  | None => raise (ItemNotFound (OrderRequest.sku req))
  | Some item =>
      let* base :=
        trap (Decimal.quantize
                (Decimal.mul (InventoryItem.price item)
                   (Decimal.of_int (OrderRequest.qty req))) (-2)) in
      let* discount :=
        trap (Decimal.quantize
                (DiscountsService.calculate_discount st
                   (OrderRequest.promo_code req) base) (-2)) in
      let* final :=
        trap (Decimal.quantize (Decimal.sub base discount) (-2)) in
      ret (mkOrderAmounts base discount final)
  end.

(** The list [steps] of [execute]. *)
Definition build_steps (req : OrderRequest.t) (amounts : OrderAmounts)
    : list Step.t :=
  (match OrderRequest.promo_code req with
   | Some c =>
       if truthy (Some c)
       then [ReservePromoUse (OrderRequest.order_id req) c]
       else []
   | None => []
   end)
  ++ [ReserveInventory (OrderRequest.order_id req) (OrderRequest.sku req)
        (OrderRequest.qty req);
      ChargeUserBalance (OrderRequest.order_id req)
        (OrderRequest.user_id req) (final_amount amounts);
      FinalizeOrder (OrderRequest.order_id req)].

(** The loop of the [try] block.  It returns the list [completed] as it
    stands when the loop ends, and the exception that ended it, if any. *)
Fixpoint forward (fail_at_step : option string) (steps : list Step.t)
    (completed : list Step.t) : M (list Step.t * option exn) :=
  match steps with
  | [] => ret (completed, None)
  | step :: rest =>
      if decide (fail_at_step = Some (Step.name step))
      then ret (completed, Some (ArtificialFailure (Step.name step)))
      else
        let* r := try_ (Step.run step) in
        match r with
        | inl e => ret (completed, Some e)
        | inr _ => forward fail_at_step rest (completed ++ [step])
        end
  end.

(** The loop of the [except] block, over [reversed(completed)]. *)
Fixpoint compensate_all (order_id : Z) (steps : list Step.t) : M unit :=
  match steps with
  | [] => ret tt
  | step :: rest =>
      (let* r := try_ (Step.run_compensation step) in
       match r with
       | inl comp_exc =>
           log (LogCompensationFailed order_id (Step.name step) comp_exc)
       | inr _ => ret tt
       end) ;;;
      compensate_all order_id rest
  end.

(** Everything [execute] does before the first step: the start line, the
    two checks, the amounts and their log line. *)
Definition pre_saga (req : OrderRequest.t) : M OrderAmounts :=
  log (LogSagaStart (OrderRequest.order_id req) (OrderRequest.user_id req)
         (OrderRequest.sku req) (OrderRequest.qty req)
         (OrderRequest.promo_code req)) ;;;
  if OrderRequest.qty req <=? 0 then raise QtyNotPositive
  else
    let* st := get in
    match Store.users st !! OrderRequest.user_id req with
    | None => raise (UserNotFound (OrderRequest.user_id req))
    | Some _ =>
        let* amounts := _calculate_amounts req in
        log (LogAmounts (OrderRequest.order_id req) (base_amount amounts)
               (discount_amount amounts) (final_amount amounts)) ;;;
        ret amounts
    end.

(** The [try]/[except] of [execute], for a given list [steps]. *)
Definition run_steps (order_id : Z) (fail_at_step : option string)
    (steps : list Step.t) : M bool :=
  let* r := forward fail_at_step steps [] in
  match r with
  | (_, None) =>
      log (LogSagaOk order_id) ;;;
      ret true
  | (completed, Some e) =>
      log (LogSagaFailed order_id e) ;;;
      compensate_all order_id (reverse completed) ;;;
      log (LogSagaEnd order_id) ;;;
      ret false
  end.

Definition execute (req : OrderRequest.t) (fail_at_step : option string)
    : M bool :=
  let* amounts := pre_saga req in
  run_steps (OrderRequest.order_id req) fail_at_step
    (build_steps req amounts).

End SagaOrchestrator.

(** ** tests/conftest.py: the seeded store *)

Definition dec2 (cents : Z) : Decimal.t := Decimal.mk cents (-2).

Definition fixture_store : Store.t :=
  Store.add_promo "EXPIRED" 0 (dec2 1500)
  (Store.add_promo "ONETIME" 1 (dec2 2000)
  (Store.add_promo "DISCOUNT10" 5 (dec2 1000)
  (Store.add_item "ITEM003" (dec2 5000) 0
  (Store.add_item "ITEM002" (dec2 10000) 5
  (Store.add_item "ITEM001" (dec2 10000) 10
  (Store.add_user 2 (dec2 5000)
  (Store.add_user 1 (dec2 100000)
   Store.empty))))))).

(** ** tests/test_saga.py: the requests of the scenarios *)

(** qty 2 of ITEM001, no promo *)
Definition order_without_promo : OrderRequest.t :=
  OrderRequest.mk 1 1 "ITEM001" 2 None.
(** qty 1 of ITEM001 with DISCOUNT10 *)
Definition order_with_promo : OrderRequest.t :=
  OrderRequest.mk 2 1 "ITEM001" 1 (Some "DISCOUNT10").
(** DISCOUNT10, then more units than the stock holds *)
Definition order_over_stock : OrderRequest.t :=
  OrderRequest.mk 4 1 "ITEM001" 20 (Some "DISCOUNT10").
(** the order of [test_artificial_failure_at_finalize] *)
Definition order_failing_late : OrderRequest.t :=
  OrderRequest.mk 6 1 "ITEM001" 1 (Some "DISCOUNT10").

(** ** Stores outside the range of the tests *)

(** A promo whose discount amount is negative. *)
Definition store_negative_promo : Store.t :=
  Store.add_promo "NEG" 1 (dec2 (-1000)) fixture_store.

(** A user whose balance, 1000.00000000000000000000000000000001, has more
    digits than the context precision. *)
Definition store_long_balance : Store.t :=
  Store.add_item "ITEM001" (dec2 100) 10
  (Store.add_user 1 (Decimal.mk (10 ^ 35 + 1) (-32))
   Store.empty).

(** The order that meets [store_long_balance]: one unit at 1.00. *)
Definition order_long_balance : OrderRequest.t :=
  OrderRequest.mk 1 1 "ITEM001" 1 None.


(** An order of 10^26 units of ITEM001 by user 1: the quantity is
    positive, the user and the item are those of the seeded store, and the
    base amount, 10^28, has no representation in cents within the
    precision. *)
Definition order_huge_qty : OrderRequest.t :=
  OrderRequest.mk 9 1 "ITEM001" (10 ^ 26) None.

(** The other orders of the tests. *)
Definition order_expired_promo : OrderRequest.t :=
  OrderRequest.mk 3 1 "ITEM001" 1 (Some "EXPIRED").
Definition order_over_balance : OrderRequest.t :=
  OrderRequest.mk 5 2 "ITEM002" 2 (Some "DISCOUNT10").

(** What the tests read in the store after a run: [store.users[uid].balance],
    [store.items[sku].on_hand], [store.promos[code].remaining_uses]. *)
Definition balance_of (uid : Z) (st : Store.t) : option Decimal.t :=
  User.balance <$> Store.users st !! uid.
Definition on_hand_of (sku : string) (st : Store.t) : option Z :=
  InventoryItem.on_hand <$> Store.items st !! sku.
Definition uses_of (code : string) (st : Store.t) : option Z :=
  PromoCode.remaining_uses <$> Store.promos st !! code.

(** ** A step whose compensation raises

    None of the four steps of the source can raise while it compensates,
    so the [except] of the compensation loop is exercised with this step
    of our own, which is not in the source. *)
Definition unreliable_step (order_id : Z) : Step.t :=
  Step.mk order_id "Unreliable" (ret tt) (raise InvalidOperation).

(** ** Observations on a run *)

(** The steps a fragment of the log reports as started ([STEP name]),
    completed ([STEP name OK]) and compensated ([COMPENSATE name]); these
    bracket lines are written by [Step.run] and [Step.run_compensation]
    around each call. *)
Definition started_name (e : LogEntry) : option string :=
  match e with LogStep _ n => Some n | _ => None end.
Definition completed_name (e : LogEntry) : option string :=
  match e with LogStepOk _ n => Some n | _ => None end.
Definition compensated_name (e : LogEntry) : option string :=
  match e with LogCompensate _ n => Some n | _ => None end.
Definition compensation_ended_name (e : LogEntry) : option string :=
  match e with
  | LogCompensateOk _ n | LogCompensationFailed _ n _ => Some n
  | _ => None
  end.

Definition started (l : list LogEntry) : list string := omap started_name l.
Definition completed (l : list LogEntry) : list string := omap completed_name l.
Definition compensated (l : list LogEntry) : list string :=
  omap compensated_name l.
Definition compensation_ended (l : list LogEntry) : list string :=
  omap compensation_ended_name l.

(** The lines written below the orchestrator: by the services and by
    [FinalizeOrder]. *)
Definition service_entry (e : LogEntry) : bool :=
  match e with
  | LogPromoReserved _ _ _ | LogPromoReleased _ _ _
  | LogInventoryReserved _ _ _ _ | LogInventoryReleased _ _ _ _
  | LogCharged _ _ _ _ | LogRefunded _ _ _ _
  | LogFinalized _ | LogFinalizeNoCompensation _ => true
  | _ => false
  end.

(** A computation relates every store it starts in to the store it leaves,
    whether it returns or raises. *)
Definition respects {A} (R : relation Store.t) (m : M A) : Prop :=
  ∀ st st' r, m st = (st', r) → R st st'.

Definition step_respects (R : relation Store.t) (s : Step.t) : Prop :=
  respects R (Step.execute s) ∧ respects R (Step.compensate s).

(** The store only gains service lines. *)
Definition appends_service_lines (st st' : Store.t) : Prop :=
  ∃ l, Store.logs st' = Store.logs st ++ l ∧
       Forall (λ e, service_entry e = true) l.

(** A step whose two methods write nothing but service lines; they may
    mutate the entities and raise as they like. *)
Definition quiet_step (s : Step.t) : Prop :=
  step_respects appends_service_lines s.

(** The invariants of the data model: [on_hand >= 0] and
    [remaining_uses >= 0]. *)
Definition stock_nonneg (st : Store.t) : Prop :=
  map_Forall (λ _ i, 0 ≤ InventoryItem.on_hand i) (Store.items st) ∧
  map_Forall (λ _ p, 0 ≤ PromoCode.remaining_uses p) (Store.promos st).

Definition keeps_stock_nonneg (st st' : Store.t) : Prop :=
  stock_nonneg st → stock_nonneg st'.

(** What a run for [req] may touch: the user, the item and the promo the
    request names; no key appears or disappears; the log is extended. *)
Definition frame (req : OrderRequest.t) (st st' : Store.t) : Prop :=
  (∀ k, k ≠ OrderRequest.user_id req →
        Store.users st' !! k = Store.users st !! k) ∧
  (∀ k, k ≠ OrderRequest.sku req →
        Store.items st' !! k = Store.items st !! k) ∧
  (∀ k, Some k ≠ OrderRequest.promo_code req →
        Store.promos st' !! k = Store.promos st !! k) ∧
  dom (Store.users st') = dom (Store.users st) ∧
  dom (Store.items st') = dom (Store.items st) ∧
  dom (Store.promos st') = dom (Store.promos st) ∧
  Store.logs st `prefix_of` Store.logs st'.

(** [users' == users] on dictionaries: same keys, and under each key
    records equal by [User.eqb]. *)
Definition users_eq (m1 m2 : gmap Z User.t) : Prop :=
  ∀ k, option_Forall2 (λ u v, User.eqb u v = true) (m1 !! k) (m2 !! k).

(** Charging [a] to the balance [b] and refunding it lose no digit under
    the context precision: [b] written at the smaller of the two
    exponents, and its difference with [a], have at most [prec] digits. *)
Definition charge_refund_exact (b a : Decimal.t) : bool :=
  let e := Z.min (Decimal.exp b) (Decimal.exp a) in
  let cb := Decimal.coef b * 10 ^ (Decimal.exp b - e) in
  let ca := Decimal.coef a * 10 ^ (Decimal.exp a - e) in
  (Z.abs cb <? 10 ^ Decimal.prec) && (Z.abs (cb - ca) <? 10 ^ Decimal.prec).

(** Two stores hold the same users, items and promos. *)
Definition same_entities (st st' : Store.t) : Prop :=
  Store.users st' = Store.users st ∧
  Store.items st' = Store.items st ∧
  Store.promos st' = Store.promos st.

(** The three steps every order ends with. *)
Definition order_steps (order_id : Z) (sku : string) (qty uid : Z)
    (amount : Decimal.t) : list Step.t :=
  [ReserveInventory order_id sku qty; ChargeUserBalance order_id uid amount;
   FinalizeOrder order_id].

(** ** run_order.py: the seed of the command line

    [main] parses the command line, seeds an empty store, runs one order
    through [execute] and writes the result out; of it, only [seed] and
    the order it places by default are modelled. *)

Definition seed (st : Store.t) : Store.t :=
  Store.add_promo "EXPIRED" 0 (dec2 1500)
  (Store.add_promo "DISCOUNT10" 5 (dec2 1000)
  (Store.add_item "ITEM002" (dec2 10000) 5
  (Store.add_item "ITEM001" (dec2 10000) 10
  (Store.add_user 2 (dec2 5000)
  (Store.add_user 1 (dec2 100000) st))))).

(** ** What decides the outcome of an order *)

(** The guard of [reserve_promo_use], for the promo step of the order:
    no step when the code is not supplied. *)
Definition promo_available (st : Store.t) (promo_code : option string)
    : bool :=
  match promo_code with
  | Some c =>
      if truthy (Some c)
      then match Store.promos st !! c with
           | Some p => 0 <? PromoCode.remaining_uses p
           | None => false
           end
      else true
  | None => true
  end.

(** The guard of [reserve_inventory]. *)
Definition stock_available (st : Store.t) (sku : string) (qty : Z) : bool :=
  match Store.items st !! sku with
  | Some i => qty <=? InventoryItem.on_hand i
  | None => false
  end.

(** The guard of [charge_user_balance]. *)
Definition balance_available (st : Store.t) (uid : Z) (amount : Decimal.t)
    : bool :=
  match Store.users st !! uid with
  | Some u => negb (Decimal.ltb (User.balance u) amount)
  | None => false
  end.

(** The fault directive names a step of the list. *)
Definition fault_applies (fail_at_step : option string)
    (steps : list Step.t) : bool :=
  match fail_at_step with
  | Some n => bool_decide (n ∈ Step.name <$> steps)
  | None => false
  end.

Definition order_can_complete (req : OrderRequest.t) (amounts : OrderAmounts)
    (fail_at_step : option string) (st : Store.t) : bool :=
  negb (fault_applies fail_at_step (SagaOrchestrator.build_steps req amounts))
  && promo_available st (OrderRequest.promo_code req)
  && stock_available st (OrderRequest.sku req) (OrderRequest.qty req)
  && balance_available st (OrderRequest.user_id req) (final_amount amounts).

(** The lines a run that completes writes, read off the f-strings of
    [execute], [Step.run], the services and [FinalizeOrder]. *)
Definition promo_step_log (req : OrderRequest.t) (st : Store.t)
    : list LogEntry :=
  match OrderRequest.promo_code req with
  | Some c =>
      if truthy (Some c)
      then match Store.promos st !! c with
           | Some p =>
               [LogStep (OrderRequest.order_id req) "ReservePromoUse";
                LogPromoReserved (OrderRequest.order_id req) c
                  (PromoCode.remaining_uses p - 1);
                LogStepOk (OrderRequest.order_id req) "ReservePromoUse"]
           | None => []
           end
      else []
  | None => []
  end.

Definition success_log (req : OrderRequest.t) (amounts : OrderAmounts)
    (st : Store.t) : list LogEntry :=
  let oid := OrderRequest.order_id req in
  [LogSagaStart oid (OrderRequest.user_id req) (OrderRequest.sku req)
     (OrderRequest.qty req) (OrderRequest.promo_code req);
   LogAmounts oid (base_amount amounts) (discount_amount amounts)
     (final_amount amounts)] ++
  promo_step_log req st ++
  [LogStep oid "ReserveInventory";
   LogInventoryReserved oid (OrderRequest.sku req) (OrderRequest.qty req)
     (default 0 (on_hand_of (OrderRequest.sku req) st) - OrderRequest.qty req);
   LogStepOk oid "ReserveInventory";
   LogStep oid "ChargeUserBalance";
   LogCharged oid (OrderRequest.user_id req) (final_amount amounts)
     (Decimal.sub
        (default Decimal.zero2 (balance_of (OrderRequest.user_id req) st))
        (final_amount amounts));
   LogStepOk oid "ChargeUserBalance";
   LogStep oid "FinalizeOrder"; LogFinalized oid;
   LogStepOk oid "FinalizeOrder";
   LogSagaOk oid].

(** ** Further invariants *)

(** Every record sits under its own identifier: [users[k].id == k],
    [items[k].sku == k], [promos[k].code == k]. *)
Definition keys_consistent (st : Store.t) : Prop :=
  map_Forall (λ k u, User.id u = k) (Store.users st) ∧
  map_Forall (λ k i, InventoryItem.sku i = k) (Store.items st) ∧
  map_Forall (λ k p, PromoCode.code p = k) (Store.promos st).

Definition keeps_keys_consistent (st st' : Store.t) : Prop :=
  keys_consistent st → keys_consistent st'.

(** [0 <= x] on decimals. *)
Definition dec_nonneg (x : Decimal.t) : Prop :=
  Decimal.leb Decimal.zero2 x = true.

(** No balance is negative. *)
Definition balances_nonneg (st : Store.t) : Prop :=
  map_Forall (λ _ u, dec_nonneg (User.balance u)) (Store.users st).

Definition keeps_balances_nonneg (st st' : Store.t) : Prop :=
  balances_nonneg st → balances_nonneg st'.

(** The store with the lines [l] put before its log. *)
Definition with_earlier_logs (l : list LogEntry) (st : Store.t) : Store.t :=
  Store.mk (Store.users st) (Store.items st) (Store.promos st)
    (l ++ Store.logs st).

(** A COMPENSATION FAILED line. *)
Definition is_compensation_failed (e : LogEntry) : bool :=
  match e with LogCompensationFailed _ _ _ => true | _ => false end.

(** The lines written around and inside a step that returns: the bracket
    lines of [Step.run] and [Step.run_compensation], and the lines of the
    services. *)
Definition step_entry (e : LogEntry) : bool :=
  match e with
  | LogStep _ _ | LogStepOk _ _ | LogCompensate _ _ | LogCompensateOk _ _ =>
      true
  | _ => service_entry e
  end.

(** The lines of the forward pass: the STEP and STEP OK lines, and what
    the [execute] of the four steps writes. *)
Definition forward_entry (e : LogEntry) : bool :=
  match e with
  | LogStep _ _ | LogStepOk _ _
  | LogPromoReserved _ _ _ | LogInventoryReserved _ _ _ _
  | LogCharged _ _ _ _ | LogFinalized _ => true
  | _ => false
  end.

(** The lines of the compensations: the COMPENSATE and COMPENSATE OK
    lines, and what the [compensate] of the four steps writes. *)
Definition compensation_entry (e : LogEntry) : bool :=
  match e with
  | LogCompensate _ _ | LogCompensateOk _ _
  | LogPromoReleased _ _ _ | LogInventoryReleased _ _ _ _
  | LogRefunded _ _ _ _ | LogFinalizeNoCompensation _ => true
  | _ => false
  end.

(** The store only gains lines of steps. *)
Definition appends_step_lines (st st' : Store.t) : Prop :=
  ∃ l, Store.logs st' = Store.logs st ++ l ∧
       Forall (λ e, step_entry e = true) l.

(** The exceptions a fragment of the log reports in SAGA FAILED lines. *)
Definition failure_reason (e : LogEntry) : option exn :=
  match e with LogSagaFailed _ x => Some x | _ => None end.
Definition failure_reasons (l : list LogEntry) : list exn :=
  omap failure_reason l.

(** A step whose [compensate] returns from every store. *)
Definition compensation_returns (s : Step.t) : Prop :=
  ∀ st, (Step.compensate s st).2 = Ok tt.

(** What an exception caught by [execute] says of the store the run
    started in. *)
Definition failure_cause (req : OrderRequest.t) (amounts : OrderAmounts)
    (fail_at_step : option string) (st : Store.t) (e : exn) : Prop :=
  match e with
  | ArtificialFailure n =>
      fail_at_step = Some n ∧
      n ∈ Step.name <$> SagaOrchestrator.build_steps req amounts
  | PromoNotFound c =>
      OrderRequest.promo_code req = Some c ∧ Store.promos st !! c = None
  | PromoExhausted c =>
      OrderRequest.promo_code req = Some c ∧
      ∃ n, uses_of c st = Some n ∧ n ≤ 0
  | InsufficientInventory sku have need =>
      sku = OrderRequest.sku req ∧ need = OrderRequest.qty req ∧
      on_hand_of sku st = Some have ∧ have < need
  | InsufficientBalance uid have need =>
      uid = OrderRequest.user_id req ∧ need = final_amount amounts ∧
      balance_of uid st = Some have ∧ Decimal.ltb have need = true
  | QtyNotPositive | UserNotFound _ | ItemNotFound _ | InvalidOperation =>
      False
  end.

(** The order a line belongs to: the [[order=<id>]] every line starts
    with. *)
Definition entry_order_id (e : LogEntry) : Z :=
  match e with
  | LogSagaStart o _ _ _ _ | LogAmounts o _ _ _
  | LogStep o _ | LogStepOk o _ | LogCompensate o _ | LogCompensateOk o _
  | LogCompensationFailed o _ _
  | LogSagaOk o | LogSagaFailed o _ | LogSagaEnd o
  | LogPromoReserved o _ _ | LogPromoReleased o _ _
  | LogInventoryReserved o _ _ _ | LogInventoryReleased o _ _ _
  | LogCharged o _ _ _ | LogRefunded o _ _ _
  | LogFinalized o | LogFinalizeNoCompensation o => o
  end.

(** The store only gains lines that satisfy [P]. *)
Definition appends_lines (P : LogEntry → Prop) (st st' : Store.t) : Prop :=
  ∃ l, Store.logs st' = Store.logs st ++ l ∧ Forall P l.

(** A computation that does not read the log: started with more lines
    before the log, it does the same and leaves them there. *)
Definition log_blind {A} (m : M A) : Prop :=
  ∀ l st,
    m (with_earlier_logs l st) = (with_earlier_logs l (m st).1, (m st).2).

(** ** The calls of a run

    What the specification says of a run, told by the calls made to the
    methods of the steps and by the stores they are made on, rather than
    by the names in the log. *)

(** Every step of [steps], in order, is not the one the fault directive
    names, has its [execute] called on the store that holds its STEP line,
    and the call returns; its STEP OK line follows.  [st'] is the store
    after the last of them. *)
Fixpoint executes_each (fail_at_step : option string) (steps : list Step.t)
    (st st' : Store.t) : Prop :=
  match steps with
  | [] => st' = st
  | s :: rest =>
      fail_at_step ≠ Some (Step.name s) ∧
      ∃ st1,
        Step.execute s (Store.log (LogStep (Step.order_id s) (Step.name s)) st)
          = (st1, Ok tt) ∧
        executes_each fail_at_step rest
          (Store.log (LogStepOk (Step.order_id s) (Step.name s)) st1) st'
  end.

(** The step [s] fails on [st] with [e] and leaves [st']: either the fault
    directive names it, and then nothing of it is called and the store is
    untouched; or its [execute], called on the store that holds its STEP
    line, raises [e]. *)
Definition fails_at (fail_at_step : option string) (s : Step.t)
    (st st' : Store.t) (e : exn) : Prop :=
  (fail_at_step = Some (Step.name s) ∧
   e = ArtificialFailure (Step.name s) ∧ st' = st) ∨
  (fail_at_step ≠ Some (Step.name s) ∧
   Step.execute s (Store.log (LogStep (Step.order_id s) (Step.name s)) st)
     = (st', Raise e)).

(** Every step of [steps], in the order of the list, has its [compensate]
    called on the store that holds its COMPENSATE line; a call that
    returns is followed by the COMPENSATE OK line, a call that raises [e]
    by the line COMPENSATION FAILED with [e], and the compensation of the
    next step is called all the same.  [st'] is the store after the last
    of them. *)
Fixpoint compensates_each (order_id : Z) (steps : list Step.t)
    (st st' : Store.t) : Prop :=
  match steps with
  | [] => st' = st
  | s :: rest =>
      ∃ st1 r,
        Step.compensate s
          (Store.log (LogCompensate (Step.order_id s) (Step.name s)) st)
          = (st1, r) ∧
        compensates_each order_id rest
          (match r with
           | Ok _ =>
               Store.log (LogCompensateOk (Step.order_id s) (Step.name s)) st1
           | Raise e =>
               Store.log (LogCompensationFailed order_id (Step.name s) e) st1
           end) st'
  end.

(** * Properties *)

(** ** Decimal arithmetic *)

Section DecimalFacts.
Import Decimal.

Lemma pow10_gt0 k : 0 ≤ k → 0 < 10 ^ k.
Proof. intros. by apply Z.pow_pos_nonneg. Qed.

Lemma digits_aux_spec fuel n :
  0 ≤ n < 2 ^ Z.of_nat fuel →
  1 ≤ digits_aux fuel n ∧ n < 10 ^ digits_aux fuel n ∧
  (0 < n → 10 ^ (digits_aux fuel n - 1) ≤ n).
Proof.
  revert n. induction fuel as [|fuel IH]; intros n Hn.
  - simpl in *. split; [lia|]. split; lia.
  - cbn [digits_aux]. destruct (Z.ltb_spec n 10) as [Hlt|Hge].
    + split; [lia|]. split; [lia|]. intros. change (10 ^ (1 - 1)) with 1. lia.
    + assert (Hdiv : 0 ≤ n / 10 < 2 ^ Z.of_nat fuel).
      { rewrite Nat2Z.inj_succ, Z.pow_succ_r in Hn by lia.
        split; [apply Z.div_pos; lia|].
        apply Z.div_lt_upper_bound; lia. }
      destruct (IH _ Hdiv) as (H1 & H2 & H3).
      assert (0 < n / 10) by (apply Z.div_str_pos; lia).
      specialize (H3 ltac:(done)).
      set (k := digits_aux fuel (n / 10)) in *.
      pose proof (Z.div_mod n 10 ltac:(lia)) as Hdm.
      pose proof (Z.mod_pos_bound n 10 ltac:(lia)) as Hmod.
      split; [lia|]. split.
      * replace (1 + k) with (Z.succ k) by lia.
        rewrite Z.pow_succ_r by lia. lia.
      * intros _. replace (1 + k - 1) with (Z.succ (k - 1)) by lia.
        rewrite Z.pow_succ_r by lia. lia.
Qed.

(** [digits n] is the length of the decimal numeral of [|n|]. *)
Lemma digits_spec n :
  1 ≤ digits n ∧ Z.abs n < 10 ^ digits n ∧
  (n ≠ 0 → 10 ^ (digits n - 1) ≤ Z.abs n).
Proof.
  unfold digits.
  assert (Hb : 0 ≤ Z.abs n < 2 ^ Z.of_nat (S (Z.to_nat (Z.log2 (Z.abs n))))).
  { split; [lia|]. rewrite Nat2Z.inj_succ, Z2Nat.id by apply Z.log2_nonneg.
    destruct (decide (Z.abs n = 0)) as [->|Hn0]; [done|].
    apply Z.log2_spec. lia. }
  destruct (digits_aux_spec _ _ Hb) as (H1 & H2 & H3).
  split; [done|]. split; [done|]. intros. apply H3. lia.
Qed.

Lemma digits_unique n k :
  10 ^ (k - 1) ≤ Z.abs n < 10 ^ k → 1 ≤ k → digits n = k.
Proof.
  intros [Hlo Hhi] Hk.
  destruct (digits_spec n) as (H1 & H2 & H3).
  assert (n ≠ 0).
  { intros ->. pose proof (pow10_gt0 (k - 1)). simpl in Hlo. lia. }
  specialize (H3 ltac:(done)).
  destruct (Z_lt_le_dec (digits n) k) as [Hlt|Hge].
  - pose proof (Z.pow_le_mono_r 10 (digits n) (k - 1)). lia.
  - destruct (Z_lt_le_dec k (digits n)) as [Hlt'|]; [|lia].
    pose proof (Z.pow_le_mono_r 10 k (digits n - 1)). lia.
Qed.

Lemma digits_le_prec n : digits n ≤ prec ↔ Z.abs n < 10 ^ prec.
Proof.
  destruct (digits_spec n) as (H1 & H2 & H3). split.
  - intros Hle. pose proof (Z.pow_le_mono_r 10 (digits n) prec). lia.
  - intros Hlt. destruct (decide (n = 0)) as [->|Hn]; [done|].
    specialize (H3 Hn).
    destruct (Z_lt_le_dec prec (digits n)) as [Hgt|]; [|lia].
    pose proof (Z.pow_le_mono_r 10 prec (digits n - 1)). lia.
Qed.

Lemma fix_fits x : fits x = true → fix_ x = x.
Proof.
  unfold fits, fix_. intros Hf%Z.ltb_lt.
  apply digits_le_prec in Hf. by rewrite (proj2 (Z.leb_le _ _) Hf).
Qed.

Lemma fix_zero e : fix_ (mk 0 e) = mk 0 e.
Proof. by apply fix_fits. Qed.

(** Rounding a numeral of more than [prec] digits leaves exactly [prec]
    digits, and a larger exponent. *)
Lemma fix_long c e :
  prec < digits c →
  digits (coef (fix_ (mk c e))) = prec ∧ e < exp (fix_ (mk c e)) ∧
  coef (fix_ (mk c e)) ≠ 0.
Proof.
  intros Hlong. unfold fix_. cbn [coef exp].
  rewrite (proj2 (Z.leb_gt _ _) Hlong).
  destruct (digits_spec c) as (_ & Hhi & Hlo).
  assert (Hc : c ≠ 0) by (intros ->; by vm_compute in Hlong).
  specialize (Hlo Hc).
  set (k := digits c) in *. set (d := k - prec).
  assert (Hd : 0 < d) by (unfold d; lia).
  pose proof (pow10_gt0 d ltac:(lia)) as Hp.
  assert (Hsplit : 10 ^ k = 10 ^ prec * 10 ^ d).
  { rewrite <- Z.pow_add_r by (unfold prec; lia). f_equal. unfold d. lia. }
  assert (Hsplit' : 10 ^ (k - 1) = 10 ^ (prec - 1) * 10 ^ d).
  { rewrite <- Z.pow_add_r by (unfold prec; lia). f_equal. unfold d. lia. }
  assert (Hq : 10 ^ (prec - 1) ≤ Z.abs c / 10 ^ d < 10 ^ prec).
  { split.
    - apply Z.div_le_lower_bound; lia.
    - apply Z.div_lt_upper_bound; lia. }
  assert (Hr : 10 ^ (prec - 1) ≤ round_half_even (Z.abs c) d ≤ 10 ^ prec).
  { unfold round_half_even. destruct (_ || _); lia. }
  assert (Hsgn : ∀ q, 0 < q → Z.abs (Z.sgn c * q) = q) by (intros; lia).
  assert (H27 : 0 < 10 ^ (prec - 1)) by done.
  destruct (Z.eqb_spec (round_half_even (Z.abs c) d) (10 ^ prec)) as [Heq|Hne];
    cbn [coef exp].
  - split; [|split; [lia|lia]].
    apply digits_unique; [|done]. rewrite Hsgn by done.
    split; [done|]. done.
  - split; [|split; [lia|lia]].
    apply digits_unique; [|done]. rewrite Hsgn by lia. lia.
Qed.

Lemma quantize_Some x e y :
  quantize x e = Some y → exp y = e ∧ fits y = true.
Proof.
  unfold quantize. destruct (coef x =? 0).
  - rewrite fix_zero. by intros [= <-].
  - destruct (prec <? adjusted x - e + 1); [done|].
    destruct (Z.ltb_spec prec (digits (coef (rescale x e)))) as [|Hle];
      [done|]. intros [= <-].
    apply digits_le_prec in Hle.
    assert (Hf : fits (rescale x e) = true) by by apply Z.ltb_lt.
    rewrite fix_fits by done. split; [|done].
    unfold rescale. by repeat case_match.
Qed.

(** Quantizing to cents a value that already is in cents is the
    identity. *)
Lemma quantize_cents c :
  Z.abs c < 10 ^ prec → quantize (mk c (-2)) (-2) = Some (mk c (-2)).
Proof.
  intros Hc. unfold quantize. cbn [coef exp].
  destruct (Z.eqb_spec c 0) as [->|Hne]; [by rewrite fix_zero|].
  pose proof (proj2 (digits_le_prec c) Hc) as Hd.
  unfold adjusted. cbn [coef exp].
  destruct (Z.ltb_spec prec (-2 + digits c - 1 - -2 + 1)); [lia|].
  unfold rescale. cbn [coef exp].
  rewrite (proj2 (Z.eqb_neq _ _) Hne).
  change (-2 <=? -2) with true. cbn match.
  replace (c * 10 ^ (-2 - -2)) with c by (change (10 ^ (-2 - -2)) with 1; lia).
  cbn [coef]. destruct (Z.ltb_spec prec (digits c)); [lia|].
  f_equal. apply fix_fits. by apply Z.ltb_lt.
Qed.

(** A value that was rounded by the context has no representation in
    cents within the precision: [quantize] traps. *)
Lemma quantize_fix_long c e :
  prec < digits c → -2 ≤ e → quantize (fix_ (mk c e)) (-2) = None.
Proof.
  intros Hlong He.
  destruct (fix_long c e Hlong) as (Hd & Hexp & Hne).
  unfold quantize. rewrite (proj2 (Z.eqb_neq _ _) Hne).
  unfold adjusted. rewrite Hd.
  destruct (Z.ltb_spec prec (exp (fix_ (mk c e)) + prec - 1 - -2 + 1));
    [done|]. lia.
Qed.


(** The difference of two amounts in cents, once quantized, is the exact
    difference, in cents. *)
Lemma quantize_sub_cents a b y :
  exp a = -2 → exp b = -2 →
  quantize (sub a b) (-2) = Some y →
  y = mk (coef a - coef b) (-2).
Proof.
  intros Ha Hb. unfold sub, add, neg. cbn [coef exp]. rewrite Ha, Hb.
  change (Z.min (-2) (-2)) with (-2). change (10 ^ (-2 - -2)) with 1.
  replace (coef a * 1 + - coef b * 1) with (coef a - coef b) by lia.
  destruct (Z_lt_le_dec prec (digits (coef a - coef b))) as [Hlong|Hshort].
  - by rewrite quantize_fix_long.
  - apply digits_le_prec in Hshort.
    rewrite fix_fits by by apply Z.ltb_lt.
    rewrite quantize_cents by done. by intros [= <-].
Qed.

(** Within the precision, [sub] is the exact difference. *)
Lemma sub_exact x y : fits (exact_sub x y) = true → sub x y = exact_sub x y.
Proof.
  unfold sub, add, neg, exact_sub. cbn [coef exp]. intros Hf.
  replace (coef x * 10 ^ (exp x - Z.min (exp x) (exp y)) +
           - coef y * 10 ^ (exp y - Z.min (exp x) (exp y)))
    with (coef x * 10 ^ (exp x - Z.min (exp x) (exp y)) -
          coef y * 10 ^ (exp y - Z.min (exp x) (exp y))) by lia.
  by apply fix_fits.
Qed.

Lemma compare_refl x : compare x x = Eq.
Proof. unfold compare. apply Z.compare_refl. Qed.

Lemma compare_antisym x y : compare y x = CompOpp (compare x y).
Proof.
  unfold compare. rewrite (Z.min_comm (exp y) (exp x)).
  apply Z.compare_antisym.
Qed.

Lemma leb_refl x : leb x x = true.
Proof. unfold leb. by rewrite compare_refl. Qed.

Lemma ltb_false_leb x y : ltb y x = false → leb x y = true.
Proof.
  unfold ltb, leb. rewrite (compare_antisym x y).
  by destruct (compare x y).
Qed.

Lemma min_leb_r x y : leb (min x y) y = true.
Proof.
  unfold min. destruct (ltb y x) eqn:E.
  - apply leb_refl.
  - by apply ltb_false_leb.
Qed.

Lemma min_cases x y : min x y = x ∨ min x y = y.
Proof. unfold min. destruct (ltb y x); auto. Qed.

(** The condition under which charging [a] to a balance [b] and
    refunding it are both exact: the balance at the common exponent and
    its difference with [a] keep all their digits. *)
Lemma charge_refund_exact_eqb b a :
  let e := Z.min (exp b) (exp a) in
  Z.abs (coef b * 10 ^ (exp b - e)) < 10 ^ prec →
  Z.abs (coef b * 10 ^ (exp b - e) - coef a * 10 ^ (exp a - e)) < 10 ^ prec →
  eqb (add (sub b a) a) b = true.
Proof.
  intros e HB HD. unfold sub, add at 2, neg. cbn [coef exp]. fold e.
  replace (coef b * 10 ^ (exp b - e) + - coef a * 10 ^ (exp a - e))
    with (coef b * 10 ^ (exp b - e) - coef a * 10 ^ (exp a - e)) by lia.
  rewrite fix_fits by by apply Z.ltb_lt.
  unfold add. cbn [coef exp].
  assert (Hmin : Z.min e (exp a) = e) by (unfold e; lia).
  rewrite Hmin, Z.sub_diag. change (10 ^ 0) with 1.
  replace ((coef b * 10 ^ (exp b - e) - coef a * 10 ^ (exp a - e)) * 1 +
           coef a * 10 ^ (exp a - e))
    with (coef b * 10 ^ (exp b - e)) by lia.
  rewrite fix_fits by by apply Z.ltb_lt.
  unfold eqb, compare. cbn [coef exp].
  assert (Hmin' : Z.min e (exp b) = e) by (unfold e; lia).
  rewrite Hmin', Z.sub_diag. change (10 ^ 0) with 1.
  by rewrite Z.mul_1_r, Z.compare_refl.
Qed.

End DecimalFacts.

(** ** The monad *)

Lemma bind_inv {A B} (m : M A) (k : A → M B) st st' r :
  bind m k st = (st', r) →
  (∃ st1 a, m st = (st1, Ok a) ∧ k a st1 = (st', r)) ∨
  (∃ e, m st = (st', Raise e) ∧ r = Raise e).
Proof.
  unfold bind. destruct (m st) as [st1 [a|e]]; intros H.
  - left. eauto.
  - right. injection H as <- <-. eauto.
Qed.

Lemma try_inv {A} (m : M A) st st' r :
  try_ m st = (st', r) →
  (∃ a, m st = (st', Ok a) ∧ r = Ok (inr a)) ∨
  (∃ e, m st = (st', Raise e) ∧ r = Ok (inl e)).
Proof.
  unfold try_. destruct (m st) as [st1 [a|e]]; intros [= <- <-]; eauto.
Qed.

Lemma bind_assoc {A B C} (m : M A) (k : A → M B) (h : B → M C) st :
  bind (bind m k) h st = bind m (λ a, bind (k a) h) st.
Proof. unfold bind. by destruct (m st) as [st1 [a|e]]. Qed.

Lemma bind_ext {A B} (m : M A) (k1 k2 : A → M B) st :
  (∀ a st1, k1 a st1 = k2 a st1) → bind m k1 st = bind m k2 st.
Proof. intros H. unfold bind. by destruct (m st) as [st1 [a|e]]. Qed.

Lemma respects_elim {A} (R : relation Store.t) (m : M A) st st' r :
  respects R m → m st = (st', r) → R st st'.
Proof. intros H. apply H. Qed.

Section Respects.
Context (R : relation Store.t) `{!PreOrder R}.

(** [R] admits the appending of any log line. *)
Hypothesis R_log : ∀ e st, R st (Store.log e st).

Lemma respects_ret {A} (a : A) : respects R (ret a).
Proof. intros st st' r [= <- <-]. reflexivity. Qed.

Lemma respects_raise {A} e : respects R (@raise A e).
Proof. intros st st' r [= <- <-]. reflexivity. Qed.

Lemma respects_get : respects R get.
Proof. intros st st' r [= <- <-]. reflexivity. Qed.

Lemma respects_log e : respects R (log e).
Proof. intros st st' r [= <- <-]. apply R_log. Qed.

Lemma respects_trap {A} (o : option A) : respects R (trap o).
Proof. destruct o; [apply respects_ret|apply respects_raise]. Qed.

Lemma respects_bind {A B} (m : M A) (k : A → M B) :
  respects R m → (∀ a, respects R (k a)) → respects R (bind m k).
Proof.
  intros Hm Hk st st' r [(st1 & a & H1 & H2)|(e & H1 & _)]%bind_inv.
  - etrans; [by eapply Hm|by eapply Hk].
  - by eapply Hm.
Qed.

Lemma respects_try {A} (m : M A) : respects R m → respects R (try_ m).
Proof.
  intros Hm st st' r [(a & H1 & _)|(e & H1 & _)]%try_inv; by eapply Hm.
Qed.

Lemma respects_run s : respects R (Step.execute s) → respects R (Step.run s).
Proof.
  intros Hs. unfold Step.run.
  apply respects_bind; [apply respects_log|intros _].
  apply respects_bind; [done|intros _]. apply respects_log.
Qed.

Lemma respects_run_compensation s :
  respects R (Step.compensate s) → respects R (Step.run_compensation s).
Proof.
  intros Hs. unfold Step.run_compensation.
  apply respects_bind; [apply respects_log|intros _].
  apply respects_bind; [done|intros _]. apply respects_log.
Qed.

Lemma respects_forward fail_at_step steps done_ :
  Forall (step_respects R) steps →
  respects R (SagaOrchestrator.forward fail_at_step steps done_).
Proof.
  intros Hsteps. revert done_.
  induction Hsteps as [|s steps [Hs _] _ IH]; intros done_; cbn.
  - apply respects_ret.
  - case_decide; [apply respects_ret|].
    apply respects_bind.
    + by apply respects_try, respects_run.
    + intros [e|[]]; [apply respects_ret|apply IH].
Qed.

Lemma respects_compensate_all order_id steps :
  Forall (step_respects R) steps →
  respects R (SagaOrchestrator.compensate_all order_id steps).
Proof.
  induction 1 as [|s steps [_ Hs] _ IH]; cbn.
  - apply respects_ret.
  - apply respects_bind; [|by intros _].
    apply respects_bind.
    + by apply respects_try, respects_run_compensation.
    + intros [e|[]]; [apply respects_log|apply respects_ret].
Qed.

Lemma respects_calculate_amounts req :
  respects R (SagaOrchestrator._calculate_amounts req).
Proof.
  unfold SagaOrchestrator._calculate_amounts.
  apply respects_bind; [apply respects_get|intros st0].
  destruct (_ !! _); [|apply respects_raise].
  repeat (apply respects_bind; [apply respects_trap|intros ?]).
  apply respects_ret.
Qed.

Lemma respects_pre_saga req : respects R (SagaOrchestrator.pre_saga req).
Proof.
  unfold SagaOrchestrator.pre_saga.
  apply respects_bind; [apply respects_log|intros _].
  destruct (_ <=? _); [apply respects_raise|].
  apply respects_bind; [apply respects_get|intros st0].
  destruct (_ !! _); [|apply respects_raise].
  apply respects_bind; [apply respects_calculate_amounts|intros a].
  apply respects_bind; [apply respects_log|intros _]. apply respects_ret.
Qed.

End Respects.

(** ** The services, as equations *)

Section ServiceEquations.
Import DiscountsService InventoryService BillingService.

Lemma reserve_promo_use_eq order_id c st :
  reserve_promo_use order_id c st =
  match Store.promos st !! c with
  | None => (st, Raise (PromoNotFound c))
  | Some p =>
      if PromoCode.remaining_uses p <=? 0
      then (st, Raise (PromoExhausted c))
      else (Store.log
              (LogPromoReserved order_id c (PromoCode.remaining_uses p - 1))
              (Store.set_promos st
                 (<[c := PromoCode.set_remaining_uses p
                           (PromoCode.remaining_uses p - 1)]>
                    (Store.promos st))),
            Ok tt)
  end.
Proof.
  unfold reserve_promo_use, bind, get. cbn.
  destruct (Store.promos st !! c) as [p|]; [|done].
  by destruct (PromoCode.remaining_uses p <=? 0).
Qed.

Lemma release_promo_use_eq order_id c st :
  release_promo_use order_id c st =
  match Store.promos st !! c with
  | None => (st, Ok tt)
  | Some p =>
      (Store.log
         (LogPromoReleased order_id c (PromoCode.remaining_uses p + 1))
         (Store.set_promos st
            (<[c := PromoCode.set_remaining_uses p
                      (PromoCode.remaining_uses p + 1)]>
               (Store.promos st))),
       Ok tt)
  end.
Proof.
  unfold release_promo_use, bind, get. cbn.
  by destruct (Store.promos st !! c) as [p|].
Qed.

Lemma reserve_inventory_eq order_id sku qty st :
  reserve_inventory order_id sku qty st =
  match Store.items st !! sku with
  | None => (st, Raise (ItemNotFound sku))
  | Some i =>
      if InventoryItem.on_hand i <? qty
      then (st, Raise (InsufficientInventory sku (InventoryItem.on_hand i) qty))
      else (Store.log
              (LogInventoryReserved order_id sku qty
                 (InventoryItem.on_hand i - qty))
              (Store.set_items st
                 (<[sku := InventoryItem.set_on_hand i
                             (InventoryItem.on_hand i - qty)]>
                    (Store.items st))),
            Ok tt)
  end.
Proof.
  unfold reserve_inventory, bind, get. cbn.
  destruct (Store.items st !! sku) as [i|]; [|done].
  by destruct (InventoryItem.on_hand i <? qty).
Qed.

Lemma release_inventory_eq order_id sku qty st :
  release_inventory order_id sku qty st =
  match Store.items st !! sku with
  | None => (st, Ok tt)
  | Some i =>
      (Store.log
         (LogInventoryReleased order_id sku qty
            (InventoryItem.on_hand i + qty))
         (Store.set_items st
            (<[sku := InventoryItem.set_on_hand i
                        (InventoryItem.on_hand i + qty)]>
               (Store.items st))),
       Ok tt)
  end.
Proof.
  unfold release_inventory, bind, get. cbn.
  by destruct (Store.items st !! sku) as [i|].
Qed.

Lemma charge_user_balance_eq order_id uid amount st :
  charge_user_balance order_id uid amount st =
  match Store.users st !! uid with
  | None => (st, Raise (UserNotFound uid))
  | Some u =>
      if Decimal.ltb (User.balance u) amount
      then (st, Raise (InsufficientBalance uid (User.balance u) amount))
      else (Store.log
              (LogCharged order_id uid amount
                 (Decimal.sub (User.balance u) amount))
              (Store.set_users st
                 (<[uid := User.set_balance u
                             (Decimal.sub (User.balance u) amount)]>
                    (Store.users st))),
            Ok tt)
  end.
Proof.
  unfold charge_user_balance, bind, get. cbn.
  destruct (Store.users st !! uid) as [u|]; [|done].
  by destruct (Decimal.ltb (User.balance u) amount).
Qed.

Lemma refund_user_balance_eq order_id uid amount st :
  refund_user_balance order_id uid amount st =
  match Store.users st !! uid with
  | None => (st, Ok tt)
  | Some u =>
      (Store.log
         (LogRefunded order_id uid amount
            (Decimal.add (User.balance u) amount))
         (Store.set_users st
            (<[uid := User.set_balance u
                        (Decimal.add (User.balance u) amount)]>
               (Store.users st))),
       Ok tt)
  end.
Proof.
  unfold refund_user_balance, bind, get. cbn.
  by destruct (Store.users st !! uid) as [u|].
Qed.

End ServiceEquations.

(** ** Projections of an updated store *)

Section StoreFacts.
Import Store.

Lemma users_log e st : users (log e st) = users st.
Proof. done. Qed.
Lemma items_log e st : items (log e st) = items st.
Proof. done. Qed.
Lemma promos_log e st : promos (log e st) = promos st.
Proof. done. Qed.
Lemma logs_log e st : logs (log e st) = logs st ++ [e].
Proof. done. Qed.

Lemma users_set_users st m : users (set_users st m) = m.
Proof. done. Qed.
Lemma items_set_users st m : items (set_users st m) = items st.
Proof. done. Qed.
Lemma promos_set_users st m : promos (set_users st m) = promos st.
Proof. done. Qed.
Lemma logs_set_users st m : logs (set_users st m) = logs st.
Proof. done. Qed.

Lemma users_set_items st m : users (set_items st m) = users st.
Proof. done. Qed.
Lemma items_set_items st m : items (set_items st m) = m.
Proof. done. Qed.
Lemma promos_set_items st m : promos (set_items st m) = promos st.
Proof. done. Qed.
Lemma logs_set_items st m : logs (set_items st m) = logs st.
Proof. done. Qed.

Lemma users_set_promos st m : users (set_promos st m) = users st.
Proof. done. Qed.
Lemma items_set_promos st m : items (set_promos st m) = items st.
Proof. done. Qed.
Lemma promos_set_promos st m : promos (set_promos st m) = m.
Proof. done. Qed.
Lemma logs_set_promos st m : logs (set_promos st m) = logs st.
Proof. done. Qed.

End StoreFacts.

Create Rewrite HintDb store.
#[global] Hint Rewrite users_log items_log promos_log logs_log
  users_set_users items_set_users promos_set_users logs_set_users
  users_set_items items_set_items promos_set_items logs_set_items
  users_set_promos items_set_promos promos_set_promos logs_set_promos : store.

(** The amounts are computed without touching the store, from its items
    and promos alone. *)
Lemma calculate_amounts_eq req st :
  SagaOrchestrator._calculate_amounts req st =
  (st,
   match Store.items st !! OrderRequest.sku req with
   | None => Raise (ItemNotFound (OrderRequest.sku req))
   | Some item =>
       match Decimal.quantize
               (Decimal.mul (InventoryItem.price item)
                  (Decimal.of_int (OrderRequest.qty req))) (-2) with
       | None => Raise InvalidOperation
       | Some base =>
           match Decimal.quantize
                   (DiscountsService.calculate_discount st
                      (OrderRequest.promo_code req) base) (-2) with
           | None => Raise InvalidOperation
           | Some discount =>
               match Decimal.quantize (Decimal.sub base discount) (-2) with
               | None => Raise InvalidOperation
               | Some final => Ok (mkOrderAmounts base discount final)
               end
           end
       end
   end).
Proof.
  unfold SagaOrchestrator._calculate_amounts, bind, get. cbn.
  destruct (_ !! _); [|done].
  repeat (destruct (Decimal.quantize _ _); cbn; [|done]). done.
Qed.

Lemma calculate_amounts_state req st :
  (SagaOrchestrator._calculate_amounts req st).1 = st.
Proof. by rewrite calculate_amounts_eq. Qed.

Lemma calculate_amounts_log req e st :
  SagaOrchestrator._calculate_amounts req (Store.log e st) =
  (Store.log e st, (SagaOrchestrator._calculate_amounts req st).2).
Proof. by rewrite !calculate_amounts_eq. Qed.

(** What a completed pre-saga phase establishes. *)
Lemma pre_saga_Ok req st st1 amounts :
  SagaOrchestrator.pre_saga req st = (st1, Ok amounts) →
  0 < OrderRequest.qty req ∧
  is_Some (Store.users st !! OrderRequest.user_id req) ∧
  SagaOrchestrator._calculate_amounts req st = (st, Ok amounts) ∧
  st1 = Store.log
          (LogAmounts (OrderRequest.order_id req) (base_amount amounts)
             (discount_amount amounts) (final_amount amounts))
          (Store.log
             (LogSagaStart (OrderRequest.order_id req)
                (OrderRequest.user_id req) (OrderRequest.sku req)
                (OrderRequest.qty req) (OrderRequest.promo_code req)) st).
Proof.
  unfold SagaOrchestrator.pre_saga, bind at 1, log at 1, modify.
  destruct (Z.leb_spec (OrderRequest.qty req) 0) as [|Hq]; [done|].
  unfold bind at 1, get. rewrite users_log.
  destruct (Store.users st !! _) as [u|] eqn:Hu; [|done].
  unfold bind at 1. rewrite calculate_amounts_log.
  pose proof (calculate_amounts_state req st) as Hst.
  destruct (SagaOrchestrator._calculate_amounts req st) as [st2 [a|e]];
    cbn in Hst |- *; subst st2; [|done].
  intros [= <- <-]. eauto.
Qed.

(** A pre-saga phase that raises has written the start line, and nothing
    else. *)
Lemma pre_saga_Raise req st st1 e :
  SagaOrchestrator.pre_saga req st = (st1, Raise e) →
  st1 = Store.log
          (LogSagaStart (OrderRequest.order_id req)
             (OrderRequest.user_id req) (OrderRequest.sku req)
             (OrderRequest.qty req) (OrderRequest.promo_code req)) st.
Proof.
  unfold SagaOrchestrator.pre_saga, bind at 1, log at 1, modify.
  destruct (OrderRequest.qty req <=? 0); [by intros [= <- _]|].
  unfold bind at 1, get. rewrite users_log.
  destruct (Store.users st !! _) as [u|]; [|by intros [= <- _]].
  unfold bind at 1. rewrite calculate_amounts_log.
  destruct (SagaOrchestrator._calculate_amounts req st) as [st2 [a|e']];
    cbn; [done|].
  by intros [= <- _].
Qed.

(** ** The two loops of the orchestrator *)

Section Loops.
Import SagaOrchestrator.

(** The forward loop never raises; it completes a prefix of the steps,
    all of them exactly when it meets no failure. *)
Lemma forward_inv fail_at_step steps done_ st st' r :
  forward fail_at_step steps done_ st = (st', r) →
  ∃ i err, r = Ok (done_ ++ take i steps, err) ∧
    match err with
    | None => i = length steps
    | Some e =>
        ∃ s, steps !! i = Some s ∧
          ((fail_at_step = Some (Step.name s) ∧
            e = ArtificialFailure (Step.name s)) ∨
           (fail_at_step ≠ Some (Step.name s) ∧
            ∃ st0 st1, Step.run s st0 = (st1, Raise e)))
    end.
Proof.
  revert done_ st st' r.
  induction steps as [|s steps IH]; intros done_ st st' r; cbn [forward].
  - intros [= <- <-]. exists 0%nat, None. by rewrite app_nil_r.
  - case_decide as Hf.
    + intros [= <- <-]. exists 0%nat, (Some (ArtificialFailure (Step.name s))).
      rewrite take_0, app_nil_r. split; [done|]. exists s. split; [done|].
      by left.
    + intros [(st1 & a & Ht & Hk)|(e & Ht & _)]%bind_inv.
      * apply try_inv in Ht as [([] & Hrun & [= ->])|(e & Hrun & [= ->])].
        -- apply IH in Hk as (i & err & -> & Herr).
           exists (S i), err. rewrite <- app_assoc. split; [done|].
           destruct err as [e|]; [|by rewrite Herr].
           destruct Herr as (s' & Hs' & Hcase). exists s'. split; [done|].
           done.
        -- injection Hk as <- <-. exists 0%nat, (Some e).
           rewrite take_0, app_nil_r. split; [done|]. exists s.
           split; [done|]. right. split; [done|]. by exists st, st1.
      * by apply try_inv in Ht as [(? & _ & ?)|(? & _ & ?)].
Qed.

(** The compensation loop never raises, whatever the compensations do. *)
Lemma compensate_all_Ok order_id steps st :
  ∃ st', compensate_all order_id steps st = (st', Ok tt).
Proof.
  revert st. induction steps as [|s steps IH]; intros st; cbn.
  - by eexists.
  - unfold bind at 1 2, try_.
    destruct (Step.run_compensation s st) as [st1 [[]|e]]; cbn.
    + apply IH.
    + apply IH.
Qed.

Lemma compensate_all_app order_id l1 l2 st :
  compensate_all order_id (l1 ++ l2) st =
  (compensate_all order_id l1 ;;; compensate_all order_id l2) st.
Proof.
  revert st. induction l1 as [|s l1 IH]; intros st; [done|].
  cbn [app compensate_all].
  rewrite (bind_assoc _ (λ _, compensate_all order_id l1)).
  apply bind_ext. intros _ st1. apply IH.
Qed.

End Loops.

(** ** What the log tells of a run *)

Section Trace.
Import SagaOrchestrator.

Lemma service_lines_silent l :
  Forall (λ e, service_entry e = true) l →
  started l = [] ∧ completed l = [] ∧ compensated l = [] ∧
  compensation_ended l = [].
Proof.
  unfold started, completed, compensated, compensation_ended.
  induction 1 as [|e l He _ (H1 & H2 & H3 & H4)]; [done|].
  cbn. rewrite H1, H2, H3, H4. by destruct e.
Qed.

Lemma run_trace s st st' r :
  quiet_step s → Step.run s st = (st', r) →
  ∃ l, Forall (λ e, service_entry e = true) l ∧
    ((r = Ok tt ∧
      Store.logs st' =
        Store.logs st ++ [LogStep (Step.order_id s) (Step.name s)] ++ l ++
        [LogStepOk (Step.order_id s) (Step.name s)]) ∨
     (∃ e, r = Raise e ∧
      Store.logs st' =
        Store.logs st ++ [LogStep (Step.order_id s) (Step.name s)] ++ l)).
Proof.
  intros [Hq _]. unfold Step.run, bind at 1, log at 1, modify.
  intros [(st1 & [] & He & Hk)|(e & He & ->)]%bind_inv.
  - apply Hq in He as (l & Hl & Hs). exists l. split; [done|]. left.
    injection Hk as <- <-. split; [done|].
    by rewrite logs_log, Hl, logs_log, <- !app_assoc.
  - apply Hq in He as (l & Hl & Hs). exists l. split; [done|]. right.
    exists e. split; [done|]. by rewrite Hl, logs_log, <- !app_assoc.
Qed.

Lemma run_compensation_trace s st st' r :
  quiet_step s → Step.run_compensation s st = (st', r) →
  ∃ l, Forall (λ e, service_entry e = true) l ∧
    ((r = Ok tt ∧
      Store.logs st' =
        Store.logs st ++ [LogCompensate (Step.order_id s) (Step.name s)] ++
        l ++ [LogCompensateOk (Step.order_id s) (Step.name s)]) ∨
     (∃ e, r = Raise e ∧
      Store.logs st' =
        Store.logs st ++ [LogCompensate (Step.order_id s) (Step.name s)] ++
        l)).
Proof.
  intros [_ Hq]. unfold Step.run_compensation, bind at 1, log at 1, modify.
  intros [(st1 & [] & He & Hk)|(e & He & ->)]%bind_inv.
  - apply Hq in He as (l & Hl & Hs). exists l. split; [done|]. left.
    injection Hk as <- <-. split; [done|].
    by rewrite logs_log, Hl, logs_log, <- !app_assoc.
  - apply Hq in He as (l & Hl & Hs). exists l. split; [done|]. right.
    exists e. split; [done|]. by rewrite Hl, logs_log, <- !app_assoc.
Qed.

Lemma started_app l1 l2 : started (l1 ++ l2) = started l1 ++ started l2.
Proof. apply omap_app. Qed.
Lemma completed_app l1 l2 :
  completed (l1 ++ l2) = completed l1 ++ completed l2.
Proof. apply omap_app. Qed.
Lemma compensated_app l1 l2 :
  compensated (l1 ++ l2) = compensated l1 ++ compensated l2.
Proof. apply omap_app. Qed.
Lemma compensation_ended_app l1 l2 :
  compensation_ended (l1 ++ l2) =
  compensation_ended l1 ++ compensation_ended l2.
Proof. apply omap_app. Qed.

Ltac trace_simpl :=
  rewrite ?started_app, ?completed_app, ?compensated_app,
    ?compensation_ended_app;
  repeat match goal with
  | H : Forall (λ e, service_entry e = true) ?l |- _ =>
      destruct (service_lines_silent l H) as (-> & -> & -> & ->); clear H
  end;
  cbn [started completed compensated compensation_ended omap
       started_name completed_name compensated_name
       compensation_ended_name app].

(** The forward loop over quiet steps: the log shows the steps completed,
    in order, and at most one more step started. *)
Lemma forward_trace fail_at_step steps done_ st st' done' err :
  Forall quiet_step steps →
  forward fail_at_step steps done_ st = (st', Ok (done', err)) →
  ∃ i new,
    done' = done_ ++ take i steps ∧
    Store.logs st' = Store.logs st ++ new ∧
    completed new = Step.name <$> take i steps ∧
    compensated new = [] ∧ compensation_ended new = [] ∧
    match err with
    | None => i = length steps ∧ started new = Step.name <$> steps
    | Some e =>
        ∃ s, steps !! i = Some s ∧
          ((fail_at_step = Some (Step.name s) ∧
            e = ArtificialFailure (Step.name s) ∧
            started new = Step.name <$> take i steps) ∨
           (fail_at_step ≠ Some (Step.name s) ∧
            started new = Step.name <$> take (S i) steps))
    end.
Proof.
  intros Hq. revert done_ st.
  induction Hq as [|s steps Hs _ IH]; intros done_ st; cbn [forward].
  - intros [= <- <- <-]. exists 0%nat, []. by rewrite !app_nil_r.
  - case_decide as Hf.
    + intros [= <- <- <-]. exists 0%nat, [].
      rewrite take_0, !app_nil_r. do 5 (split; [done|]).
      exists s. split; [done|]. by left.
    + intros [(st1 & a & Ht & Hk)|(e & Ht & [=])]%bind_inv.
      apply try_inv in Ht as [([] & Hrun & [= ->])|(e & Hrun & [= ->])].
      * apply (run_trace _ _ _ _ Hs) in Hrun
          as (l & Hl & [(_ & Hlog)|(e & [=] & _)]).
        apply IH in Hk as (i & new & -> & Hlog' & Hc & Hk1 & Hk2 & Herr).
        exists (S i), ([LogStep (Step.order_id s) (Step.name s)] ++ l ++
                       [LogStepOk (Step.order_id s) (Step.name s)] ++ new).
        rewrite <- app_assoc. split; [done|].
        split; [by rewrite Hlog', Hlog, <- !app_assoc|].
        trace_simpl. rewrite Hc, Hk1, Hk2. do 3 (split; [done|]).
        destruct err as [e|].
        -- destruct Herr as (s' & Hs' & [(? & ? & Hst)|(? & Hst)]);
             exists s'; (split; [done|]); [left|right]; rewrite Hst; done.
        -- destruct Herr as [-> Hst]. by rewrite Hst.
      * injection Hk as <- <- <-.
        apply (run_trace _ _ _ _ Hs) in Hrun
          as (l & Hl & [([=] & _)|(e' & [= <-] & Hlog)]).
        exists 0%nat, ([LogStep (Step.order_id s) (Step.name s)] ++ l).
        rewrite take_0, app_nil_r. split; [done|]. split; [done|].
        trace_simpl. do 3 (split; [done|]).
        exists s. split; [done|]. right. split; [done|]. cbn.
        by rewrite take_0.
Qed.

(** The compensation loop over quiet steps: every step of the list is
    compensated, in the order of the list, whether or not a compensation
    raised. *)
Lemma compensate_all_trace order_id steps st st' r :
  Forall quiet_step steps →
  compensate_all order_id steps st = (st', r) →
  r = Ok tt ∧
  ∃ new,
    Store.logs st' = Store.logs st ++ new ∧
    compensated new = Step.name <$> steps ∧
    compensation_ended new = Step.name <$> steps ∧
    started new = [] ∧ completed new = [].
Proof.
  intros Hq. revert st.
  induction Hq as [|s steps Hs _ IH]; intros st; cbn [compensate_all].
  - intros [= <- <-]. split; [done|]. exists []. by rewrite app_nil_r.
  - intros [(st1 & [] & Hc & Hk)|(e & Hc & _)]%bind_inv.
    + apply IH in Hk as (-> & new & Hlog' & H1 & H2 & H3 & H4).
      split; [done|].
      apply bind_inv in Hc as [(st0 & a & Ht & Hm)|(e & Ht & [=])].
      apply try_inv in Ht as [([] & Hrun & [= ->])|(e & Hrun & [= ->])].
      * injection Hm as <-.
        apply (run_compensation_trace _ _ _ _ Hs) in Hrun
          as (l & Hl & [(_ & Hlog)|(e & [=] & _)]).
        exists ([LogCompensate (Step.order_id s) (Step.name s)] ++ l ++
                [LogCompensateOk (Step.order_id s) (Step.name s)] ++ new).
        split; [by rewrite Hlog', Hlog, <- !app_assoc|].
        trace_simpl. by rewrite H1, H2, H3, H4.
      * injection Hm as <-.
        apply (run_compensation_trace _ _ _ _ Hs) in Hrun
          as (l & Hl & [([=] & _)|(e' & [= <-] & Hlog)]).
        exists ([LogCompensate (Step.order_id s) (Step.name s)] ++ l ++
                [LogCompensationFailed order_id (Step.name s) e] ++ new).
        split; [by rewrite Hlog', logs_log, Hlog, <- !app_assoc|].
        trace_simpl. by rewrite H1, H2, H3, H4.
    + exfalso.
      apply bind_inv in Hc as [(st0 & a & Ht & Hm)|(e' & Ht & _)].
      * by destruct a as [?|[]].
      * by apply try_inv in Ht as [(? & _ & ?)|(? & _ & ?)].
Qed.

End Trace.

(** ** The four steps *)

Section Steps.
Import SagaOrchestrator.

Lemma build_steps_Forall (P : Step.t → Prop) req amounts :
  (∀ c, OrderRequest.promo_code req = Some c →
        P (ReservePromoUse (OrderRequest.order_id req) c)) →
  P (ReserveInventory (OrderRequest.order_id req) (OrderRequest.sku req)
       (OrderRequest.qty req)) →
  P (ChargeUserBalance (OrderRequest.order_id req)
       (OrderRequest.user_id req) (final_amount amounts)) →
  P (FinalizeOrder (OrderRequest.order_id req)) →
  Forall P (build_steps req amounts).
Proof.
  intros Hp Hi Hc Hf. unfold build_steps. apply Forall_app. split.
  - destruct (OrderRequest.promo_code req) as [c|]; [|done].
    destruct (truthy (Some c)); [|done]. repeat constructor. by apply Hp.
  - by repeat constructor.
Qed.

(** The names of the built sequence. *)
Lemma build_steps_names req amounts :
  Step.name <$> build_steps req amounts =
  (if truthy (OrderRequest.promo_code req) then ["ReservePromoUse"] else [])
  ++ ["ReserveInventory"; "ChargeUserBalance"; "FinalizeOrder"].
Proof.
  unfold build_steps. rewrite fmap_app. f_equal.
  destruct (OrderRequest.promo_code req) as [c|]; [|done].
  by destruct (truthy (Some c)).
Qed.

Lemma build_steps_names_NoDup req amounts :
  NoDup (Step.name <$> build_steps req amounts).
Proof.
  rewrite build_steps_names.
  destruct (truthy _); apply (bool_decide_unpack _); by vm_compute.
Qed.

Ltac service_cases :=
  intros ??? ;
  cbn [Step.execute Step.compensate ReservePromoUse ReserveInventory
       ChargeUserBalance FinalizeOrder];
  rewrite ?reserve_promo_use_eq, ?release_promo_use_eq,
    ?reserve_inventory_eq, ?release_inventory_eq,
    ?charge_user_balance_eq, ?refund_user_balance_eq;
  repeat case_match; intros [= <- <-].

Lemma appends_nothing st : appends_service_lines st st.
Proof. exists []. by rewrite app_nil_r. Qed.

Lemma appends_one e st st0 :
  service_entry e = true → Store.logs st0 = Store.logs st →
  appends_service_lines st (Store.log e st0).
Proof.
  intros He Hl. exists [e]. rewrite logs_log, Hl. split; [done|].
  by constructor.
Qed.

Lemma quiet_ReservePromoUse order_id c :
  quiet_step (ReservePromoUse order_id c).
Proof.
  split; service_cases;
    first [apply appends_nothing | by apply appends_one].
Qed.

Lemma quiet_ReserveInventory order_id sku qty :
  quiet_step (ReserveInventory order_id sku qty).
Proof.
  split; service_cases;
    first [apply appends_nothing | by apply appends_one].
Qed.

Lemma quiet_ChargeUserBalance order_id uid amount :
  quiet_step (ChargeUserBalance order_id uid amount).
Proof.
  split; service_cases;
    first [apply appends_nothing | by apply appends_one].
Qed.

Lemma quiet_FinalizeOrder order_id : quiet_step (FinalizeOrder order_id).
Proof. split; intros ??? [= <- <-]; by apply appends_one. Qed.

Lemma quiet_build_steps req amounts :
  Forall quiet_step (build_steps req amounts).
Proof.
  apply build_steps_Forall; intros;
    auto using quiet_ReservePromoUse, quiet_ReserveInventory,
      quiet_ChargeUserBalance, quiet_FinalizeOrder.
Qed.

End Steps.

(** ** A run of the steps, as the log tells it *)

Section RunSteps.
Import SagaOrchestrator.

Lemma run_steps_trace order_id fail_at_step steps st :
  Forall quiet_step steps →
  ∃ st' b new i,
    run_steps order_id fail_at_step steps st = (st', Ok b) ∧
    Store.logs st' = Store.logs st ++ new ∧
    completed new = Step.name <$> take i steps ∧
    if b
    then i = length steps ∧ started new = Step.name <$> steps ∧
         compensated new = [] ∧ compensation_ended new = []
    else compensated new = reverse (Step.name <$> take i steps) ∧
         compensation_ended new = reverse (Step.name <$> take i steps) ∧
         ∃ s, steps !! i = Some s ∧
           ((fail_at_step = Some (Step.name s) ∧
             started new = Step.name <$> take i steps) ∨
            (fail_at_step ≠ Some (Step.name s) ∧
             started new = Step.name <$> take (S i) steps)).
Proof.
  intros Hq. unfold run_steps, bind at 1.
  destruct (forward fail_at_step steps [] st) as [st1 r] eqn:Hfwd.
  destruct (forward_inv _ _ _ _ _ _ Hfwd) as (i0 & err & -> & _).
  cbn [app] in Hfwd |- *.
  apply forward_trace in Hfwd
    as (i & new & Hdone & Hlog & Hc & Hk1 & Hk2 & Herr); [|done].
  cbn [app] in Hdone. rewrite Hdone. destruct err as [e|].
  - destruct Herr as (s & Hs & Hcase).
    unfold bind at 1, log at 1, modify. unfold bind at 1.
    destruct (compensate_all order_id (reverse (take i steps))
                (Store.log (LogSagaFailed order_id e) st1))
      as [st2 r] eqn:Hcomp.
    apply compensate_all_trace in Hcomp
      as (-> & new' & Hlog' & Hc1 & Hc2 & Hc3 & Hc4);
      [|by apply Forall_reverse, Forall_take].
    eexists _, false,
      (new ++ [LogSagaFailed order_id e] ++ new' ++ [LogSagaEnd order_id]), i.
    split; [done|]. cbn [Store.logs Store.log].
    split; [by rewrite Hlog', logs_log, Hlog, <- !app_assoc|].
    rewrite !completed_app, !compensated_app, !compensation_ended_app,
      !started_app, Hc, Hk1, Hk2, Hc1, Hc2, Hc3, Hc4.
    cbn. rewrite !app_nil_r, fmap_reverse. do 3 (split; [done|]).
    exists s. split; [done|].
    destruct Hcase as [(? & _ & ->)|(? & ->)]; [left|right];
      by rewrite ?app_nil_r.
  - destruct Herr as [-> Hst].
    eexists _, true, (new ++ [LogSagaOk order_id]), (length steps).
    split; [done|]. cbn [Store.logs Store.log].
    split; [by rewrite Hlog, <- !app_assoc|].
    rewrite !completed_app, !compensated_app, !compensation_ended_app,
      !started_app, Hc, Hk1, Hk2, Hst.
    cbn. by rewrite !app_nil_r.
Qed.

(** Whatever the steps do, the [try]/[except] returns a boolean. *)
Lemma run_steps_Ok order_id fail_at_step steps st :
  ∃ st' b, run_steps order_id fail_at_step steps st = (st', Ok b).
Proof.
  unfold run_steps, bind at 1.
  destruct (forward fail_at_step steps [] st) as [st1 r] eqn:Hfwd.
  destruct (forward_inv _ _ _ _ _ _ Hfwd) as (i & [e|] & -> & _).
  - unfold bind at 1, log at 1, modify. unfold bind at 1.
    destruct (compensate_all_Ok order_id (reverse ([] ++ take i steps))
                (Store.log (LogSagaFailed order_id e) st1)) as [st2 Hc].
    rewrite Hc.
    by eexists _, _.
  - by eexists _, _.
Qed.

Lemma execute_after_pre_saga req fail_at_step st st1 amounts :
  pre_saga req st = (st1, Ok amounts) →
  execute req fail_at_step st =
  run_steps (OrderRequest.order_id req) fail_at_step
    (build_steps req amounts) st1.
Proof. intros H. unfold execute, bind at 1. by rewrite H. Qed.

Lemma execute_Ok_inv req fail_at_step st st' b :
  execute req fail_at_step st = (st', Ok b) →
  ∃ st1 amounts,
    pre_saga req st = (st1, Ok amounts) ∧
    run_steps (OrderRequest.order_id req) fail_at_step
      (build_steps req amounts) st1 = (st', Ok b).
Proof.
  intros [(st1 & amounts & Hpre & Hrun)|(e & _ & [=])]%bind_inv. eauto.
Qed.

End RunSteps.

(** ** Relations every run respects *)

Section Preserved.
Import SagaOrchestrator.

Lemma respects_run_steps (R : relation Store.t) `{!PreOrder R}
    order_id fail_at_step steps :
  (∀ e st, R st (Store.log e st)) →
  Forall (step_respects R) steps →
  respects R (run_steps order_id fail_at_step steps).
Proof.
  intros Hlog Hsteps st st' r. unfold run_steps.
  intros [(st1 & [done_ err] & Hfwd & Hk)|(e & Hfwd & _)]%bind_inv;
    [|by eapply respects_forward].
  pose proof (respects_forward R Hlog _ _ _ Hsteps _ _ _ Hfwd) as H1.
  destruct (forward_inv _ _ _ _ _ _ Hfwd) as (i & err' & [= -> <-] & _).
  etrans; [exact H1|]. clear H1 Hfwd.
  destruct err as [e|]; (eapply respects_elim; [|exact Hk]).
  - apply respects_bind; [done|by apply respects_log|intros _].
    apply respects_bind; [done| |intros _].
    + apply respects_compensate_all; [done..|].
      by apply Forall_reverse, Forall_take.
    + apply respects_bind; [done|by apply respects_log|intros _].
      by apply respects_ret.
  - apply respects_bind; [done|by apply respects_log|intros _].
    by apply respects_ret.
Qed.

Lemma respects_execute (R : relation Store.t) `{!PreOrder R}
    req fail_at_step :
  (∀ e st, R st (Store.log e st)) →
  (∀ amounts, 0 < OrderRequest.qty req →
              Forall (step_respects R) (build_steps req amounts)) →
  respects R (execute req fail_at_step).
Proof.
  intros Hlog Hsteps st st' r. unfold execute.
  intros [(st1 & amounts & Hpre & Hk)|(e & Hpre & _)]%bind_inv;
    [|by eapply respects_pre_saga].
  etrans; [by eapply respects_pre_saga|].
  eapply respects_run_steps; [done..| |done].
  apply Hsteps. by apply pre_saga_Ok in Hpre as (? & _).
Qed.

(** *** [on_hand >= 0] and [remaining_uses >= 0] *)

#[global] Instance keeps_stock_nonneg_preorder : PreOrder keeps_stock_nonneg.
Proof.
  split; [intros st H; exact H|].
  intros st1 st2 st3 H1 H2 H. apply H2, H1, H.
Qed.

Lemma keeps_stock_nonneg_log e st : keeps_stock_nonneg st (Store.log e st).
Proof. by intros H. Qed.

Lemma stock_nonneg_set_promos st c p :
  stock_nonneg st → 0 ≤ PromoCode.remaining_uses p →
  stock_nonneg (Store.set_promos st (<[c := p]> (Store.promos st))).
Proof.
  intros [Hi Hp] Hu. split; [done|]. by apply map_Forall_insert_2.
Qed.

Lemma stock_nonneg_set_items st k i :
  stock_nonneg st → 0 ≤ InventoryItem.on_hand i →
  stock_nonneg (Store.set_items st (<[k := i]> (Store.items st))).
Proof.
  intros [Hi Hp] Hu. split; [|done]. by apply map_Forall_insert_2.
Qed.

Lemma reserve_promo_use_nonneg order_id c :
  respects keeps_stock_nonneg (DiscountsService.reserve_promo_use order_id c).
Proof.
  intros st st' r. rewrite reserve_promo_use_eq.
  destruct (Store.promos st !! c) as [p|] eqn:Hp; [|by intros [= <- _]].
  destruct (Z.leb_spec (PromoCode.remaining_uses p) 0) as [Hle|Hgt];
    intros [= <- _]; [done|].
  intros H. apply stock_nonneg_set_promos; [done|]. cbn. lia.
Qed.

Lemma release_promo_use_nonneg order_id c :
  respects keeps_stock_nonneg (DiscountsService.release_promo_use order_id c).
Proof.
  intros st st' r. rewrite release_promo_use_eq.
  destruct (Store.promos st !! c) as [p|] eqn:Hp; intros [= <- _]; [|done].
  intros H. apply stock_nonneg_set_promos; [done|].
  destruct H as [_ H]. specialize (H c p Hp). cbn in *. lia.
Qed.

Lemma reserve_inventory_nonneg order_id sku qty :
  respects keeps_stock_nonneg
    (InventoryService.reserve_inventory order_id sku qty).
Proof.
  intros st st' r. rewrite reserve_inventory_eq.
  destruct (Store.items st !! sku) as [i|] eqn:Hi; [|by intros [= <- _]].
  destruct (Z.ltb_spec (InventoryItem.on_hand i) qty) as [Hlt|Hge];
    intros [= <- _]; [done|].
  intros H. apply stock_nonneg_set_items; [done|]. cbn. lia.
Qed.

Lemma release_inventory_nonneg order_id sku qty :
  0 ≤ qty →
  respects keeps_stock_nonneg
    (InventoryService.release_inventory order_id sku qty).
Proof.
  intros Hq st st' r. rewrite release_inventory_eq.
  destruct (Store.items st !! sku) as [i|] eqn:Hi; intros [= <- _]; [|done].
  intros H. apply stock_nonneg_set_items; [done|].
  destruct H as [H _]. specialize (H sku i Hi). cbn in *. lia.
Qed.

Lemma build_steps_nonneg req amounts :
  0 < OrderRequest.qty req →
  Forall (step_respects keeps_stock_nonneg) (build_steps req amounts).
Proof.
  intros Hq. apply build_steps_Forall.
  - intros c _. split;
      [apply reserve_promo_use_nonneg|apply release_promo_use_nonneg].
  - split; [apply reserve_inventory_nonneg|].
    apply release_inventory_nonneg. lia.
  - split; intros st st' r; cbn [Step.execute Step.compensate ChargeUserBalance];
      rewrite ?charge_user_balance_eq, ?refund_user_balance_eq;
      repeat case_match; intros [= <- _] Hinv; exact Hinv.
  - split; intros st st' r [= <- _] Hinv; exact Hinv.
Qed.

(** *** The frame of a request *)

#[global] Instance frame_preorder req : PreOrder (frame req).
Proof.
  split.
  - intros st. by repeat split.
  - intros st1 st2 st3 (U1 & I1 & P1 & DU1 & DI1 & DP1 & L1)
      (U2 & I2 & P2 & DU2 & DI2 & DP2 & L2).
    split; [intros k Hk; by rewrite U2, U1|].
    split; [intros k Hk; by rewrite I2, I1|].
    split; [intros k Hk; by rewrite P2, P1|].
    split; [congruence|]. split; [congruence|]. split; [congruence|].
    by etrans.
Qed.

Lemma frame_log req e st : frame req st (Store.log e st).
Proof.
  do 6 (split; [done|]). rewrite logs_log. by apply prefix_app_r.
Qed.

Lemma frame_log_of req e st st0 :
  (∀ k, k ≠ OrderRequest.user_id req →
        Store.users st0 !! k = Store.users st !! k) →
  (∀ k, k ≠ OrderRequest.sku req →
        Store.items st0 !! k = Store.items st !! k) →
  (∀ k, Some k ≠ OrderRequest.promo_code req →
        Store.promos st0 !! k = Store.promos st !! k) →
  dom (Store.users st0) = dom (Store.users st) →
  dom (Store.items st0) = dom (Store.items st) →
  dom (Store.promos st0) = dom (Store.promos st) →
  Store.logs st0 = Store.logs st →
  frame req st (Store.log e st0).
Proof.
  intros HU HI HP DU DI DP HL. do 6 (split; [done|]).
  rewrite logs_log, HL. by apply prefix_app_r.
Qed.

Lemma build_steps_frame req amounts :
  Forall (step_respects (frame req)) (build_steps req amounts).
Proof.
  apply build_steps_Forall.
  - intros c Hc. split; intros st st' r;
      cbn [Step.execute Step.compensate ReservePromoUse];
      rewrite ?reserve_promo_use_eq, ?release_promo_use_eq;
      destruct (Store.promos st !! c) as [p|] eqn:Hp;
      repeat case_match; intros [= <- _]; try done;
      (apply frame_log_of; autorewrite with store; try done;
       [intros k Hk; apply lookup_insert_ne; congruence
       |apply dom_insert_lookup_L; eauto]).
  - split; intros st st' r;
      cbn [Step.execute Step.compensate ReserveInventory];
      rewrite ?reserve_inventory_eq, ?release_inventory_eq;
      destruct (Store.items st !! _) as [i|] eqn:Hi;
      repeat case_match; intros [= <- _]; try done;
      (apply frame_log_of; autorewrite with store; try done;
       [intros k Hk; apply lookup_insert_ne; congruence
       |apply dom_insert_lookup_L; eauto]).
  - split; intros st st' r;
      cbn [Step.execute Step.compensate ChargeUserBalance];
      rewrite ?charge_user_balance_eq, ?refund_user_balance_eq;
      destruct (Store.users st !! _) as [u|] eqn:Hu;
      repeat case_match; intros [= <- _]; try done;
      (apply frame_log_of; autorewrite with store; try done;
       [intros k Hk; apply lookup_insert_ne; congruence
       |apply dom_insert_lookup_L; eauto]).
  - split; intros st st' r [= <- _]; apply frame_log.
Qed.

End Preserved.

(** ** The effect of each step on the entities *)

Section Effects.
Import SagaOrchestrator.

Lemma run_inv s st st' r :
  Step.run s st = (st', r) →
  ∃ st0 r0,
    Step.execute s (Store.log (LogStep (Step.order_id s) (Step.name s)) st)
      = (st0, r0) ∧
    match r0 with
    | Ok _ => st' = Store.log (LogStepOk (Step.order_id s) (Step.name s)) st0 ∧
              r = Ok tt
    | Raise e => st' = st0 ∧ r = Raise e
    end.
Proof.
  unfold Step.run, bind at 1, log at 1, modify.
  intros [(st0 & [] & He & [= <- <-])|(e & He & ->)]%bind_inv;
    eexists _, _; (split; [exact He|done]).
Qed.

Lemma run_compensation_inv s st st' r :
  Step.run_compensation s st = (st', r) →
  ∃ st0 r0,
    Step.compensate s
      (Store.log (LogCompensate (Step.order_id s) (Step.name s)) st)
      = (st0, r0) ∧
    match r0 with
    | Ok _ =>
        st' = Store.log (LogCompensateOk (Step.order_id s) (Step.name s)) st0 ∧
        r = Ok tt
    | Raise e => st' = st0 ∧ r = Raise e
    end.
Proof.
  unfold Step.run_compensation, bind at 1, log at 1, modify.
  intros [(st0 & [] & He & [= <- <-])|(e & He & ->)]%bind_inv;
    eexists _, _; (split; [exact He|done]).
Qed.

(** *** ReservePromoUse *)

Lemma run_ReservePromoUse order_id c st st' r :
  Step.run (ReservePromoUse order_id c) st = (st', r) →
  Store.users st' = Store.users st ∧ Store.items st' = Store.items st ∧
  match r with
  | Ok _ =>
      ∃ p, Store.promos st !! c = Some p ∧ 0 < PromoCode.remaining_uses p ∧
           Store.promos st' =
             <[c := PromoCode.set_remaining_uses p
                      (PromoCode.remaining_uses p - 1)]> (Store.promos st)
  | Raise _ => Store.promos st' = Store.promos st
  end.
Proof.
  intros (st0 & r0 & He & Hr)%run_inv. revert He.
  cbn [Step.execute ReservePromoUse]. rewrite reserve_promo_use_eq.
  autorewrite with store.
  destruct (Store.promos st !! c) as [p|] eqn:Hp.
  - destruct (Z.leb_spec (PromoCode.remaining_uses p) 0) as [Hle|Hgt];
      intros [= <- <-]; destruct Hr as [-> ->]; [done|].
    do 2 (split; [done|]). by exists p.
  - intros [= <- <-]. by destruct Hr as [-> ->].
Qed.

Lemma run_compensation_ReservePromoUse order_id c st st' r :
  Step.run_compensation (ReservePromoUse order_id c) st = (st', r) →
  r = Ok tt ∧
  Store.users st' = Store.users st ∧ Store.items st' = Store.items st ∧
  Store.promos st' =
    match Store.promos st !! c with
    | Some p => <[c := PromoCode.set_remaining_uses p
                         (PromoCode.remaining_uses p + 1)]> (Store.promos st)
    | None => Store.promos st
    end.
Proof.
  intros (st0 & r0 & He & Hr)%run_compensation_inv. revert He.
  cbn [Step.compensate ReservePromoUse]. rewrite release_promo_use_eq.
  autorewrite with store.
  destruct (Store.promos st !! c) as [p|] eqn:Hp;
    intros [= <- <-]; by destruct Hr as [-> ->].
Qed.

(** *** ReserveInventory *)

Lemma run_ReserveInventory order_id sku qty st st' r :
  Step.run (ReserveInventory order_id sku qty) st = (st', r) →
  Store.users st' = Store.users st ∧ Store.promos st' = Store.promos st ∧
  match r with
  | Ok _ =>
      ∃ i, Store.items st !! sku = Some i ∧ qty ≤ InventoryItem.on_hand i ∧
           Store.items st' =
             <[sku := InventoryItem.set_on_hand i
                        (InventoryItem.on_hand i - qty)]> (Store.items st)
  | Raise _ => Store.items st' = Store.items st
  end.
Proof.
  intros (st0 & r0 & He & Hr)%run_inv. revert He.
  cbn [Step.execute ReserveInventory]. rewrite reserve_inventory_eq.
  autorewrite with store.
  destruct (Store.items st !! sku) as [i|] eqn:Hi.
  - destruct (Z.ltb_spec (InventoryItem.on_hand i) qty) as [Hlt|Hge];
      intros [= <- <-]; destruct Hr as [-> ->]; [done|].
    do 2 (split; [done|]). by exists i.
  - intros [= <- <-]. by destruct Hr as [-> ->].
Qed.

Lemma run_compensation_ReserveInventory order_id sku qty st st' r :
  Step.run_compensation (ReserveInventory order_id sku qty) st = (st', r) →
  r = Ok tt ∧
  Store.users st' = Store.users st ∧ Store.promos st' = Store.promos st ∧
  Store.items st' =
    match Store.items st !! sku with
    | Some i => <[sku := InventoryItem.set_on_hand i
                           (InventoryItem.on_hand i + qty)]> (Store.items st)
    | None => Store.items st
    end.
Proof.
  intros (st0 & r0 & He & Hr)%run_compensation_inv. revert He.
  cbn [Step.compensate ReserveInventory]. rewrite release_inventory_eq.
  autorewrite with store.
  destruct (Store.items st !! sku) as [i|] eqn:Hi;
    intros [= <- <-]; by destruct Hr as [-> ->].
Qed.

(** *** ChargeUserBalance *)

Lemma run_ChargeUserBalance order_id uid amount st st' r :
  Step.run (ChargeUserBalance order_id uid amount) st = (st', r) →
  Store.items st' = Store.items st ∧ Store.promos st' = Store.promos st ∧
  match r with
  | Ok _ =>
      ∃ u, Store.users st !! uid = Some u ∧
           Decimal.ltb (User.balance u) amount = false ∧
           Store.users st' =
             <[uid := User.set_balance u
                        (Decimal.sub (User.balance u) amount)]>
               (Store.users st)
  | Raise _ => Store.users st' = Store.users st
  end.
Proof.
  intros (st0 & r0 & He & Hr)%run_inv. revert He.
  cbn [Step.execute ChargeUserBalance]. rewrite charge_user_balance_eq.
  autorewrite with store.
  destruct (Store.users st !! uid) as [u|] eqn:Hu.
  - destruct (Decimal.ltb (User.balance u) amount) eqn:Hlt;
      intros [= <- <-]; destruct Hr as [-> ->]; [done|].
    do 2 (split; [done|]). by exists u.
  - intros [= <- <-]. by destruct Hr as [-> ->].
Qed.

Lemma run_compensation_ChargeUserBalance order_id uid amount st st' r :
  Step.run_compensation (ChargeUserBalance order_id uid amount) st
    = (st', r) →
  r = Ok tt ∧
  Store.items st' = Store.items st ∧ Store.promos st' = Store.promos st ∧
  Store.users st' =
    match Store.users st !! uid with
    | Some u => <[uid := User.set_balance u
                           (Decimal.add (User.balance u) amount)]>
                  (Store.users st)
    | None => Store.users st
    end.
Proof.
  intros (st0 & r0 & He & Hr)%run_compensation_inv. revert He.
  cbn [Step.compensate ChargeUserBalance]. rewrite refund_user_balance_eq.
  autorewrite with store.
  destruct (Store.users st !! uid) as [u|] eqn:Hu;
    intros [= <- <-]; by destruct Hr as [-> ->].
Qed.

(** *** FinalizeOrder *)

Lemma run_FinalizeOrder order_id st st' r :
  Step.run (FinalizeOrder order_id) st = (st', r) →
  r = Ok tt ∧ same_entities st st'.
Proof.
  intros (st0 & r0 & He & Hr)%run_inv. revert He.
  intros [= <- <-]. by destruct Hr as [-> ->].
Qed.

Lemma run_compensation_FinalizeOrder order_id st st' r :
  Step.run_compensation (FinalizeOrder order_id) st = (st', r) →
  r = Ok tt ∧ same_entities st st'.
Proof.
  intros (st0 & r0 & He & Hr)%run_compensation_inv. revert He.
  intros [= <- <-]. by destruct Hr as [-> ->].
Qed.

(** *** The loops, one step at a time *)

Lemma forward_cons_inv fail_at_step s rest done_ st st' done' err :
  forward fail_at_step (s :: rest) done_ st = (st', Ok (done', err)) →
  (fail_at_step = Some (Step.name s) ∧ st' = st ∧ done' = done_ ∧
   err = Some (ArtificialFailure (Step.name s))) ∨
  (fail_at_step ≠ Some (Step.name s) ∧
   ∃ e, Step.run s st = (st', Raise e) ∧ done' = done_ ∧ err = Some e) ∨
  (fail_at_step ≠ Some (Step.name s) ∧
   ∃ st1, Step.run s st = (st1, Ok tt) ∧
          forward fail_at_step rest (done_ ++ [s]) st1
            = (st', Ok (done', err))).
Proof.
  cbn [forward]. case_decide as Hf.
  - intros [= <- <- <-]. by left.
  - intros [(st1 & a & Ht & Hk)|(e & Ht & [=])]%bind_inv. right.
    apply try_inv in Ht as [([] & Hrun & [= ->])|(e & Hrun & [= ->])].
    + right. split; [done|]. by exists st1.
    + left. injection Hk as <- <- <-. split; [done|]. by exists e.
Qed.

Lemma forward_nil_inv fail_at_step done_ st st' done' err :
  forward fail_at_step [] done_ st = (st', Ok (done', err)) →
  st' = st ∧ done' = done_ ∧ err = None.
Proof. by intros [= <- <- <-]. Qed.

Lemma compensate_all_cons_inv order_id s rest st st' r :
  compensate_all order_id (s :: rest) st = (st', r) →
  ∃ st1 st2 r1,
    Step.run_compensation s st = (st1, r1) ∧
    st2 = match r1 with
          | Ok _ => st1
          | Raise e =>
              Store.log (LogCompensationFailed order_id (Step.name s) e) st1
          end ∧
    compensate_all order_id rest st2 = (st', r).
Proof.
  cbn [compensate_all]. unfold bind at 1 2, try_.
  destruct (Step.run_compensation s st) as [st1 [[]|e]]; cbn;
    intros H; by eexists _, _, _.
Qed.

Lemma run_steps_inv order_id fail_at_step steps st st' b :
  run_steps order_id fail_at_step steps st = (st', Ok b) →
  ∃ st1 done_ err,
    forward fail_at_step steps [] st = (st1, Ok (done_, err)) ∧
    match err with
    | None => b = true ∧ st' = Store.log (LogSagaOk order_id) st1
    | Some e =>
        b = false ∧
        ∃ st2, compensate_all order_id (reverse done_)
                 (Store.log (LogSagaFailed order_id e) st1) = (st2, Ok tt) ∧
               st' = Store.log (LogSagaEnd order_id) st2
    end.
Proof.
  unfold run_steps.
  intros [(st1 & [done_ err] & Hfwd & Hk)|(e & _ & [=])]%bind_inv.
  exists st1, done_, err. split; [done|]. destruct err as [e|].
  - revert Hk. unfold bind at 1, log at 1, modify. unfold bind at 1.
    destruct (compensate_all _ _ _) as [st2 [[]|e']]; [|done].
    intros [= <- <-]. split; [done|]. by exists st2.
  - by injection Hk as <- <-.
Qed.

End Effects.

(** ** The sequence of an order, step by step *)

Section Sequence.
Import SagaOrchestrator.

Lemma set_on_hand_restore i q :
  InventoryItem.set_on_hand
    (InventoryItem.set_on_hand i (InventoryItem.on_hand i - q))
    (InventoryItem.on_hand
       (InventoryItem.set_on_hand i (InventoryItem.on_hand i - q)) + q) = i.
Proof.
  destruct i as [k pr oh]. unfold InventoryItem.set_on_hand. cbn.
  f_equal; lia.
Qed.

Lemma set_remaining_uses_restore p :
  PromoCode.set_remaining_uses
    (PromoCode.set_remaining_uses p (PromoCode.remaining_uses p - 1))
    (PromoCode.remaining_uses
       (PromoCode.set_remaining_uses p (PromoCode.remaining_uses p - 1)) + 1)
  = p.
Proof.
  destruct p as [k n d]. unfold PromoCode.set_remaining_uses. cbn.
  f_equal; lia.
Qed.

Lemma insert_restore `{Countable K} {V} (m : gmap K V) k v w :
  m !! k = Some v → <[k := v]> (<[k := w]> m) = m.
Proof. intros Hk. rewrite insert_insert_eq. by apply insert_id. Qed.

Lemma user_eqb_refl u : User.eqb u u = true.
Proof.
  unfold User.eqb, Decimal.eqb. by rewrite Z.eqb_refl, compare_refl.
Qed.

Lemma users_eq_refl m : users_eq m m.
Proof.
  intros k. destruct (m !! k) as [u|]; constructor. apply user_eqb_refl.
Qed.

Lemma users_eq_round_trip m uid u a :
  m !! uid = Some u →
  charge_refund_exact (User.balance u) a = true →
  users_eq
    (<[uid := User.set_balance u
                (Decimal.add (Decimal.sub (User.balance u) a) a)]> m) m.
Proof.
  intros Hu Hex k. destruct (decide (k = uid)) as [->|Hne].
  - rewrite lookup_insert_eq, Hu. constructor.
    unfold User.eqb. cbn [User.id User.balance User.set_balance].
    rewrite Z.eqb_refl. cbn [andb].
    apply andb_true_iff in Hex as [H1%Z.ltb_lt H2%Z.ltb_lt].
    by apply charge_refund_exact_eqb.
  - rewrite lookup_insert_ne by done.
    destruct (m !! k) as [v|]; constructor. apply user_eqb_refl.
Qed.

Lemma order_steps_success fail_at_step order_id sku qty uid amount
    done_ st st' done' :
  forward fail_at_step (order_steps order_id sku qty uid amount) done_ st
    = (st', Ok (done', None)) →
  ∃ i u,
    Store.items st !! sku = Some i ∧ Store.users st !! uid = Some u ∧
    Store.items st' =
      <[sku := InventoryItem.set_on_hand i (InventoryItem.on_hand i - qty)]>
        (Store.items st) ∧
    Store.users st' =
      <[uid := User.set_balance u (Decimal.sub (User.balance u) amount)]>
        (Store.users st) ∧
    Store.promos st' = Store.promos st.
Proof.
  unfold order_steps.
  intros [(_ & _ & _ & [=])|[(_ & e & _ & _ & [=])|(_ & st1 & Hi & H)]]
    %forward_cons_inv.
  apply forward_cons_inv in H
    as [(_ & _ & _ & [=])|[(_ & e & _ & _ & [=])|(_ & st2 & Hc & H)]].
  apply forward_cons_inv in H
    as [(_ & _ & _ & [=])|[(_ & e & _ & _ & [=])|(_ & st3 & Hf & H)]].
  apply forward_nil_inv in H as (-> & _ & _).
  apply run_ReserveInventory in Hi as (Hu1 & Hp1 & i & Hi & _ & Hi1).
  apply run_ChargeUserBalance in Hc as (Hi2 & Hp2 & u & Hu & _ & Hu2).
  apply run_FinalizeOrder in Hf as (_ & Hu3 & Hi3 & Hp3).
  rewrite Hu1 in Hu. exists i, u. split; [done|]. split; [done|].
  split; [congruence|]. split; [congruence|]. congruence.
Qed.

(** When the three steps fail, compensating the completed ones brings
    the items and the promos back; the users are back too, unless the
    charge had completed, in which case the balance went through the
    charge and the refund. *)
Lemma order_steps_failure fail_at_step order_id sku qty uid amount
    done_ st st1 done' e :
  forward fail_at_step (order_steps order_id sku qty uid amount) done_ st
    = (st1, Ok (done', Some e)) →
  ∃ taken,
    done' = done_ ++ taken ∧
    ∀ st1' st2 r,
      same_entities st1 st1' →
      compensate_all order_id (reverse taken) st1' = (st2, r) →
      r = Ok tt ∧
      Store.items st2 = Store.items st ∧
      Store.promos st2 = Store.promos st ∧
      (Store.users st2 = Store.users st ∨
       (fail_at_step = Some "FinalizeOrder" ∧
        ∃ u, Store.users st !! uid = Some u ∧
             Store.users st2 =
               <[uid := User.set_balance u
                          (Decimal.add (Decimal.sub (User.balance u) amount)
                             amount)]> (Store.users st))).
Proof.
  unfold order_steps. intros H.
  apply forward_cons_inv in H
    as [(_ & -> & -> & _)|[(_ & e1 & Hi & -> & _)|(_ & st_i & Hi & H)]].
  { exists []. rewrite app_nil_r. split; [done|].
    intros st1' st2 r (HU & HI & HP) [= <- <-]. auto. }
  { exists []. rewrite app_nil_r. split; [done|].
    apply run_ReserveInventory in Hi as (Hu1 & Hp1 & Hi1).
    intros st1' st2 r (HU & HI & HP) [= <- <-].
    split; [done|]. split; [congruence|]. split; [congruence|].
    left. congruence. }
  apply run_ReserveInventory in Hi as (Hu1 & Hp1 & i & Hi & _ & Hi1).
  assert (Hundo_i : ∀ sta stb r,
            Store.items sta = Store.items st_i →
            Step.run_compensation (ReserveInventory order_id sku qty) sta
              = (stb, r) →
            r = Ok tt ∧ Store.users stb = Store.users sta ∧
            Store.promos stb = Store.promos sta ∧
            Store.items stb = Store.items st).
  { intros sta stb r Ha (-> & HU & HP & HI)%run_compensation_ReserveInventory.
    do 3 (split; [done|]). rewrite HI, Ha, Hi1, lookup_insert_eq.
    rewrite set_on_hand_restore. by apply insert_restore. }
  apply forward_cons_inv in H
    as [(_ & -> & -> & _)|[(_ & e1 & Hc & -> & _)|(_ & st_c & Hc & H)]].
  { exists [ReserveInventory order_id sku qty]. rewrite <- ?app_assoc.
    split; [done|].
    intros st1' st2 r (HU & HI & HP) (sta & stb & r1 & Hcomp & -> & Hrest)
      %compensate_all_cons_inv.
    injection Hrest as <- <-.
    apply Hundo_i in Hcomp as (-> & HU' & HP' & HI'); [|done].
    split; [done|]. split; [done|]. split; [congruence|]. left. congruence. }
  { exists [ReserveInventory order_id sku qty]. rewrite <- ?app_assoc.
    split; [done|].
    apply run_ChargeUserBalance in Hc as (Hi2 & Hp2 & Hu2).
    intros st1' st2 r (HU & HI & HP) (sta & stb & r1 & Hcomp & -> & Hrest)
      %compensate_all_cons_inv.
    injection Hrest as <- <-.
    apply Hundo_i in Hcomp as (-> & HU' & HP' & HI'); [|congruence].
    split; [done|]. split; [done|]. split; [congruence|]. left. congruence. }
  apply run_ChargeUserBalance in Hc as (Hi2 & Hp2 & u & Hu & _ & Hu2).
  apply forward_cons_inv in H
    as [(Hfail & -> & -> & _)|[(_ & e1 & Hf & -> & _)|(_ & st_f & Hf & H)]].
  - exists [ReserveInventory order_id sku qty;
            ChargeUserBalance order_id uid amount].
    rewrite <- ?app_assoc. split; [done|].
    intros st1' st2 r (HU & HI & HP).
    change (reverse [ReserveInventory order_id sku qty;
                     ChargeUserBalance order_id uid amount])
      with [ChargeUserBalance order_id uid amount;
            ReserveInventory order_id sku qty].
    intros (sta & stb & r1 & Hcomp & -> & Hrest)%compensate_all_cons_inv.
    apply run_compensation_ChargeUserBalance in Hcomp
      as (-> & HIa & HPa & HUa).
    apply compensate_all_cons_inv in Hrest
      as (sta' & stb' & r1 & Hcomp & -> & Hrest).
    injection Hrest as <- <-.
    apply Hundo_i in Hcomp as (-> & HU' & HP' & HI'); [|congruence].
    split; [done|]. split; [done|]. split; [congruence|]. right.
    split; [done|]. exists u. rewrite <- Hu1. split; [done|].
    rewrite HU', HUa, HU, Hu2, lookup_insert_eq, insert_insert_eq.
    by rewrite Hu1.
  - by apply run_FinalizeOrder in Hf as ([=] & _).
  - by apply forward_nil_inv in H as (_ & _ & [=]).
Qed.

End Sequence.

(** ** A step, as an equation *)

Section StepEquations.
Import SagaOrchestrator.

Lemma run_eq s st :
  Step.run s st =
  match Step.execute s
          (Store.log (LogStep (Step.order_id s) (Step.name s)) st) with
  | (st0, Ok _) =>
      (Store.log (LogStepOk (Step.order_id s) (Step.name s)) st0, Ok tt)
  | (st0, Raise e) => (st0, Raise e)
  end.
Proof.
  unfold Step.run, bind at 1, log at 1, modify. unfold bind, log, modify.
  by destruct (Step.execute s _) as [st0 [[]|e]].
Qed.

Lemma run_compensation_eq s st :
  Step.run_compensation s st =
  match Step.compensate s
          (Store.log (LogCompensate (Step.order_id s) (Step.name s)) st) with
  | (st0, Ok _) =>
      (Store.log (LogCompensateOk (Step.order_id s) (Step.name s)) st0, Ok tt)
  | (st0, Raise e) => (st0, Raise e)
  end.
Proof.
  unfold Step.run_compensation, bind at 1, log at 1, modify.
  unfold bind, log, modify.
  by destruct (Step.compensate s _) as [st0 [[]|e]].
Qed.

Lemma forward_cons_ok fail_at_step s rest done_ st st1 :
  fail_at_step ≠ Some (Step.name s) →
  Step.run s st = (st1, Ok tt) →
  forward fail_at_step (s :: rest) done_ st =
  forward fail_at_step rest (done_ ++ [s]) st1.
Proof.
  intros Hf Hrun. cbn [forward]. rewrite decide_False by done.
  unfold bind at 1, try_. by rewrite Hrun.
Qed.

End StepEquations.

(** ** The calls of the two loops *)

Section Calls.
Import SagaOrchestrator.

Lemma run_Ok s st st' :
  Step.run s st = (st', Ok tt) ↔
  ∃ st1,
    Step.execute s (Store.log (LogStep (Step.order_id s) (Step.name s)) st)
      = (st1, Ok tt) ∧
    st' = Store.log (LogStepOk (Step.order_id s) (Step.name s)) st1.
Proof.
  rewrite run_eq. destruct (Step.execute s _) as [st0 [[]|e]]; split.
  - intros [= <-]. by exists st0.
  - by intros (st1 & [= <-] & ->).
  - done.
  - by intros (st1 & [=] & _).
Qed.

Lemma run_Raise s st st' e :
  Step.run s st = (st', Raise e) ↔
  Step.execute s (Store.log (LogStep (Step.order_id s) (Step.name s)) st)
    = (st', Raise e).
Proof. rewrite run_eq. by destruct (Step.execute s _) as [st0 [[]|e']]. Qed.

(** The forward loop, told by its calls: the steps before some index
    [i] are executed one after the other, and either [i] is the end of
    the list, or the step at [i] fails and the loop stops there. *)
Lemma forward_calls fail_at_step steps done_ st st' done' err :
  forward fail_at_step steps done_ st = (st', Ok (done', err)) →
  ∃ i sa,
    done' = done_ ++ take i steps ∧
    executes_each fail_at_step (take i steps) st sa ∧
    match err with
    | None => i = length steps ∧ st' = sa
    | Some e => ∃ s, steps !! i = Some s ∧ fails_at fail_at_step s sa st' e
    end.
Proof.
  revert done_ st. induction steps as [|s steps IH]; intros done_ st H.
  - apply forward_nil_inv in H as (-> & -> & ->).
    exists 0%nat, st. by rewrite app_nil_r.
  - apply forward_cons_inv in H
      as [(Hf & -> & -> & ->)|[(Hf & e & Hrun & -> & ->)|(Hf & st1 & Hrun & H)]].
    + exists 0%nat, st. rewrite take_0, app_nil_r. do 2 (split; [done|]).
      exists s. split; [done|]. by left.
    + exists 0%nat, st. rewrite take_0, app_nil_r. do 2 (split; [done|]).
      exists s. split; [done|]. right. split; [done|]. by apply run_Raise.
    + apply run_Ok in Hrun as (st0 & Hex & ->).
      apply IH in H as (i & sa & -> & Hchain & Herr).
      exists (S i), sa. rewrite <- app_assoc. split; [done|]. split.
      * cbn [take executes_each]. split; [done|]. by exists st0.
      * destruct err as [e|]; [done|]. destruct Herr as [-> ->]. done.
Qed.

(** Conversely, the calls determine what the loop returns. *)
Lemma executes_each_forward fail_at_step steps done_ st sa :
  executes_each fail_at_step steps st sa →
  forward fail_at_step steps done_ st = (sa, Ok (done_ ++ steps, None)).
Proof.
  revert done_ st. induction steps as [|s steps IH]; intros done_ st.
  - intros ->. by rewrite app_nil_r.
  - intros (Hf & st1 & Hex & H). cbn [executes_each] in H.
    rewrite (forward_cons_ok _ _ _ _ _
               (Store.log (LogStepOk (Step.order_id s) (Step.name s)) st1)
               Hf).
    + rewrite (IH _ _ H). by rewrite <- app_assoc.
    + apply run_Ok. by exists st1.
Qed.

Lemma fails_at_forward fail_at_step steps done_ st i s sa sb e :
  steps !! i = Some s →
  executes_each fail_at_step (take i steps) st sa →
  fails_at fail_at_step s sa sb e →
  forward fail_at_step steps done_ st
    = (sb, Ok (done_ ++ take i steps, Some e)).
Proof.
  revert done_ st i. induction steps as [|s0 steps IH]; intros done_ st i;
    [done|].
  destruct i as [|i]; cbn [lookup list_lookup take executes_each].
  - intros [= ->] -> Hfail. rewrite app_nil_r. cbn [forward].
    destruct Hfail as [(Hf & -> & ->)|(Hf & Hex)].
    + by rewrite decide_True.
    + rewrite decide_False by done. apply run_Raise in Hex.
      unfold bind, try_. by rewrite Hex.
  - intros Hs (Hf & st1 & Hex & H) Hfail.
    rewrite (forward_cons_ok _ _ _ _ _
               (Store.log (LogStepOk (Step.order_id s0) (Step.name s0)) st1)
               Hf).
    + rewrite (IH _ _ _ Hs H Hfail). by rewrite <- app_assoc.
    + apply run_Ok. by exists st1.
Qed.

(** The compensation loop, told by its calls: it returns, whatever the
    compensations do, and has called the [compensate] of every step of
    its list, in the order of the list. *)
Lemma compensate_all_calls order_id steps st st' r :
  compensate_all order_id steps st = (st', r) →
  r = Ok tt ∧ compensates_each order_id steps st st'.
Proof.
  revert st. induction steps as [|s steps IH]; intros st.
  - by intros [= <- <-].
  - intros (st1 & st2 & r1 & Hrun & -> & Hrest)%compensate_all_cons_inv.
    apply IH in Hrest as [-> Hrest]. split; [done|].
    cbn [compensates_each]. revert Hrun. rewrite run_compensation_eq.
    destruct (Step.compensate s _) as [st0 r0] eqn:Hc.
    exists st0, r0. split; [done|].
    destruct r0 as [[]|e]; by injection Hrun as <- <-.
Qed.

End Calls.

(** ** The scenarios of tests/test_saga.py, run on the model *)

Section Scenarios.
Import SagaOrchestrator.

Example test_successful_order_without_promo :
  let '(st, r) := execute order_without_promo None fixture_store in
  r = Ok true ∧ on_hand_of "ITEM001" st = Some 8 ∧
  balance_of 1 st = Some (dec2 80000) ∧
  started (Store.logs st) = ["ReserveInventory"; "ChargeUserBalance";
                             "FinalizeOrder"] ∧
  completed (Store.logs st) = started (Store.logs st).
Proof. by vm_compute. Qed.

Example test_successful_order_with_promo :
  let '(st, r) := execute order_with_promo None fixture_store in
  r = Ok true ∧ uses_of "DISCOUNT10" st = Some 4 ∧
  on_hand_of "ITEM001" st = Some 9 ∧ balance_of 1 st = Some (dec2 91000) ∧
  completed (Store.logs st) = ["ReservePromoUse"; "ReserveInventory";
                               "ChargeUserBalance"; "FinalizeOrder"].
Proof. by vm_compute. Qed.

Example test_fail_on_insufficient_promo_uses :
  let '(st, r) := execute order_expired_promo None fixture_store in
  r = Ok false ∧ on_hand_of "ITEM001" st = Some 10 ∧
  balance_of 1 st = Some (dec2 100000) ∧
  completed (Store.logs st) = [] ∧ compensated (Store.logs st) = [].
Proof. by vm_compute. Qed.

Example test_fail_on_insufficient_inventory :
  let '(st, r) := execute order_over_stock None fixture_store in
  r = Ok false ∧ uses_of "DISCOUNT10" st = Some 5 ∧
  on_hand_of "ITEM001" st = Some 10 ∧
  balance_of 1 st = Some (dec2 100000) ∧
  compensated (Store.logs st) = ["ReservePromoUse"].
Proof. by vm_compute. Qed.

Example test_fail_on_insufficient_balance :
  let '(st, r) := execute order_over_balance None fixture_store in
  r = Ok false ∧ uses_of "DISCOUNT10" st = Some 5 ∧
  on_hand_of "ITEM002" st = Some 5 ∧ balance_of 2 st = Some (dec2 5000) ∧
  compensated (Store.logs st) = ["ReserveInventory"; "ReservePromoUse"].
Proof. by vm_compute. Qed.

Example test_artificial_failure_at_finalize :
  let '(st, r) :=
    execute order_failing_late (Some "FinalizeOrder") fixture_store in
  r = Ok false ∧ uses_of "DISCOUNT10" st = Some 5 ∧
  on_hand_of "ITEM001" st = Some 10 ∧
  balance_of 1 st = Some (dec2 100000) ∧
  compensated (Store.logs st) =
    ["ChargeUserBalance"; "ReserveInventory"; "ReservePromoUse"].
Proof. by vm_compute. Qed.

(** A compensation that raises is logged and the remaining ones still
    run. *)
Example compensation_failure_is_swallowed :
  let steps := [ReservePromoUse 8 "DISCOUNT10"; unreliable_step 8;
                FinalizeOrder 8] in
  let '(st, r) := run_steps 8 (Some "FinalizeOrder") steps fixture_store in
  r = Ok false ∧
  Store.logs st =
    [LogStep 8 "ReservePromoUse"; LogPromoReserved 8 "DISCOUNT10" 4;
     LogStepOk 8 "ReservePromoUse";
     LogStep 8 "Unreliable"; LogStepOk 8 "Unreliable";
     LogSagaFailed 8 (ArtificialFailure "FinalizeOrder");
     LogCompensate 8 "Unreliable";
     LogCompensationFailed 8 "Unreliable" InvalidOperation;
     LogCompensate 8 "ReservePromoUse"; LogPromoReleased 8 "DISCOUNT10" 5;
     LogCompensateOk 8 "ReservePromoUse";
     LogSagaEnd 8] ∧
  uses_of "DISCOUNT10" st = Some 5.
Proof. by vm_compute. Qed.

End Scenarios.

(** * The claims *)

Section Claims.
Import SagaOrchestrator.

(** C1 (as amended).  When [execute] returns true, the user's balance is
    the initial balance minus the final amount as the subtraction of
    [Decimal] computes it under the context, which is the exact difference
    whenever that has no more digits than the precision, the
    item's [on_hand] is the initial one minus [qty], the promo's
    [remaining_uses], if a promo code was supplied, is the initial one
    minus 1, and nothing else changes in the three dictionaries. *)
Theorem successful_order_effects req fail_at_step st st' :
  execute req fail_at_step st = (st', Ok true) →
  ∃ st1 amounts u i,
    pre_saga req st = (st1, Ok amounts) ∧
    Store.users st !! OrderRequest.user_id req = Some u ∧
    Store.items st !! OrderRequest.sku req = Some i ∧
    Store.users st' =
      <[OrderRequest.user_id req :=
          User.set_balance u
            (Decimal.sub (User.balance u) (final_amount amounts))]>
        (Store.users st) ∧
    (Decimal.fits
       (Decimal.exact_sub (User.balance u) (final_amount amounts)) = true →
     Decimal.sub (User.balance u) (final_amount amounts) =
     Decimal.exact_sub (User.balance u) (final_amount amounts)) ∧
    Store.items st' =
      <[OrderRequest.sku req :=
          InventoryItem.set_on_hand i
            (InventoryItem.on_hand i - OrderRequest.qty req)]>
        (Store.items st) ∧
    (if truthy (OrderRequest.promo_code req)
     then ∃ c p,
            OrderRequest.promo_code req = Some c ∧
            Store.promos st !! c = Some p ∧
            Store.promos st' =
              <[c := PromoCode.set_remaining_uses p
                       (PromoCode.remaining_uses p - 1)]> (Store.promos st)
     else Store.promos st' = Store.promos st).
Proof.
  intros (st1 & amounts & Hpre & Hrun)%execute_Ok_inv.
  apply run_steps_inv in Hrun as (st2 & done_ & err & Hfwd & Herr).
  destruct err as [e|]; [by destruct Herr as [[=] _]|].
  destruct Herr as [_ ->].
  pose proof Hpre as (_ & _ & _ & Hst1)%pre_saga_Ok.
  assert (Hent : same_entities st st1) by by rewrite Hst1.
  destruct Hent as (HU & HI & HP).
  exists st1, amounts.
  assert (Hcore : ∀ sta done0,
    forward fail_at_step
      (order_steps (OrderRequest.order_id req) (OrderRequest.sku req)
         (OrderRequest.qty req) (OrderRequest.user_id req)
         (final_amount amounts)) done0 sta = (st2, Ok (done_, None)) →
    Store.users sta = Store.users st → Store.items sta = Store.items st →
    ∃ u i,
      Store.users st !! OrderRequest.user_id req = Some u ∧
      Store.items st !! OrderRequest.sku req = Some i ∧
      Store.users st2 =
        <[OrderRequest.user_id req :=
            User.set_balance u
              (Decimal.sub (User.balance u) (final_amount amounts))]>
          (Store.users st) ∧
      Store.items st2 =
        <[OrderRequest.sku req :=
            InventoryItem.set_on_hand i
              (InventoryItem.on_hand i - OrderRequest.qty req)]>
          (Store.items st) ∧
      Store.promos st2 = Store.promos sta).
  { intros sta done0 (i & u & Hi & Hu & Hi' & Hu' & Hp')%order_steps_success
      HUa HIa.
    exists u, i. rewrite <- HUa, <- HIa. done. }
  revert Hfwd. unfold build_steps.
  destruct (OrderRequest.promo_code req) as [c|] eqn:Hc.
  - destruct (truthy (Some c)) eqn:Ht; cbn [app].
    + intros [(_ & _ & _ & [=])|[(_ & e & _ & _ & [=])|(_ & stp & Hp & H)]]
        %forward_cons_inv.
      apply run_ReservePromoUse in Hp as (HUp & HIp & p & Hp & _ & HPp).
      apply Hcore in H as (u & i & Hu & Hi & Hu' & Hi' & Hp');
        [|congruence..].
      exists u, i. do 3 (split; [done|]). split; [exact Hu'|].
      split; [apply sub_exact|]. split; [exact Hi'|].
      exists c, p. split; [done|].
      rewrite HP in Hp. split; [done|]. cbn [Store.promos Store.log].
      rewrite Hp', HPp. by rewrite HP.
    + intros H. apply Hcore in H as (u & i & Hu & Hi & Hu' & Hi' & Hp');
        [|done..].
      exists u, i. do 3 (split; [done|]). split; [exact Hu'|].
      split; [apply sub_exact|]. split; [exact Hi'|].
      cbn [Store.promos Store.log]. congruence.
  - cbn [app truthy]. intros H.
    apply Hcore in H as (u & i & Hu & Hi & Hu' & Hi' & Hp'); [|done..].
    exists u, i. do 3 (split; [done|]). split; [exact Hu'|].
    split; [apply sub_exact|]. split; [exact Hi'|].
    cbn [Store.promos Store.log]. congruence.
Qed.

Lemma successful_order_effects_witness :
  ∃ st1 amounts u i,
    pre_saga order_with_promo fixture_store = (st1, Ok amounts) ∧
    Store.users fixture_store !! 1 = Some u ∧
    Store.items fixture_store !! "ITEM001" = Some i ∧
    Store.users (execute order_with_promo None fixture_store).1 =
      <[1 := User.set_balance u
               (Decimal.sub (User.balance u) (final_amount amounts))]>
        (Store.users fixture_store) ∧
    (Decimal.fits
       (Decimal.exact_sub (User.balance u) (final_amount amounts)) = true →
     Decimal.sub (User.balance u) (final_amount amounts) =
     Decimal.exact_sub (User.balance u) (final_amount amounts)) ∧
    Store.items (execute order_with_promo None fixture_store).1 =
      <["ITEM001" :=
          InventoryItem.set_on_hand i (InventoryItem.on_hand i - 1)]>
        (Store.items fixture_store) ∧
    (∃ c p,
       Some "DISCOUNT10" = Some c ∧
       Store.promos fixture_store !! c = Some p ∧
       Store.promos (execute order_with_promo None fixture_store).1 =
         <[c := PromoCode.set_remaining_uses p
                  (PromoCode.remaining_uses p - 1)]>
           (Store.promos fixture_store)).
Proof.
  apply (successful_order_effects order_with_promo None fixture_store).
  by vm_compute.
Defined.

(** C1, as stated, fails for the balance: a successful order on the
    balance 1000.00000000000000000000000000000001 with a final amount of
    1.00 leaves 999.0000000000000000000000000, the difference rounded to
    28 digits, which is not the initial balance minus the final amount,
    999.00000000000000000000000000000001. *)
Lemma successful_order_balance_rounded :
  (execute order_long_balance None store_long_balance).2 = Ok true ∧
  balance_of 1 store_long_balance = Some (Decimal.mk (10 ^ 35 + 1) (-32)) ∧
  (pre_saga order_long_balance store_long_balance).2
    = Ok (mkOrderAmounts (dec2 100) Decimal.zero2 (dec2 100)) ∧
  balance_of 1 (execute order_long_balance None store_long_balance).1
    = Some (Decimal.mk (999 * 10 ^ 25) (-25)) ∧
  Decimal.exact_sub (Decimal.mk (10 ^ 35 + 1) (-32)) (dec2 100)
    = Decimal.mk (999 * 10 ^ 32 + 1) (-32) ∧
  Decimal.eqb (Decimal.mk (999 * 10 ^ 25) (-25))
    (Decimal.mk (999 * 10 ^ 32 + 1) (-32)) = false.
Proof. repeat split; by vm_compute. Qed.

(** C2 (as amended).  When [execute] returns false, the items and the
    promos are exactly those the run started with, and so are the users
    (balances compared numerically), provided that, when the failure is
    the one injected at FinalizeOrder (the only failure that comes after
    the charge), charging and refunding the balance lose no digit under
    the context precision. *)
Theorem failed_order_restores req fail_at_step st st' :
  execute req fail_at_step st = (st', Ok false) →
  (∀ st1 amounts u,
     fail_at_step = Some "FinalizeOrder" →
     pre_saga req st = (st1, Ok amounts) →
     Store.users st !! OrderRequest.user_id req = Some u →
     charge_refund_exact (User.balance u) (final_amount amounts) = true) →
  Store.items st' = Store.items st ∧
  Store.promos st' = Store.promos st ∧
  users_eq (Store.users st') (Store.users st).
Proof.
  intros (st1 & amounts & Hpre & Hrun)%execute_Ok_inv Hexact.
  specialize (Hexact st1 amounts).
  apply run_steps_inv in Hrun as (st2 & done_ & err & Hfwd & Herr).
  destruct err as [e|]; [|by destruct Herr as [[=] _]].
  destruct Herr as (_ & st3 & Hcomp & ->).
  pose proof Hpre as (_ & _ & _ & Hst1)%pre_saga_Ok.
  assert (Hent : same_entities st st1) by by rewrite Hst1.
  destruct Hent as (HU & HI & HP).
  cbn [Store.users Store.items Store.promos Store.log].
  assert (Hfinish : ∀ sta,
            Store.items sta = Store.items st →
            Store.promos sta = Store.promos st →
            (Store.users sta = Store.users st1 ∨
             (fail_at_step = Some "FinalizeOrder" ∧
              ∃ u, Store.users st1 !! OrderRequest.user_id req = Some u ∧
                   Store.users sta =
                     <[OrderRequest.user_id req :=
                         User.set_balance u
                           (Decimal.add
                              (Decimal.sub (User.balance u)
                                 (final_amount amounts))
                              (final_amount amounts))]> (Store.users st1))) →
            Store.items sta = Store.items st ∧
            Store.promos sta = Store.promos st ∧
            users_eq (Store.users sta) (Store.users st)).
  { intros sta HIa HPa HUa. do 2 (split; [done|]).
    destruct HUa as [->|(Hf & u & Hu & ->)].
    - rewrite HU. apply users_eq_refl.
    - rewrite HU in *. apply users_eq_round_trip; [done|]. by apply Hexact. }
  revert Hfwd Hcomp. unfold build_steps.
  assert (Hcore : ∀ sta done0,
    forward fail_at_step
      (order_steps (OrderRequest.order_id req) (OrderRequest.sku req)
         (OrderRequest.qty req) (OrderRequest.user_id req)
         (final_amount amounts)) done0 sta = (st2, Ok (done_, Some e)) →
    ∃ taken, done_ = done0 ++ taken ∧
      ∀ stb,
        compensate_all (OrderRequest.order_id req) (reverse taken)
          (Store.log (LogSagaFailed (OrderRequest.order_id req) e) st2)
          = (stb, Ok tt) →
        Store.items stb = Store.items sta ∧
        Store.promos stb = Store.promos sta ∧
        (Store.users stb = Store.users sta ∨
         (fail_at_step = Some "FinalizeOrder" ∧
          ∃ u, Store.users sta !! OrderRequest.user_id req = Some u ∧
               Store.users stb =
                 <[OrderRequest.user_id req :=
                     User.set_balance u
                       (Decimal.add
                          (Decimal.sub (User.balance u)
                             (final_amount amounts))
                          (final_amount amounts))]> (Store.users sta)))).
  { intros sta done0 (taken & -> & Hundo)%order_steps_failure.
    exists taken. split; [done|]. intros stb Hc.
    by apply Hundo in Hc as (_ & ? & ? & ?). }
  destruct (OrderRequest.promo_code req) as [c|] eqn:Hc;
    [destruct (truthy (Some c)) eqn:Ht|]; cbn [app].
  - intros [(_ & -> & -> & _)|[(_ & e1 & Hp & -> & _)|(_ & stp & Hp & H)]]
      %forward_cons_inv.
    + intros [= <-]. apply Hfinish; autorewrite with store; auto.
    + intros [= <-].
      apply run_ReservePromoUse in Hp as (HUp & HIp & HPp).
      apply Hfinish; autorewrite with store; [congruence..|left; congruence].
    + apply run_ReservePromoUse in Hp as (HUp & HIp & p & Hp & _ & HPp).
      apply Hcore in H as (taken & -> & Hundo).
      rewrite reverse_app, compensate_all_app.
      intros [(stb & [] & Hc1 & Hc2)|(e' & _ & [=])]%bind_inv.
      apply Hundo in Hc1 as (HIb & HPb & HUb).
      change (reverse [ReservePromoUse (OrderRequest.order_id req) c])
        with [ReservePromoUse (OrderRequest.order_id req) c] in Hc2.
      apply compensate_all_cons_inv in Hc2
        as (stc & std & r1 & Hcomp & -> & Hrest).
      apply run_compensation_ReservePromoUse in Hcomp
        as (-> & HUc & HIc & HPc).
      injection Hrest as <-.
      apply Hfinish; autorewrite with store.
      * congruence.
      * rewrite HPc, HPb, HPp, lookup_insert_eq, set_remaining_uses_restore.
        rewrite <- HP. by apply insert_restore.
      * rewrite HUc. destruct HUb as [->|(Hf & u & Hu & ->)]; [by left|].
        right. split; [done|]. exists u. by rewrite <- HUp.
  - intros H Hcomp.
    apply Hcore in H as (taken & -> & Hundo).
    cbn [app] in Hcomp. apply Hundo in Hcomp as (HIb & HPb & HUb).
    apply Hfinish; autorewrite with store; [congruence..|done].
  - intros H Hcomp.
    apply Hcore in H as (taken & -> & Hundo).
    cbn [app] in Hcomp. apply Hundo in Hcomp as (HIb & HPb & HUb).
    apply Hfinish; autorewrite with store; [congruence..|done].
Qed.

Lemma failed_order_restores_witness :
  Store.items
    (execute order_failing_late (Some "FinalizeOrder") fixture_store).1
    = Store.items fixture_store ∧
  Store.promos
    (execute order_failing_late (Some "FinalizeOrder") fixture_store).1
    = Store.promos fixture_store ∧
  users_eq
    (Store.users
       (execute order_failing_late (Some "FinalizeOrder") fixture_store).1)
    (Store.users fixture_store).
Proof.
  apply (failed_order_restores order_failing_late (Some "FinalizeOrder")
           fixture_store).
  - by vm_compute.
  - intros st1 amounts u _ Hpre Hu.
    vm_compute in Hpre. injection Hpre as _ <-.
    vm_compute in Hu. injection Hu as <-.
    by vm_compute.
Defined.

(** C2, as stated, fails: a balance of more digits than the context
    precision does not come back from the charge and the refund.  The run
    returns false, and the balance 1000.00000000000000000000000000000001
    has become 1000.000000000000000000000000. *)
Lemma failed_order_not_restored :
  (execute order_long_balance (Some "FinalizeOrder") store_long_balance).2
    = Ok false ∧
  balance_of 1 store_long_balance = Some (Decimal.mk (10 ^ 35 + 1) (-32)) ∧
  balance_of 1
    (execute order_long_balance (Some "FinalizeOrder") store_long_balance).1
    = Some (Decimal.mk (10 ^ 27) (-24)) ∧
  Decimal.eqb (Decimal.mk (10 ^ 27) (-24)) (Decimal.mk (10 ^ 35 + 1) (-32))
    = false ∧
  ¬ users_eq
      (Store.users
         (execute order_long_balance (Some "FinalizeOrder")
            store_long_balance).1)
      (Store.users store_long_balance).
Proof.
  split; [by vm_compute|]. split; [by vm_compute|].
  split; [by vm_compute|]. split; [by vm_compute|].
  intros Heq. specialize (Heq 1).
  assert (H1 : Store.users
                 (execute order_long_balance (Some "FinalizeOrder")
                    store_long_balance).1 !! 1
               = Some (User.mk 1 (Decimal.mk (10 ^ 27) (-24))))
    by by vm_compute.
  assert (H2 : Store.users store_long_balance !! 1
               = Some (User.mk 1 (Decimal.mk (10 ^ 35 + 1) (-32))))
    by by vm_compute.
  rewrite H1, H2 in Heq. inversion Heq as [? ? Hb|]. by vm_compute in Hb.
Qed.

(** C3.  When [execute] returns false the run failed at some index [i] of
    the built sequence.  The steps before [i] had their [execute] called,
    in order, and each call returned; the step at [i] failed: either the
    fault directive names it and nothing of it was called, or its
    [execute] raised; forward execution stopped there.  Then the
    [compensate] of each step before [i] was called, in the reverse of the
    order they ran in, and nothing else was: the store [execute] leaves is
    the store these calls leave, with the SAGA END line.  The log tells
    the same: the steps before [i] completed, no step after [i] was
    started, the steps compensated are those before [i], reversed, and
    neither the failing step nor any later step is compensated. *)
Theorem compensation_reverses_completed_steps req fail_at_step st st' :
  execute req fail_at_step st = (st', Ok false) →
  ∃ st1 amounts i s e sa sb sc new,
    pre_saga req st = (st1, Ok amounts) ∧
    build_steps req amounts !! i = Some s ∧
    executes_each fail_at_step (take i (build_steps req amounts)) st1 sa ∧
    fails_at fail_at_step s sa sb e ∧
    compensates_each (OrderRequest.order_id req)
      (reverse (take i (build_steps req amounts)))
      (Store.log (LogSagaFailed (OrderRequest.order_id req) e) sb) sc ∧
    st' = Store.log (LogSagaEnd (OrderRequest.order_id req)) sc ∧
    Store.logs st' = Store.logs st1 ++ new ∧
    let names := Step.name <$> build_steps req amounts in
    names !! i = Some (Step.name s) ∧
    completed new = take i names ∧
    ((fail_at_step = Some (Step.name s) ∧ started new = take i names) ∨
     (fail_at_step ≠ Some (Step.name s) ∧
      started new = take (S i) names)) ∧
    compensated new = reverse (take i names) ∧
    (∀ j m, names !! j = Some m → (i ≤ j)%nat → m ∉ compensated new) ∧
    (∀ j m, names !! j = Some m → (i < j)%nat → m ∉ started new).
Proof.
  intros (st1 & amounts & Hpre & Hrun)%execute_Ok_inv.
  apply run_steps_inv in Hrun as (st2 & done_ & err & Hfwd & Herr).
  destruct err as [e|]; [|by destruct Herr as [[=] _]].
  destruct Herr as (_ & st3 & Hcomp & ->).
  pose proof (forward_calls _ _ _ _ _ _ _ Hfwd)
    as (i & sa & Hdone & Hchain & s & Hs & Hfail).
  cbn [app] in Hdone. subst done_.
  pose proof (compensate_all_calls _ _ _ _ _ Hcomp) as [_ Hcalls].
  pose proof (quiet_build_steps req amounts) as Hq.
  apply forward_trace in Hfwd
    as (i' & new1 & Hdone & Hlog1 & Hc1 & Hk1 & _ & s' & Hs' & Hst);
    [|done].
  cbn [app] in Hdone.
  assert (i' = i) as ->.
  { apply (f_equal length) in Hdone. rewrite !length_take in Hdone.
    apply lookup_lt_Some in Hs, Hs'. lia. }
  rewrite Hs in Hs'. injection Hs' as <-.
  apply compensate_all_trace in Hcomp
    as (_ & new2 & Hlog2 & Hc2 & _ & Hs2 & Hk2);
    [|by apply Forall_reverse, Forall_take].
  exists st1, amounts, i, s, e, sa, st2, st3,
    (new1 ++ [LogSagaFailed (OrderRequest.order_id req) e] ++ new2 ++
     [LogSagaEnd (OrderRequest.order_id req)]).
  do 6 (split; [done|]).
  split; [by rewrite logs_log, Hlog2, logs_log, Hlog1, <- !app_assoc|].
  cbn zeta.
  rewrite !completed_app, !compensated_app, !started_app, Hc1, Hk1, Hc2,
    Hs2, Hk2.
  cbn. rewrite !app_nil_r, <- !fmap_take, fmap_reverse.
  pose proof (build_steps_names_NoDup req amounts) as Hnd.
  assert (Hout : ∀ j m k,
            (Step.name <$> build_steps req amounts) !! j = Some m →
            (k ≤ j)%nat →
            m ∉ Step.name <$> take k (build_steps req amounts)).
  { intros j m k Hj Hkj Hin. rewrite fmap_take in Hin.
    apply elem_of_take in Hin as (j' & Hj' & Hlt).
    pose proof (NoDup_lookup _ _ _ _ Hnd Hj Hj'). lia. }
  split; [by rewrite list_lookup_fmap, Hs|]. split; [done|].
  split.
  { destruct Hst as [(? & _ & ->)|(? & ->)]; [left|right]; done. }
  split; [done|]. split.
  - intros j m Hj Hij. rewrite <- fmap_reverse, fmap_reverse, elem_of_reverse.
    by eapply Hout.
  - intros j m Hj Hij.
    destruct Hst as [(_ & _ & ->)|(_ & ->)]; eapply Hout; [done|lia|done|lia].
Qed.

Lemma compensation_reverses_completed_steps_witness :
  ∃ st1 amounts i s e sa sb sc new,
    pre_saga order_failing_late fixture_store = (st1, Ok amounts) ∧
    build_steps order_failing_late amounts !! i = Some s ∧
    executes_each (Some "FinalizeOrder")
      (take i (build_steps order_failing_late amounts)) st1 sa ∧
    fails_at (Some "FinalizeOrder") s sa sb e ∧
    compensates_each (OrderRequest.order_id order_failing_late)
      (reverse (take i (build_steps order_failing_late amounts)))
      (Store.log
         (LogSagaFailed (OrderRequest.order_id order_failing_late) e) sb)
      sc ∧
    (execute order_failing_late (Some "FinalizeOrder") fixture_store).1
      = Store.log (LogSagaEnd (OrderRequest.order_id order_failing_late))
          sc ∧
    Store.logs
      (execute order_failing_late (Some "FinalizeOrder") fixture_store).1
      = Store.logs st1 ++ new ∧
    let names := Step.name <$> build_steps order_failing_late amounts in
    names !! i = Some (Step.name s) ∧
    completed new = take i names ∧
    ((Some "FinalizeOrder" = Some (Step.name s) ∧
      started new = take i names) ∨
     (Some "FinalizeOrder" ≠ Some (Step.name s) ∧
      started new = take (S i) names)) ∧
    compensated new = reverse (take i names) ∧
    (∀ j m, names !! j = Some m → (i ≤ j)%nat → m ∉ compensated new) ∧
    (∀ j m, names !! j = Some m → (i < j)%nat → m ∉ started new).
Proof.
  apply (compensation_reverses_completed_steps order_failing_late
           (Some "FinalizeOrder") fixture_store).
  by vm_compute.
Defined.

(** C4 (as amended).  Once the pre-saga phase has returned (the quantity
    is positive, the user and the item exist, and the three amounts were
    computed), [execute] returns a boolean and never raises.  The boolean
    is true exactly when every step of the sequence had its [execute]
    called, in order, and every call returned; it is false exactly when
    some step failed, by the fault directive or by an exception of its
    [execute], whatever the exception, after the steps before it were
    executed.  The [try]/[except] returns a boolean whatever the steps do,
    and the compensation loop returns whatever the compensations do: it
    calls the [compensate] of every step it is given, logs the exception
    of a call that raises, and goes on with the next. *)
Theorem saga_failures_are_reported req fail_at_step st st1 amounts :
  pre_saga req st = (st1, Ok amounts) →
  (∃ st' b new,
     execute req fail_at_step st = (st', Ok b) ∧
     (b = true ↔
      ∃ sa, executes_each fail_at_step (build_steps req amounts) st1 sa) ∧
     (b = false ↔
      ∃ i s e sa sb,
        build_steps req amounts !! i = Some s ∧
        executes_each fail_at_step (take i (build_steps req amounts)) st1 sa ∧
        fails_at fail_at_step s sa sb e) ∧
     Store.logs st' = Store.logs st1 ++ new ∧
     (b = true ↔ completed new = Step.name <$> build_steps req amounts)) ∧
  (∀ steps st0, ∃ st' b,
     run_steps (OrderRequest.order_id req) fail_at_step steps st0
       = (st', Ok b)) ∧
  (∀ steps st0, ∃ st2,
     compensate_all (OrderRequest.order_id req) steps st0 = (st2, Ok tt) ∧
     compensates_each (OrderRequest.order_id req) steps st0 st2) ∧
  (∀ steps st0 st2 r,
     Forall quiet_step steps →
     compensate_all (OrderRequest.order_id req) steps st0 = (st2, r) →
     r = Ok tt ∧
     ∃ new, Store.logs st2 = Store.logs st0 ++ new ∧
            compensated new = Step.name <$> steps ∧
            compensation_ended new = Step.name <$> steps).
Proof.
  intros Hpre. split; [|split; [|split]].
  - rewrite (execute_after_pre_saga _ _ _ _ _ Hpre).
    destruct (run_steps_trace (OrderRequest.order_id req) fail_at_step
                (build_steps req amounts) st1 (quiet_build_steps req amounts))
      as (st2 & b & new & i & Hrun & Hlog & Hc & Hb).
    exists st2, b, new. split; [done|].
    apply run_steps_inv in Hrun as (st3 & done_ & err & Hfwd & Herr).
    pose proof (forward_calls _ _ _ _ _ _ _ Hfwd)
      as (k & sa & _ & Hchain & Hend).
    assert (Htrue : b = true ↔
              ∃ sa, executes_each fail_at_step (build_steps req amounts)
                      st1 sa).
    { destruct err as [e|].
      - destruct Herr as (-> & _). split; [done|]. intros (sa' & Hall).
        rewrite (executes_each_forward _ _ [] _ _ Hall) in Hfwd. done.
      - destruct Herr as (-> & _). split; [|done]. intros _.
        destruct Hend as [-> _]. rewrite firstn_all in Hchain. by exists sa. }
    assert (Hfalse : b = false ↔
              ∃ i s e sa sb,
                build_steps req amounts !! i = Some s ∧
                executes_each fail_at_step
                  (take i (build_steps req amounts)) st1 sa ∧
                fails_at fail_at_step s sa sb e).
    { destruct err as [e|].
      - destruct Herr as (-> & _). split; [|done]. intros _.
        destruct Hend as (s & Hs & Hfail). by exists k, s, e, sa, st3.
      - destruct Herr as (-> & _). split; [done|].
        intros (j & s & e & sa' & sb & Hs & Hpart & Hfail).
        rewrite (fails_at_forward _ _ [] _ _ _ _ _ _ Hs Hpart Hfail) in Hfwd.
        done. }
    do 3 (split; [done|]).
    rewrite Hc. destruct b.
    + destruct Hb as (-> & _). by rewrite firstn_all.
    + destruct Hb as (_ & _ & s & Hs & _). split; [done|].
      intros Heq. apply (f_equal length) in Heq.
      rewrite !length_fmap, length_take in Heq.
      apply lookup_lt_Some in Hs. lia.
  - intros steps st0. apply run_steps_Ok.
  - intros steps st0.
    destruct (compensate_all_Ok (OrderRequest.order_id req) steps st0)
      as [st2 Hcomp].
    exists st2. split; [done|]. by apply compensate_all_calls in Hcomp as [_ ?].
  - intros steps st0 st2 r Hq Hcomp.
    apply compensate_all_trace in Hcomp
      as (-> & new & Hlog & H1 & H2 & _); [|done].
    split; [done|]. by exists new.
Qed.

Lemma saga_failures_are_reported_witness :
  (∃ st' b new,
     execute order_over_stock None fixture_store = (st', Ok b) ∧
     (b = true ↔
      ∃ sa,
        executes_each None
          (build_steps order_over_stock
             (mkOrderAmounts (dec2 200000) (dec2 1000) (dec2 199000)))
          (pre_saga order_over_stock fixture_store).1 sa) ∧
     (b = false ↔
      ∃ i s e sa sb,
        build_steps order_over_stock
          (mkOrderAmounts (dec2 200000) (dec2 1000) (dec2 199000)) !! i
          = Some s ∧
        executes_each None
          (take i
             (build_steps order_over_stock
                (mkOrderAmounts (dec2 200000) (dec2 1000) (dec2 199000))))
          (pre_saga order_over_stock fixture_store).1 sa ∧
        fails_at None s sa sb e) ∧
     Store.logs st' =
       Store.logs (pre_saga order_over_stock fixture_store).1 ++ new ∧
     (b = true ↔
      completed new =
        Step.name <$>
          build_steps order_over_stock
            (mkOrderAmounts (dec2 200000) (dec2 1000) (dec2 199000)))) ∧
  (∃ st2,
     compensate_all 4 [unreliable_step 4; FinalizeOrder 4] fixture_store
       = (st2, Ok tt) ∧
     compensates_each 4 [unreliable_step 4; FinalizeOrder 4] fixture_store
       st2).
Proof.
  assert (Hpre : pre_saga order_over_stock fixture_store =
                 ((pre_saga order_over_stock fixture_store).1,
                  Ok (mkOrderAmounts (dec2 200000) (dec2 1000)
                        (dec2 199000)))) by by vm_compute.
  destruct (saga_failures_are_reported order_over_stock None fixture_store
              _ _ Hpre) as (Hexec & _ & Hcomp & _).
  split; [exact Hexec|].
  apply (Hcomp [unreliable_step 4; FinalizeOrder 4] fixture_store).
Defined.

(** C4, as stated, fails: a request can pass the three validations of the
    pre-saga phase (positive quantity, known user, known sku) and make
    [execute] raise all the same.  For 10^26 units at 100.00 the base
    amount has no representation in cents within the precision of the
    context, and [quantize] traps. *)
Lemma validated_order_raises :
  0 < OrderRequest.qty order_huge_qty ∧
  is_Some (Store.users fixture_store !! OrderRequest.user_id order_huge_qty) ∧
  is_Some (Store.items fixture_store !! OrderRequest.sku order_huge_qty) ∧
  (execute order_huge_qty None fixture_store).2 = Raise InvalidOperation.
Proof.
  split; [done|]. split; [by eexists|]. split; [by eexists|]. by vm_compute.
Qed.

(** C5.  A request with [qty <= 0], or whose user is unknown, or whose sku
  is unknown, makes [execute] raise before any step runs: the store it
  leaves is the store it found plus the one SAGA START line, so no
  entity is mutated, no step and no compensation is logged. *)
Theorem execute_raises_before_any_step req fail_at_step st :
OrderRequest.qty req ≤ 0 ∨
Store.users st !! OrderRequest.user_id req = None ∨
Store.items st !! OrderRequest.sku req = None →
∃ e,
  execute req fail_at_step st =
    (Store.log
       (LogSagaStart (OrderRequest.order_id req) (OrderRequest.user_id req)
          (OrderRequest.sku req) (OrderRequest.qty req)
          (OrderRequest.promo_code req)) st,
     Raise e) ∧
  (e = QtyNotPositive ∨ e = UserNotFound (OrderRequest.user_id req) ∨
   e = ItemNotFound (OrderRequest.sku req)).
Proof.
intros Hbad. unfold execute, bind at 1.
destruct (pre_saga req st) as [st1 [amounts|e]] eqn:Hpre.
- exfalso. apply pre_saga_Ok in Hpre as (Hq & [u Hu] & Hcalc & _).
  rewrite calculate_amounts_eq in Hcalc.
  destruct Hbad as [?|[Hn|Hn]]; [lia|congruence|].
  by rewrite Hn in Hcalc.
- exists e. rewrite (pre_saga_Raise _ _ _ _ Hpre). split; [done|].
  revert Hpre. unfold pre_saga, bind at 1, log at 1, modify.
  destruct (OrderRequest.qty req <=? 0) eqn:Hq; [intros [= _ <-]; auto|].
  unfold bind at 1, get. rewrite users_log.
  destruct (Store.users st !! _) as [u|] eqn:Hu; [|intros [= _ <-]; auto].
  unfold bind at 1. rewrite calculate_amounts_log, calculate_amounts_eq.
  cbn [snd].
  destruct Hbad as [?|[?|Hn]]; [lia|congruence|].
  rewrite Hn. intros [= _ <-]. auto.
Qed.

Lemma execute_raises_before_any_step_witness :
∃ e,
  execute (OrderRequest.mk 9 1 "ITEM001" 0 None) None fixture_store =
    (Store.log (LogSagaStart 9 1 "ITEM001" 0 None) fixture_store, Raise e) ∧
  (e = QtyNotPositive ∨ e = UserNotFound 1 ∨ e = ItemNotFound "ITEM001").
Proof.
apply (execute_raises_before_any_step
         (OrderRequest.mk 9 1 "ITEM001" 0 None) None fixture_store).
left. cbn. lia.
Defined.

(** C6 (as amended).  [calculate_discount] returns zero when the code is
    absent (None or the empty string), unknown or depleted, and otherwise
    [min(discount_amount, base_amount)].  When the base amount is not
    negative the result does not exceed it, and when moreover the promo's
    discount amount is not negative the result is not negative. *)
Theorem calculate_discount_spec st promo_code base_amount :
  let d := DiscountsService.calculate_discount st promo_code base_amount in
  (truthy promo_code = false → d = Decimal.zero2) ∧
  (∀ c, promo_code = Some c → Store.promos st !! c = None →
        d = Decimal.zero2) ∧
  (∀ c p, promo_code = Some c → Store.promos st !! c = Some p →
          PromoCode.remaining_uses p ≤ 0 → d = Decimal.zero2) ∧
  (∀ c p, promo_code = Some c → truthy promo_code = true →
          Store.promos st !! c = Some p → 0 < PromoCode.remaining_uses p →
          d = Decimal.min (PromoCode.discount_amount p) base_amount) ∧
  (Decimal.leb Decimal.zero2 base_amount = true →
   Decimal.leb d base_amount = true) ∧
  (Decimal.leb Decimal.zero2 base_amount = true →
   (∀ c p, promo_code = Some c → Store.promos st !! c = Some p →
           Decimal.leb Decimal.zero2 (PromoCode.discount_amount p) = true) →
   Decimal.leb Decimal.zero2 d = true).
Proof.
  unfold DiscountsService.calculate_discount. cbn zeta.
  split; [by intros ->|].
  split; [intros c -> Hn; cbn [mbind option_bind]; rewrite Hn;
          by destruct (negb _)|].
  split.
  { intros c p -> Hp Hu. cbn [mbind option_bind]. rewrite Hp.
    destruct (negb _); [done|].
    by rewrite (proj2 (Z.leb_le _ _) Hu). }
  split.
  { intros c p -> -> Hp Hu. cbn [mbind option_bind negb]. rewrite Hp.
    by rewrite (proj2 (Z.leb_gt _ _) Hu). }
  split.
  - intros Hb. destruct (negb _); [done|].
    destruct (promo_code ≫= _) as [p|]; [|done].
    destruct (_ <=? _); [done|]. apply min_leb_r.
  - intros Hb Hd. destruct (negb _); [done|].
    destruct promo_code as [c|]; [|done]. cbn [mbind option_bind].
    destruct (Store.promos st !! c) as [p|] eqn:Hp; [|done].
    destruct (_ <=? _); [done|].
    destruct (min_cases (PromoCode.discount_amount p) base_amount) as [->| ->];
      [by eapply Hd|done].
Qed.

Lemma calculate_discount_spec_witness :
  Decimal.leb
    (DiscountsService.calculate_discount fixture_store (Some "DISCOUNT10")
       (dec2 10000))
    (dec2 10000) = true ∧
  Decimal.leb Decimal.zero2
    (DiscountsService.calculate_discount fixture_store (Some "DISCOUNT10")
       (dec2 10000)) = true.
Proof.
  destruct (calculate_discount_spec fixture_store (Some "DISCOUNT10")
              (dec2 10000)) as (_ & _ & _ & _ & Hle & Hge).
  split.
  - apply Hle. reflexivity.
  - apply Hge; [reflexivity|].
    intros c p [= <-] Hp. vm_compute in Hp. injection Hp as <-. reflexivity.
Defined.

(** C6, as stated, fails: a promo with a negative discount amount yields a
    negative discount, and for a negative base amount the zero discount of
    an absent code exceeds the base. *)
Lemma calculate_discount_out_of_bounds :
  DiscountsService.calculate_discount store_negative_promo (Some "NEG")
    (dec2 10000) = dec2 (-1000) ∧
  Decimal.ltb (dec2 (-1000)) Decimal.zero2 = true ∧
  DiscountsService.calculate_discount fixture_store None (dec2 (-100))
    = Decimal.zero2 ∧
  Decimal.ltb (dec2 (-100)) Decimal.zero2 = true.
Proof. by vm_compute. Qed.




(** C8.  Once the pre-saga phase has passed, [execute] runs the sequence
    [build_steps]: ReservePromoUse first exactly when a promo code was
    supplied (whatever the store says of the code), then ReserveInventory,
    ChargeUserBalance and FinalizeOrder, in that order; the sequence has
    at least three steps. *)
Theorem build_steps_sequence req fail_at_step st st1 amounts :
  pre_saga req st = (st1, Ok amounts) →
  execute req fail_at_step st =
    run_steps (OrderRequest.order_id req) fail_at_step
      (build_steps req amounts) st1 ∧
  build_steps req amounts =
    (match OrderRequest.promo_code req with
     | Some c =>
         if truthy (Some c)
         then [ReservePromoUse (OrderRequest.order_id req) c]
         else []
     | None => []
     end) ++
    [ReserveInventory (OrderRequest.order_id req) (OrderRequest.sku req)
       (OrderRequest.qty req);
     ChargeUserBalance (OrderRequest.order_id req) (OrderRequest.user_id req)
       (final_amount amounts);
     FinalizeOrder (OrderRequest.order_id req)] ∧
  Step.name <$> build_steps req amounts =
    (if truthy (OrderRequest.promo_code req)
     then ["ReservePromoUse"] else []) ++
    ["ReserveInventory"; "ChargeUserBalance"; "FinalizeOrder"] ∧
  (truthy (OrderRequest.promo_code req) = true ↔
   head (Step.name <$> build_steps req amounts) = Some "ReservePromoUse") ∧
  (3 ≤ length (build_steps req amounts))%nat.
Proof.
  intros Hpre. split; [by apply execute_after_pre_saga|].
  split; [done|]. split; [apply build_steps_names|].
  split.
  - rewrite build_steps_names. by destruct (truthy _).
  - rewrite <- (length_fmap Step.name), build_steps_names.
    destruct (truthy _); cbn; lia.
Qed.

Lemma build_steps_sequence_witness :
  Step.name <$>
    build_steps order_with_promo
      (mkOrderAmounts (dec2 10000) (dec2 1000) (dec2 9000)) =
  ["ReservePromoUse"; "ReserveInventory"; "ChargeUserBalance";
   "FinalizeOrder"].
Proof.
  refine (proj1 (proj2 (proj2
    (build_steps_sequence order_with_promo None fixture_store _ _ _)))).
  by vm_compute.
Defined.

(** C9 (as amended).  From a store where every [on_hand] and every
    [remaining_uses] is non-negative, the same holds after
    [reserve_inventory], [reserve_promo_use] and [release_promo_use] with
    any arguments, after [release_inventory] with a non-negative quantity,
    and after any run of [execute], whether it returns true, returns false
    or raises. *)
Theorem stock_stays_nonneg st :
  stock_nonneg st →
  (∀ order_id sku qty,
     stock_nonneg
       (InventoryService.reserve_inventory order_id sku qty st).1) ∧
  (∀ order_id sku qty, 0 ≤ qty →
     stock_nonneg
       (InventoryService.release_inventory order_id sku qty st).1) ∧
  (∀ order_id c,
     stock_nonneg (DiscountsService.reserve_promo_use order_id c st).1) ∧
  (∀ order_id c,
     stock_nonneg (DiscountsService.release_promo_use order_id c st).1) ∧
  (∀ req fail_at_step, stock_nonneg (execute req fail_at_step st).1).
Proof.
  intros Hst.
  assert (Hel : ∀ A (m : M A),
            respects keeps_stock_nonneg m → stock_nonneg (m st).1).
  { intros A m Hm. destruct (m st) as [st' r] eqn:E. by eapply Hm. }
  split; [intros; apply Hel, reserve_inventory_nonneg|].
  split; [intros; by apply Hel, release_inventory_nonneg|].
  split; [intros; apply Hel, reserve_promo_use_nonneg|].
  split; [intros; apply Hel, release_promo_use_nonneg|].
  intros req fail_at_step. apply Hel.
  apply respects_execute;
    [apply _|apply keeps_stock_nonneg_log|intros; by apply build_steps_nonneg].
Qed.

Lemma stock_stays_nonneg_witness :
  stock_nonneg fixture_store ∧
  stock_nonneg
    (InventoryService.release_inventory 1 "ITEM003" 2 fixture_store).1 ∧
  stock_nonneg (execute order_failing_late (Some "FinalizeOrder")
                  fixture_store).1.
Proof.
  assert (H : stock_nonneg fixture_store).
  { split; apply (bool_decide_unpack _); by vm_compute. }
  destruct (stock_stays_nonneg fixture_store H) as (_ & Hrel & _ & _ & Hexec).
  split; [exact H|]. split; [apply Hrel; lia|apply Hexec].
Defined.

(** C9, as stated, fails for [release_inventory]: with a negative quantity
    it drives [on_hand] below zero. *)
Lemma release_inventory_negative_qty :
  stock_nonneg fixture_store ∧
  on_hand_of "ITEM003" fixture_store = Some 0 ∧
  on_hand_of "ITEM003"
    (InventoryService.release_inventory 1 "ITEM003" (-5) fixture_store).1
    = Some (-5) ∧
  ¬ stock_nonneg
      (InventoryService.release_inventory 1 "ITEM003" (-5) fixture_store).1.
Proof.
  split; [split; apply (bool_decide_unpack _); by vm_compute|].
  split; [by vm_compute|]. split; [by vm_compute|].
  intros [Hitems _].
  specialize (Hitems "ITEM003" (InventoryItem.mk "ITEM003" (dec2 5000) (-5))).
  cbn beta in Hitems. 
  assert (0 ≤ -5) as Habs; [|lia].
  apply Hitems. by vm_compute.
Qed.

(** C10.  Whatever the outcome of [execute], only the user, the item and
    the promo named by the request can change; every other entity is as
    before, the three dictionaries keep their keys, and the log is
    extended: the lines present before are still there, in place. *)
Theorem execute_frame req fail_at_step st :
  frame req st (execute req fail_at_step st).1.
Proof.
  destruct (execute req fail_at_step st) as [st' r] eqn:E. cbn [fst].
  revert E. apply respects_execute;
    [apply _|apply frame_log|intros; apply build_steps_frame].
Qed.

End Claims.

(** * Further properties of the code *)

(** ** The four steps, as equations *)

Section RunEquations.
Import SagaOrchestrator.

Lemma run_ReservePromoUse_eq order_id c st :
  Step.run (ReservePromoUse order_id c) st =
  let st0 := Store.log (LogStep order_id "ReservePromoUse") st in
  match Store.promos st !! c with
  | None => (st0, Raise (PromoNotFound c))
  | Some p =>
      if PromoCode.remaining_uses p <=? 0
      then (st0, Raise (PromoExhausted c))
      else (Store.log (LogStepOk order_id "ReservePromoUse")
              (Store.log
                 (LogPromoReserved order_id c (PromoCode.remaining_uses p - 1))
                 (Store.set_promos st0
                    (<[c := PromoCode.set_remaining_uses p
                              (PromoCode.remaining_uses p - 1)]>
                       (Store.promos st)))),
            Ok tt)
  end.
Proof.
  rewrite run_eq. cbn [Step.execute Step.order_id Step.name ReservePromoUse].
  rewrite reserve_promo_use_eq. autorewrite with store. cbn zeta.
  destruct (Store.promos st !! c) as [p|]; [|done].
  by destruct (PromoCode.remaining_uses p <=? 0).
Qed.

Lemma run_ReserveInventory_eq order_id sku qty st :
  Step.run (ReserveInventory order_id sku qty) st =
  let st0 := Store.log (LogStep order_id "ReserveInventory") st in
  match Store.items st !! sku with
  | None => (st0, Raise (ItemNotFound sku))
  | Some i =>
      if InventoryItem.on_hand i <? qty
      then (st0,
            Raise (InsufficientInventory sku (InventoryItem.on_hand i) qty))
      else (Store.log (LogStepOk order_id "ReserveInventory")
              (Store.log
                 (LogInventoryReserved order_id sku qty
                    (InventoryItem.on_hand i - qty))
                 (Store.set_items st0
                    (<[sku := InventoryItem.set_on_hand i
                                (InventoryItem.on_hand i - qty)]>
                       (Store.items st)))),
            Ok tt)
  end.
Proof.
  rewrite run_eq. cbn [Step.execute Step.order_id Step.name ReserveInventory].
  rewrite reserve_inventory_eq. autorewrite with store. cbn zeta.
  destruct (Store.items st !! sku) as [i|]; [|done].
  by destruct (InventoryItem.on_hand i <? qty).
Qed.

Lemma run_ChargeUserBalance_eq order_id uid amount st :
  Step.run (ChargeUserBalance order_id uid amount) st =
  let st0 := Store.log (LogStep order_id "ChargeUserBalance") st in
  match Store.users st !! uid with
  | None => (st0, Raise (UserNotFound uid))
  | Some u =>
      if Decimal.ltb (User.balance u) amount
      then (st0, Raise (InsufficientBalance uid (User.balance u) amount))
      else (Store.log (LogStepOk order_id "ChargeUserBalance")
              (Store.log
                 (LogCharged order_id uid amount
                    (Decimal.sub (User.balance u) amount))
                 (Store.set_users st0
                    (<[uid := User.set_balance u
                                (Decimal.sub (User.balance u) amount)]>
                       (Store.users st)))),
            Ok tt)
  end.
Proof.
  rewrite run_eq. cbn [Step.execute Step.order_id Step.name ChargeUserBalance].
  rewrite charge_user_balance_eq. autorewrite with store. cbn zeta.
  destruct (Store.users st !! uid) as [u|]; [|done].
  by destruct (Decimal.ltb (User.balance u) amount).
Qed.

Lemma run_FinalizeOrder_eq order_id st :
  Step.run (FinalizeOrder order_id) st =
  (Store.log (LogStepOk order_id "FinalizeOrder")
     (Store.log (LogFinalized order_id)
        (Store.log (LogStep order_id "FinalizeOrder") st)),
   Ok tt).
Proof. by rewrite run_eq. Qed.

End RunEquations.

(** ** The forward loop on the steps of an order *)

Section ForwardOrder.
Import SagaOrchestrator.

(** A forward loop that ends without a failure met no fault directive. *)
Lemma forward_None_no_fault fail_at_step steps done_ st st' done' :
  forward fail_at_step steps done_ st = (st', Ok (done', None)) →
  ∀ s, s ∈ steps → fail_at_step ≠ Some (Step.name s).
Proof.
  revert done_ st. induction steps as [|s steps IH]; intros done_ st H s' Hs'.
  - by apply elem_of_nil in Hs'.
  - apply forward_cons_inv in H
      as [(_ & _ & _ & [=])|[(_ & e & _ & _ & [=])|(Hf & st1 & _ & H)]].
    apply elem_of_cons in Hs' as [->|Hs']; [done|]. by eapply IH.
Qed.

(** A fault directive that names no step of the list changes nothing. *)
Lemma forward_unknown_fault fail_at_step steps done_ st :
  (∀ s, s ∈ steps → fail_at_step ≠ Some (Step.name s)) →
  forward fail_at_step steps done_ st = forward None steps done_ st.
Proof.
  revert done_ st. induction steps as [|s steps IH]; intros done_ st H; [done|].
  cbn [forward]. rewrite !decide_False; [|done|apply H; by left].
  apply bind_ext. intros [e|[]] st1; [done|].
  apply IH. intros s' Hs'. apply H. by right.
Qed.

Lemma fault_applies_false fail_at_step steps :
  fault_applies fail_at_step steps = false ↔
  ∀ s, s ∈ steps → fail_at_step ≠ Some (Step.name s).
Proof.
  unfold fault_applies. destruct fail_at_step as [n|]; [|done].
  rewrite bool_decide_eq_false, list_elem_of_fmap. split.
  - intros H s Hs [= ->]. apply H. by exists s.
  - intros H (s & -> & Hs). by apply (H s).
Qed.

Lemma store_ext st st' :
  Store.users st = Store.users st' → Store.items st = Store.items st' →
  Store.promos st = Store.promos st' → Store.logs st = Store.logs st' →
  st = st'.
Proof. destruct st, st'. cbn. by intros -> -> -> ->. Qed.

Lemma forward_order_steps_ok fail_at_step order_id sku qty uid amount
    done_ st i u :
  fault_applies fail_at_step (order_steps order_id sku qty uid amount)
    = false →
  Store.items st !! sku = Some i →
  (InventoryItem.on_hand i <? qty) = false →
  Store.users st !! uid = Some u →
  Decimal.ltb (User.balance u) amount = false →
  forward fail_at_step (order_steps order_id sku qty uid amount) done_ st =
  (Store.mk
     (<[uid := User.set_balance u (Decimal.sub (User.balance u) amount)]>
        (Store.users st))
     (<[sku := InventoryItem.set_on_hand i (InventoryItem.on_hand i - qty)]>
        (Store.items st))
     (Store.promos st)
     (Store.logs st ++
      [LogStep order_id "ReserveInventory";
       LogInventoryReserved order_id sku qty (InventoryItem.on_hand i - qty);
       LogStepOk order_id "ReserveInventory";
       LogStep order_id "ChargeUserBalance";
       LogCharged order_id uid amount (Decimal.sub (User.balance u) amount);
       LogStepOk order_id "ChargeUserBalance";
       LogStep order_id "FinalizeOrder"; LogFinalized order_id;
       LogStepOk order_id "FinalizeOrder"]),
   Ok (done_ ++ order_steps order_id sku qty uid amount, None)).
Proof.
  intros Hf Hi Hq Hu Hb. unfold order_steps in *.
  pose proof (proj1 (fault_applies_false _ _) Hf) as Hf'. clear Hf.
  erewrite forward_cons_ok; [|apply Hf'; set_solver|].
  2:{ rewrite run_ReserveInventory_eq, Hi, Hq. reflexivity. }
  erewrite forward_cons_ok; [|apply Hf'; set_solver|].
  2:{ rewrite run_ChargeUserBalance_eq. autorewrite with store.
      rewrite Hu, Hb. reflexivity. }
  erewrite forward_cons_ok; [|apply Hf'; set_solver|].
  2:{ rewrite run_FinalizeOrder_eq. reflexivity. }
  cbn [forward]. unfold ret. f_equal; [|by rewrite <- !app_assoc].
  apply store_ext; autorewrite with store;
    cbn [Store.users Store.items Store.promos Store.logs]; [done..|].
  by rewrite <- !app_assoc.
Qed.

(** What the three steps required of the store when all of them
    completed. *)
Lemma order_steps_guards fail_at_step order_id sku qty uid amount
    done_ st st' done' :
  forward fail_at_step (order_steps order_id sku qty uid amount) done_ st
    = (st', Ok (done', None)) →
  ∃ i u,
    Store.items st !! sku = Some i ∧
    (InventoryItem.on_hand i <? qty) = false ∧
    Store.users st !! uid = Some u ∧
    Decimal.ltb (User.balance u) amount = false.
Proof.
  unfold order_steps.
  intros [(_ & _ & _ & [=])|[(_ & e & _ & _ & [=])|(_ & st1 & Hi & H)]]
    %forward_cons_inv.
  apply forward_cons_inv in H
    as [(_ & _ & _ & [=])|[(_ & e & _ & _ & [=])|(_ & st2 & Hc & _)]].
  apply run_ReserveInventory in Hi as (Hu1 & _ & i & Hi & Hq & _).
  apply run_ChargeUserBalance in Hc as (_ & _ & u & Hu & Hb & _).
  exists i, u. rewrite <- Hu1. split; [done|]. split; [lia|]. done.
Qed.

End ForwardOrder.

(** ** When an order completes *)

Section Completion.
Import SagaOrchestrator.

Lemma build_steps_order_steps req amounts :
  build_steps req amounts =
  (match OrderRequest.promo_code req with
   | Some c =>
       if truthy (Some c)
       then [ReservePromoUse (OrderRequest.order_id req) c]
       else []
   | None => []
   end) ++
  order_steps (OrderRequest.order_id req) (OrderRequest.sku req)
    (OrderRequest.qty req) (OrderRequest.user_id req) (final_amount amounts).
Proof. done. Qed.

Lemma fault_applies_app fail_at_step l1 l2 :
  fault_applies fail_at_step (l1 ++ l2) = false ↔
  fault_applies fail_at_step l1 = false ∧
  fault_applies fail_at_step l2 = false.
Proof.
  rewrite !fault_applies_false. split.
  - intros H. split; intros s Hs; apply H, elem_of_app; auto.
  - intros [H1 H2] s [Hs|Hs]%elem_of_app; auto.
Qed.

(** The lines of the three last steps of a completed order. *)
Lemma success_log_eq req amounts st i u :
  Store.items st !! OrderRequest.sku req = Some i →
  Store.users st !! OrderRequest.user_id req = Some u →
  success_log req amounts st =
  let oid := OrderRequest.order_id req in
  [LogSagaStart oid (OrderRequest.user_id req) (OrderRequest.sku req)
     (OrderRequest.qty req) (OrderRequest.promo_code req);
   LogAmounts oid (base_amount amounts) (discount_amount amounts)
     (final_amount amounts)] ++
  promo_step_log req st ++
  [LogStep oid "ReserveInventory";
   LogInventoryReserved oid (OrderRequest.sku req) (OrderRequest.qty req)
     (InventoryItem.on_hand i - OrderRequest.qty req);
   LogStepOk oid "ReserveInventory";
   LogStep oid "ChargeUserBalance";
   LogCharged oid (OrderRequest.user_id req) (final_amount amounts)
     (Decimal.sub (User.balance u) (final_amount amounts));
   LogStepOk oid "ChargeUserBalance";
   LogStep oid "FinalizeOrder"; LogFinalized oid;
   LogStepOk oid "FinalizeOrder";
   LogSagaOk oid].
Proof.
  intros Hi Hu. unfold success_log, on_hand_of, balance_of.
  by rewrite Hi, Hu.
Qed.

(** The guards hold: the loop completes every step, and writes the lines
    of [promo_step_log] and of the three last steps. *)
Lemma forward_build_steps_ok req amounts fail_at_step st :
  order_can_complete req amounts fail_at_step st = true →
  ∃ st' i u,
    forward fail_at_step (build_steps req amounts) [] st
      = (st', Ok (build_steps req amounts, None)) ∧
    Store.items st !! OrderRequest.sku req = Some i ∧
    Store.users st !! OrderRequest.user_id req = Some u ∧
    Store.logs st' =
      Store.logs st ++ promo_step_log req st ++
      [LogStep (OrderRequest.order_id req) "ReserveInventory";
       LogInventoryReserved (OrderRequest.order_id req)
         (OrderRequest.sku req) (OrderRequest.qty req)
         (InventoryItem.on_hand i - OrderRequest.qty req);
       LogStepOk (OrderRequest.order_id req) "ReserveInventory";
       LogStep (OrderRequest.order_id req) "ChargeUserBalance";
       LogCharged (OrderRequest.order_id req) (OrderRequest.user_id req)
         (final_amount amounts)
         (Decimal.sub (User.balance u) (final_amount amounts));
       LogStepOk (OrderRequest.order_id req) "ChargeUserBalance";
       LogStep (OrderRequest.order_id req) "FinalizeOrder";
       LogFinalized (OrderRequest.order_id req);
       LogStepOk (OrderRequest.order_id req) "FinalizeOrder"].
Proof.
  unfold order_can_complete.
  intros [[[Hf%negb_true_iff Hp]%andb_true_iff Hs]%andb_true_iff Hb]
    %andb_true_iff.
  unfold stock_available in Hs. unfold balance_available in Hb.
  destruct (Store.items st !! _) as [i|] eqn:Hi; [|done].
  destruct (Store.users st !! _) as [u|] eqn:Hu; [|done].
  apply Z.leb_le in Hs. apply negb_true_iff in Hb.
  assert ((InventoryItem.on_hand i <? OrderRequest.qty req) = false) as Hq
    by (apply Z.ltb_ge; lia).
  rewrite build_steps_order_steps in Hf |- *.
  apply fault_applies_app in Hf as [Hf1 Hf2].
  unfold promo_available in Hp. unfold promo_step_log.
  destruct (OrderRequest.promo_code req) as [c|].
  - destruct (truthy (Some c)).
    + destruct (Store.promos st !! c) as [p|] eqn:Hpc; [|done].
      apply Z.ltb_lt in Hp.
      pose proof (proj1 (fault_applies_false _ _) Hf1) as Hf1'.
      cbn [app].
      erewrite forward_cons_ok; [|apply Hf1'; set_solver|].
      2:{ rewrite run_ReservePromoUse_eq, Hpc.
          destruct (Z.leb_spec (PromoCode.remaining_uses p) 0); [lia|].
          reflexivity. }
      erewrite forward_order_steps_ok; [|done|by autorewrite with store..].
      eexists _, i, u. split; [done|]. do 2 (split; [done|]).
      cbn [Store.logs Store.log Store.set_promos].
      by rewrite <- !app_assoc.
    + cbn [app]. erewrite forward_order_steps_ok; [|done..].
      eexists _, i, u. split; [done|]. by do 2 (split; [done|]).
  - cbn [app]. erewrite forward_order_steps_ok; [|done..].
    eexists _, i, u. split; [done|]. by do 2 (split; [done|]).
Qed.

(** The loop completed every step: the guards held. *)
Lemma forward_build_steps_guards req amounts fail_at_step st st' done' :
  forward fail_at_step (build_steps req amounts) [] st
    = (st', Ok (done', None)) →
  order_can_complete req amounts fail_at_step st = true.
Proof.
  intros H. unfold order_can_complete.
  assert (fault_applies fail_at_step (build_steps req amounts) = false)
    as -> by (apply fault_applies_false; by eapply forward_None_no_fault).
  cbn [negb andb]. revert H. rewrite build_steps_order_steps.
  unfold promo_available, stock_available, balance_available.
  assert (∀ st0 d, Store.users st0 = Store.users st →
            Store.items st0 = Store.items st →
            forward fail_at_step
              (order_steps (OrderRequest.order_id req) (OrderRequest.sku req)
                 (OrderRequest.qty req) (OrderRequest.user_id req)
                 (final_amount amounts)) d st0 = (st', Ok (done', None)) →
            match Store.items st !! OrderRequest.sku req with
            | Some i => OrderRequest.qty req <=? InventoryItem.on_hand i
            | None => false
            end &&
            match Store.users st !! OrderRequest.user_id req with
            | Some u => negb (Decimal.ltb (User.balance u)
                                (final_amount amounts))
            | None => false
            end = true) as Hrest.
  { intros st0 d HU HI (i & u & Hi & Hq & Hu & Hb)%order_steps_guards.
    rewrite <- HU, <- HI, Hi, Hu, Hb. apply Z.ltb_ge in Hq.
    apply andb_true_iff. split; [by apply Z.leb_le|done]. }
  destruct (OrderRequest.promo_code req) as [c|].
  - destruct (truthy (Some c)).
    + cbn [app].
      intros [(_ & _ & _ & [=])|[(_ & e & _ & _ & [=])|(_ & st1 & Hp & H)]]
        %forward_cons_inv.
      apply run_ReservePromoUse in Hp as (HU & HI & p & Hp & Huses & _).
      rewrite Hp. apply Hrest in H; [|done..].
      rewrite <- andb_assoc, H, andb_true_r. by apply Z.ltb_lt.
    + cbn [app]. intros H. apply Hrest in H; [|done..].
      by rewrite <- andb_assoc, H.
  - cbn [app]. intros H. apply Hrest in H; [|done..].
    by rewrite <- andb_assoc, H.
Qed.

End Completion.

(** ** The outcome of an order *)

Section Outcome.
Import SagaOrchestrator.

(** X1.  For a store whose decimals are finite numbers (the values of
    [Decimal.t]; a NaN balance is outside this statement): once the
    pre-saga phase has passed, [execute] returns true exactly when no step
    of the sequence is named by the fault directive, the promo code, if
    one is supplied, is known and has a use left, the item has at least
    [qty] units on hand, and the balance of the user is not below the
    final amount; all four are read in the store as it is before the
    run. *)
Theorem order_completes_iff req fail_at_step st st1 amounts :
  pre_saga req st = (st1, Ok amounts) →
  (execute req fail_at_step st).2 = Ok true ↔
  order_can_complete req amounts fail_at_step st = true.
Proof.
  intros Hpre. rewrite (execute_after_pre_saga _ _ _ _ _ Hpre).
  apply pre_saga_Ok in Hpre as (_ & _ & _ & ->). split.
  - destruct (run_steps _ _ _ _) as [st' r] eqn:Hrun. cbn [snd].
    intros ->. apply run_steps_inv in Hrun as (st2 & done_ & err & Hfwd & H).
    destruct err as [e|]; [by destruct H|].
    by apply forward_build_steps_guards in Hfwd.
  - intros Hok.
    destruct (forward_build_steps_ok req amounts fail_at_step
                (Store.log
                   (LogAmounts (OrderRequest.order_id req)
                      (base_amount amounts) (discount_amount amounts)
                      (final_amount amounts))
                   (Store.log
                      (LogSagaStart (OrderRequest.order_id req)
                         (OrderRequest.user_id req) (OrderRequest.sku req)
                         (OrderRequest.qty req)
                         (OrderRequest.promo_code req)) st)))
      as (st' & i & u & Hfwd & _); [exact Hok|].
    unfold run_steps, bind at 1. by rewrite Hfwd.
Qed.

Lemma order_completes_iff_witness :
  (execute order_with_promo None fixture_store).2 = Ok true ↔
  order_can_complete order_with_promo
    (mkOrderAmounts (dec2 10000) (dec2 1000) (dec2 9000)) None fixture_store
    = true.
Proof.
  apply (order_completes_iff order_with_promo None fixture_store
           (pre_saga order_with_promo fixture_store).1).
  by vm_compute.
Defined.

(** X2.  The lines a run that returns true adds to the log are exactly:
    SAGA START, the amounts, then for each step of the sequence its STEP
    line, the line of its service with the new count or balance, and its
    STEP OK line, then SAGA OK; no COMPENSATE line, and nothing else. *)
Theorem successful_run_log req fail_at_step st st' :
  execute req fail_at_step st = (st', Ok true) →
  ∃ amounts,
    _calculate_amounts req st = (st, Ok amounts) ∧
    Store.logs st' = Store.logs st ++ success_log req amounts st.
Proof.
  intros (st1 & amounts & Hpre & Hrun)%execute_Ok_inv.
  apply pre_saga_Ok in Hpre as (_ & _ & Hcalc & ->).
  exists amounts. split; [done|].
  apply run_steps_inv in Hrun as (st2 & done_ & err & Hfwd & H).
  destruct err as [e|]; [by destruct H|]. destruct H as [_ ->].
  pose proof (forward_build_steps_guards _ _ _ _ _ _ Hfwd) as Hok.
  apply forward_build_steps_ok in Hok as (st2' & i & u & Hfwd' & Hi & Hu & Hl).
  rewrite Hfwd in Hfwd'. injection Hfwd' as <- _.
  rewrite (success_log_eq _ _ _ i u) by done.
  rewrite logs_log, Hl. cbn [Store.logs Store.log]. cbn zeta.
  by rewrite <- !app_assoc.
Qed.

Lemma successful_run_log_witness :
  ∃ amounts,
    _calculate_amounts order_with_promo fixture_store
      = (fixture_store, Ok amounts) ∧
    Store.logs (execute order_with_promo None fixture_store).1 =
      Store.logs fixture_store ++
      success_log order_with_promo amounts fixture_store.
Proof.
  apply (successful_run_log order_with_promo None fixture_store).
  by vm_compute.
Defined.

(** X3.  A fault directive that names no step of the sequence built for
    the request is ignored: the run is the run without a directive, in its
    result, its entities and its log.  (The names of the sequence do not
    depend on the amounts.) *)
Theorem unknown_fault_is_ignored req amounts fail_at_step st :
  fault_applies fail_at_step (build_steps req amounts) = false →
  execute req fail_at_step st = execute req None st.
Proof.
  intros Hf. unfold execute. apply bind_ext. intros amounts' st1.
  assert (fault_applies fail_at_step (build_steps req amounts') = false)
    as Hf'.
  { revert Hf. unfold fault_applies. by rewrite !build_steps_names. }
  unfold run_steps, bind.
  by rewrite (forward_unknown_fault fail_at_step)
    by by apply fault_applies_false.
Qed.

Lemma unknown_fault_is_ignored_witness :
  execute order_without_promo (Some "ReservePromoUse") fixture_store =
  execute order_without_promo None fixture_store.
Proof.
  apply (unknown_fault_is_ignored order_without_promo
           (mkOrderAmounts Decimal.zero2 Decimal.zero2 Decimal.zero2)).
  by vm_compute.
Defined.

End Outcome.

(** ** The lines of the steps *)

Section StepLines.
Import SagaOrchestrator.

Lemma step_entry_service e : service_entry e = true → step_entry e = true.
Proof. by destruct e. Qed.

Lemma step_lines_silent l :
  Forall (λ e, step_entry e = true) l →
  failure_reasons l = [] ∧
  Forall (λ e, is_compensation_failed e = false) l.
Proof.
  unfold failure_reasons. induction 1 as [|e l He _ [IH1 IH2]]; [done|].
  split; [cbn; rewrite IH1|constructor; [|done]]; by destruct e.
Qed.

#[global] Instance appends_step_lines_preorder : PreOrder appends_step_lines.
Proof.
  split.
  - intros st. exists []. by rewrite app_nil_r.
  - intros st1 st2 st3 (l1 & H1 & F1) (l2 & H2 & F2). exists (l1 ++ l2).
    split; [by rewrite H2, H1, app_assoc|by apply Forall_app].
Qed.

Lemma appends_step_line e st :
  step_entry e = true → appends_step_lines st (Store.log e st).
Proof. intros He. exists [e]. split; [done|by constructor]. Qed.

Lemma appends_service_step_lines st st' :
  appends_service_lines st st' → appends_step_lines st st'.
Proof.
  intros (l & Hl & Hs). exists l. split; [done|].
  eapply Forall_impl; [exact Hs|]. apply step_entry_service.
Qed.

Lemma run_step_lines s :
  quiet_step s → respects appends_step_lines (Step.run s).
Proof.
  intros [Hq _] st st' r. rewrite run_eq.
  destruct (Step.execute s _) as [st0 [[]|e]] eqn:He; intros [= <- _];
    apply Hq, appends_service_step_lines in He.
  - etrans; [|etrans; [exact He|by apply appends_step_line]].
    by apply (appends_step_line (LogStep _ _)).
  - etrans; [|exact He]. by apply (appends_step_line (LogStep _ _)).
Qed.

Lemma run_compensation_step_lines s :
  quiet_step s → respects appends_step_lines (Step.run_compensation s).
Proof.
  intros [_ Hq] st st' r. rewrite run_compensation_eq.
  destruct (Step.compensate s _) as [st0 [[]|e]] eqn:He; intros [= <- _];
    apply Hq, appends_service_step_lines in He.
  - etrans; [|etrans; [exact He|by apply appends_step_line]].
    by apply (appends_step_line (LogCompensate _ _)).
  - etrans; [|exact He]. by apply (appends_step_line (LogCompensate _ _)).
Qed.

Lemma forward_step_lines fail_at_step steps done_ :
  Forall quiet_step steps →
  respects appends_step_lines (forward fail_at_step steps done_).
Proof.
  intros Hq. revert done_.
  induction Hq as [|s steps Hs _ IH]; intros done_; cbn [forward].
  - apply respects_ret, _.
  - case_decide; [apply respects_ret, _|].
    apply respects_bind; [apply _| |].
    + by apply respects_try, run_step_lines.
    + intros [e|[]]; [apply respects_ret, _|apply IH].
Qed.

Lemma run_compensation_returns s st :
  compensation_returns s → (Step.run_compensation s st).2 = Ok tt.
Proof.
  intros Hs. rewrite run_compensation_eq.
  specialize (Hs (Store.log (LogCompensate (Step.order_id s) (Step.name s))
                    st)).
  by destruct (Step.compensate s _) as [st0 [[]|e]].
Qed.

(** When no compensation raises, the loop of the [except] block writes
    lines of steps only: it has no failure of its own to report. *)
Lemma compensate_all_step_lines order_id steps :
  Forall quiet_step steps → Forall compensation_returns steps →
  respects appends_step_lines (compensate_all order_id steps).
Proof.
  intros Hq. induction Hq as [|s steps Hs _ IH]; intros Hc st st' r.
  - intros [= <- _]. reflexivity.
  - apply Forall_cons in Hc as [Hc1 Hc2].
    intros (st1 & st2 & r1 & Hrun & -> & Hrest)%compensate_all_cons_inv.
    pose proof (run_compensation_returns s st Hc1) as Hok.
    rewrite Hrun in Hok. cbn in Hok. subst r1.
    etrans; [by eapply run_compensation_step_lines|]. by eapply IH.
Qed.

Lemma build_steps_compensation_returns req amounts :
  Forall compensation_returns (build_steps req amounts).
Proof.
  apply build_steps_Forall; [intros c _|..]; intros st;
    cbn [Step.compensate ReservePromoUse ReserveInventory ChargeUserBalance
         FinalizeOrder];
    rewrite ?release_promo_use_eq, ?release_inventory_eq,
      ?refund_user_balance_eq; by repeat case_match.
Qed.

(** The shape of the log of a run, for each of its three outcomes. *)
Lemma execute_lines req fail_at_step st st' r :
  execute req fail_at_step st = (st', r) →
  let start :=
    LogSagaStart (OrderRequest.order_id req) (OrderRequest.user_id req)
      (OrderRequest.sku req) (OrderRequest.qty req)
      (OrderRequest.promo_code req) in
  match r with
  | Raise _ => Store.logs st' = Store.logs st ++ [start]
  | Ok b =>
      ∃ st1 amounts st2 done_ err l1,
        pre_saga req st = (st1, Ok amounts) ∧
        forward fail_at_step (build_steps req amounts) [] st1
          = (st2, Ok (done_, err)) ∧
        Forall (λ e, step_entry e = true) l1 ∧
        match err with
        | None =>
            b = true ∧
            Store.logs st' =
              Store.logs st ++
              [start;
               LogAmounts (OrderRequest.order_id req) (base_amount amounts)
                 (discount_amount amounts) (final_amount amounts)] ++
              l1 ++ [LogSagaOk (OrderRequest.order_id req)]
        | Some e =>
            b = false ∧
            ∃ l2, Forall (λ e, step_entry e = true) l2 ∧
              Store.logs st' =
                Store.logs st ++
                [start;
                 LogAmounts (OrderRequest.order_id req) (base_amount amounts)
                   (discount_amount amounts) (final_amount amounts)] ++
                l1 ++ [LogSagaFailed (OrderRequest.order_id req) e] ++
                l2 ++ [LogSagaEnd (OrderRequest.order_id req)]
        end
  end.
Proof.
  intros H. cbn zeta. destruct r as [b|e].
  - apply execute_Ok_inv in H as (st1 & amounts & Hpre & Hrun).
    apply run_steps_inv in Hrun as (st2 & done_ & err & Hfwd & H).
    pose proof (forward_step_lines _ _ _ (quiet_build_steps req amounts)
                  _ _ _ Hfwd) as (l1 & Hl1 & F1).
    exists st1, amounts, st2, done_, err, l1. do 3 (split; [done|]).
    pose proof Hpre as (_ & _ & _ & ->)%pre_saga_Ok.
    cbn [Store.logs Store.log] in Hl1.
    destruct err as [e|].
    + destruct H as (-> & st3 & Hcomp & ->). split; [done|].
      destruct (forward_inv _ _ _ _ _ _ Hfwd) as (i & err' & [= -> _] & _).
      apply compensate_all_step_lines in Hcomp as (l2 & Hl2 & F2).
      * exists l2. split; [done|]. rewrite logs_log, Hl2, logs_log, Hl1.
        by rewrite <- !app_assoc.
      * apply Forall_reverse, Forall_take, quiet_build_steps.
      * apply Forall_reverse, Forall_take, build_steps_compensation_returns.
    + destruct H as [-> ->]. split; [done|].
      rewrite logs_log, Hl1. by rewrite <- !app_assoc.
  - unfold execute in H.
    apply bind_inv in H as [(st1 & amounts & Hpre & Hrun)|(e' & Hpre & _)].
    + destruct (run_steps_Ok (OrderRequest.order_id req) fail_at_step
                  (build_steps req amounts) st1) as (? & ? & Hok).
      by rewrite Hok in Hrun.
    + apply pre_saga_Raise in Hpre as ->. by rewrite logs_log.
Qed.

End StepLines.

(** ** Why an order fails *)

Section Failure.
Import SagaOrchestrator.

(** The exception that ends the loop over the three last steps tells the
    truth about the store the loop started in. *)
Lemma order_steps_cause fail_at_step order_id sku qty uid amount
    done_ st st' done' e :
  forward fail_at_step (order_steps order_id sku qty uid amount) done_ st
    = (st', Ok (done', Some e)) →
  match e with
  | ArtificialFailure n =>
      fail_at_step = Some n ∧
      n ∈ ["ReserveInventory"; "ChargeUserBalance"; "FinalizeOrder"]
  | ItemNotFound k => k = sku ∧ Store.items st !! sku = None
  | UserNotFound k => k = uid ∧ Store.users st !! uid = None
  | InsufficientInventory k have need =>
      k = sku ∧ need = qty ∧ on_hand_of sku st = Some have ∧ have < need
  | InsufficientBalance k have need =>
      k = uid ∧ need = amount ∧ balance_of uid st = Some have ∧
      Decimal.ltb have need = true
  | _ => False
  end.
Proof.
  unfold order_steps, on_hand_of, balance_of. intros H.
  apply forward_cons_inv in H
    as [(Hf & _ & _ & [= ->])|[(_ & e1 & Hi & _ & [= ->])|(_ & st1 & Hi & H)]].
  { split; [done|]. set_solver. }
  { revert Hi. rewrite run_ReserveInventory_eq. cbn zeta.
    destruct (Store.items st !! sku) as [i|]; [|by intros [= _ <-]].
    destruct (Z.ltb_spec (InventoryItem.on_hand i) qty); [|done].
    by intros [= _ <-]. }
  apply run_ReserveInventory in Hi as (HU & _ & _).
  apply forward_cons_inv in H
    as [(Hf & _ & _ & [= ->])|[(_ & e1 & Hc & _ & [= ->])|(_ & st2 & Hc & H)]].
  { split; [done|]. set_solver. }
  { revert Hc. rewrite run_ChargeUserBalance_eq, HU. cbn zeta.
    destruct (Store.users st !! uid) as [u|]; [|by intros [= _ <-]].
    destruct (Decimal.ltb (User.balance u) amount) eqn:Hb; [|done].
    by intros [= _ <-]. }
  apply forward_cons_inv in H
    as [(Hf & _ & _ & [= ->])|[(_ & e1 & Hc' & _ & [= ->])|(_ & st3 & _ & H)]].
  - split; [done|]. set_solver.
  - by rewrite run_FinalizeOrder_eq in Hc'.
  - by apply forward_nil_inv in H as (_ & _ & [=]).
Qed.

(** The same for the whole sequence of an order whose user and item
    exist, as the pre-saga phase has checked. *)
Lemma build_steps_cause req amounts fail_at_step st st' done' e :
  is_Some (Store.users st !! OrderRequest.user_id req) →
  is_Some (Store.items st !! OrderRequest.sku req) →
  forward fail_at_step (build_steps req amounts) [] st
    = (st', Ok (done', Some e)) →
  failure_cause req amounts fail_at_step st e.
Proof.
  intros [u Hu] [i Hi].
  assert (∀ st0 d,
            Store.users st0 = Store.users st →
            Store.items st0 = Store.items st →
            forward fail_at_step
              (order_steps (OrderRequest.order_id req) (OrderRequest.sku req)
                 (OrderRequest.qty req) (OrderRequest.user_id req)
                 (final_amount amounts)) d st0 = (st', Ok (done', Some e)) →
            failure_cause req amounts fail_at_step st e) as Hrest.
  { intros st0 d HU HI H%order_steps_cause. revert H.
    unfold on_hand_of, balance_of. rewrite HU, HI, Hu, Hi.
    destruct e; try done; [by intros [_ [=]]..| | |].
    - intros (-> & -> & ? & ?). cbn. unfold on_hand_of. by rewrite Hi.
    - intros (-> & -> & ? & ?). cbn. unfold balance_of. by rewrite Hu.
    - intros [-> Hn]. split; [done|]. rewrite build_steps_names.
      apply elem_of_app. by right. }
  rewrite build_steps_order_steps.
  destruct (OrderRequest.promo_code req) as [c|] eqn:Hc; [|apply Hrest; done].
  destruct (truthy (Some c)) eqn:Ht; [|apply Hrest; done]. cbn [app].
  intros [(Hf & _ & _ & [= ->])|[(_ & e1 & Hp & _ & [= ->])|(_ & st1 & Hp & H)]]
    %forward_cons_inv.
  - split; [done|]. rewrite build_steps_names, Hc, Ht. cbn. by left.
  - revert Hp. rewrite run_ReservePromoUse_eq. cbn zeta.
    destruct (Store.promos st !! c) as [p|] eqn:Hpc; [|by intros [= _ <-]].
    destruct (Z.leb_spec (PromoCode.remaining_uses p) 0); [|done].
    intros [= _ <-]. split; [done|]. exists (PromoCode.remaining_uses p).
    unfold uses_of. by rewrite Hpc.
  - apply run_ReservePromoUse in Hp as (HU & HI & _). by eapply Hrest.
Qed.

(** No step named by the fault directive is started by the forward
    loop. *)
Lemma forward_never_starts_fault n steps done_ st st' r :
  Forall quiet_step steps →
  forward (Some n) steps done_ st = (st', r) →
  ∃ new, Store.logs st' = Store.logs st ++ new ∧ n ∉ started new.
Proof.
  intros Hq. revert done_ st.
  induction Hq as [|s steps Hs _ IH]; intros done_ st; cbn [forward].
  - intros [= <- _]. exists []. rewrite app_nil_r. split; [done|].
    apply not_elem_of_nil.
  - case_decide as Hf.
    + intros [= <- _]. exists []. rewrite app_nil_r. split; [done|].
      apply not_elem_of_nil.
    + intros [(st1 & a & Ht & Hk)|(e & Ht & _)]%bind_inv;
        apply try_inv in Ht as [([] & Hrun & [= ->])|(e' & Hrun & [= ->])];
        try done.
      * apply (run_trace _ _ _ _ Hs) in Hrun
          as (l & Hl & [(_ & Hlog)|(e & [=] & _)]).
        apply IH in Hk as (new & Hlog' & Hn).
        exists ([LogStep (Step.order_id s) (Step.name s)] ++ l ++
                [LogStepOk (Step.order_id s) (Step.name s)] ++ new).
        split; [by rewrite Hlog', Hlog, <- !app_assoc|].
        destruct (service_lines_silent l Hl) as (Hsl & _).
        rewrite !started_app, Hsl. cbn.
        intros [->|?]%elem_of_cons; [by apply Hf|done].
      * injection Hk as <- _.
        apply (run_trace _ _ _ _ Hs) in Hrun
          as (l & Hl & [([=] & _)|(e & _ & Hlog)]).
        exists ([LogStep (Step.order_id s) (Step.name s)] ++ l).
        split; [done|].
        destruct (service_lines_silent l Hl) as (Hsl & _).
        rewrite !started_app, Hsl. cbn.
        intros [->|?%elem_of_nil]%elem_of_cons; [by apply Hf|done].
Qed.

(** X5.  No run of [execute] writes a COMPENSATION FAILED line: the
    compensations of the four steps never raise, so the [except] of the
    compensation loop is never entered. *)
Theorem no_compensation_failure req fail_at_step st :
  ∃ new,
    Store.logs (execute req fail_at_step st).1 = Store.logs st ++ new ∧
    Forall (λ e, is_compensation_failed e = false) new.
Proof.
  destruct (execute req fail_at_step st) as [st' r] eqn:E. cbn [fst].
  apply execute_lines in E. cbn zeta in E. destruct r as [b|e].
  - destruct E as (st1 & amounts & st2 & done_ & err & l1 & _ & _ & F1 & H).
    apply step_lines_silent in F1 as [_ F1]. destruct err as [e|].
    + destruct H as (_ & l2 & F2 & ->). eexists. split; [done|].
      apply step_lines_silent in F2 as [_ F2].
      repeat (apply Forall_app; split) || apply Forall_cons; by repeat constructor.
    + destruct H as (_ & ->). eexists. split; [done|].
      repeat (apply Forall_app; split) || apply Forall_cons; by repeat constructor.
  - eexists. split; [done|]. by repeat constructor.
Qed.

(** X6.  Once the pre-saga phase has passed, a fault directive that names
    a step of the sequence makes [execute] return false, whatever the
    store holds, and the step it names is never started: its service is
    not called. *)
Theorem injected_fault_fails req n st st1 amounts :
  pre_saga req st = (st1, Ok amounts) →
  n ∈ Step.name <$> build_steps req amounts →
  ∃ st' new,
    execute req (Some n) st = (st', Ok false) ∧
    Store.logs st' = Store.logs st ++ new ∧
    n ∉ started new.
Proof.
  intros Hpre (s & -> & Hs)%list_elem_of_fmap.
  rewrite (execute_after_pre_saga _ _ _ _ _ Hpre).
  apply pre_saga_Ok in Hpre as (_ & _ & _ & ->).
  destruct (run_steps_Ok (OrderRequest.order_id req) (Some (Step.name s))
              (build_steps req amounts)
              (Store.log
                 (LogAmounts (OrderRequest.order_id req) (base_amount amounts)
                    (discount_amount amounts) (final_amount amounts))
                 (Store.log
                    (LogSagaStart (OrderRequest.order_id req)
                       (OrderRequest.user_id req) (OrderRequest.sku req)
                       (OrderRequest.qty req) (OrderRequest.promo_code req))
                    st))) as (st' & b & Hrun).
  rewrite Hrun.
  apply run_steps_inv in Hrun as (st2 & done_ & err & Hfwd & H).
  destruct err as [e|].
  - destruct H as (-> & st3 & Hcomp & ->).
    destruct (forward_inv _ _ _ _ _ _ Hfwd) as (i & err' & [= -> _] & _).
    apply forward_never_starts_fault in Hfwd as (new1 & Hl1 & Hn);
      [|apply quiet_build_steps].
    apply compensate_all_trace in Hcomp as (_ & new2 & Hl2 & _ & _ & Hs2 & _);
      [|apply Forall_reverse, Forall_take, quiet_build_steps].
    eexists _, _. split; [done|]. split.
    + rewrite logs_log, Hl2, logs_log, Hl1. cbn [Store.logs Store.log].
      rewrite <- !app_assoc. reflexivity.
    + rewrite !started_app, Hs2. cbn. by rewrite app_nil_r.
  - exfalso. by eapply forward_None_no_fault.
Qed.

Lemma injected_fault_fails_witness :
  ∃ st' new,
    execute order_failing_late (Some "ChargeUserBalance") fixture_store
      = (st', Ok false) ∧
    Store.logs st' = Store.logs fixture_store ++ new ∧
    "ChargeUserBalance" ∉ started new.
Proof.
  apply (injected_fault_fails order_failing_late "ChargeUserBalance"
           fixture_store (pre_saga order_failing_late fixture_store).1
           (mkOrderAmounts (dec2 10000) (dec2 1000) (dec2 9000))).
  - by vm_compute.
  - apply (bool_decide_unpack _). by vm_compute.
Defined.

End Failure.

(** ** A step and its compensation *)

Section RoundTrips.
Import SagaOrchestrator DiscountsService InventoryService BillingService.

(** X7.  A step of the sequence that raises has changed nothing: the
    store is the one it started in, with its STEP line appended.  The
    three services check before they write, so the step that failed
    leaves nothing to compensate. *)
Theorem failed_step_changes_nothing req amounts s st st' e :
  s ∈ build_steps req amounts →
  Step.run s st = (st', Raise e) →
  st' = Store.log (LogStep (OrderRequest.order_id req) (Step.name s)) st.
Proof.
  intros Hs. revert st st' e.
  pose proof (build_steps_Forall
    (λ s, ∀ st st' e, Step.run s st = (st', Raise e) →
       st' = Store.log (LogStep (OrderRequest.order_id req) (Step.name s)) st)
    req amounts) as H.
  rewrite Forall_forall in H. apply H; [| | | |done].
  - intros c _ st st' e. rewrite run_ReservePromoUse_eq. cbn zeta.
    repeat case_match; by intros [= <- _].
  - intros st st' e. rewrite run_ReserveInventory_eq. cbn zeta.
    repeat case_match; by intros [= <- _].
  - intros st st' e. rewrite run_ChargeUserBalance_eq. cbn zeta.
    repeat case_match; by intros [= <- _].
  - intros st st' e. by rewrite run_FinalizeOrder_eq.
Qed.

Lemma failed_step_changes_nothing_witness :
  (Step.run (ReserveInventory 4 "ITEM001" 20) fixture_store).1 =
  Store.log (LogStep 4 "ReserveInventory") fixture_store.
Proof.
  apply (failed_step_changes_nothing order_over_stock
           (mkOrderAmounts (dec2 200000) (dec2 1000) (dec2 199000))
           (ReserveInventory 4 "ITEM001" 20) fixture_store _
           (InsufficientInventory "ITEM001" 10 20)).
  - right. left.
  - by vm_compute.
Defined.

(** X8.  Releasing what was just reserved puts the inventory back: after
    a [reserve_inventory] that returned, [release_inventory] of the same
    [sku] and [qty] (of any sign) returns and leaves the three dictionaries
    exactly as they were before the reservation; the log has gained the
    two lines of the services, the second one showing the initial
    [on_hand]. *)
Theorem reserve_release_inventory order_id order_id' sku qty st st1 :
  reserve_inventory order_id sku qty st = (st1, Ok tt) →
  ∃ n,
    on_hand_of sku st = Some n ∧
    release_inventory order_id' sku qty st1 =
    (Store.mk (Store.users st) (Store.items st) (Store.promos st)
       (Store.logs st ++
        [LogInventoryReserved order_id sku qty (n - qty);
         LogInventoryReleased order_id' sku qty n]),
     Ok tt).
Proof.
  rewrite reserve_inventory_eq. unfold on_hand_of.
  destruct (Store.items st !! sku) as [i|] eqn:Hi; [|done].
  destruct (InventoryItem.on_hand i <? qty); [done|]. intros [= <-].
  exists (InventoryItem.on_hand i). split; [done|].
  rewrite release_inventory_eq. autorewrite with store.
  rewrite lookup_insert_eq, set_on_hand_restore, insert_restore by done.
  unfold Store.log, Store.set_items. cbn [Store.users Store.items
    Store.promos Store.logs InventoryItem.on_hand InventoryItem.set_on_hand].
  rewrite <- app_assoc. do 6 f_equal. lia.
Qed.

Lemma reserve_release_inventory_witness :
  ∃ n,
    on_hand_of "ITEM001" fixture_store = Some n ∧
    release_inventory 7 "ITEM001" 3
      (reserve_inventory 7 "ITEM001" 3 fixture_store).1 =
    (Store.mk (Store.users fixture_store) (Store.items fixture_store)
       (Store.promos fixture_store)
       (Store.logs fixture_store ++
        [LogInventoryReserved 7 "ITEM001" 3 (n - 3);
         LogInventoryReleased 7 "ITEM001" 3 n]),
     Ok tt).
Proof.
  apply (reserve_release_inventory 7 7 "ITEM001" 3 fixture_store).
  by vm_compute.
Defined.

(** X9.  Releasing the promo use that was just reserved puts the promos
    back: after a [reserve_promo_use] that returned, [release_promo_use]
    of the same code returns and leaves the three dictionaries exactly as
    they were before the reservation; the log has gained the two lines of
    the services, the second one showing the initial [remaining_uses]. *)
Theorem reserve_release_promo_use order_id order_id' c st st1 :
  reserve_promo_use order_id c st = (st1, Ok tt) →
  ∃ n,
    uses_of c st = Some n ∧ 0 < n ∧
    release_promo_use order_id' c st1 =
    (Store.mk (Store.users st) (Store.items st) (Store.promos st)
       (Store.logs st ++
        [LogPromoReserved order_id c (n - 1);
         LogPromoReleased order_id' c n]),
     Ok tt).
Proof.
  rewrite reserve_promo_use_eq. unfold uses_of.
  destruct (Store.promos st !! c) as [p|] eqn:Hp; [|done].
  destruct (Z.leb_spec (PromoCode.remaining_uses p) 0); [done|].
  intros [= <-].
  exists (PromoCode.remaining_uses p). do 2 (split; [done|]).
  rewrite release_promo_use_eq. autorewrite with store.
  rewrite lookup_insert_eq, set_remaining_uses_restore, insert_restore by done.
  unfold Store.log, Store.set_promos. cbn [Store.users Store.items
    Store.promos Store.logs PromoCode.remaining_uses
    PromoCode.set_remaining_uses].
  rewrite <- app_assoc. do 6 f_equal. lia.
Qed.

Lemma reserve_release_promo_use_witness :
  ∃ n,
    uses_of "DISCOUNT10" fixture_store = Some n ∧ 0 < n ∧
    release_promo_use 7 "DISCOUNT10"
      (reserve_promo_use 7 "DISCOUNT10" fixture_store).1 =
    (Store.mk (Store.users fixture_store) (Store.items fixture_store)
       (Store.promos fixture_store)
       (Store.logs fixture_store ++
        [LogPromoReserved 7 "DISCOUNT10" (n - 1);
         LogPromoReleased 7 "DISCOUNT10" n]),
     Ok tt).
Proof.
  apply (reserve_release_promo_use 7 7 "DISCOUNT10" fixture_store).
  by vm_compute.
Defined.

(** X10.  Refunding what was just charged puts the balance back when
    the two operations are exact under the context precision: after a
    [charge_user_balance] that returned, [refund_user_balance] of the same
    amount returns, the items and the promos are untouched, and the users
    are equal to the initial ones (the balances compared numerically, as
    [==] does); the log has gained the two lines of the services. *)
Theorem charge_refund_balance order_id order_id' uid amount st st1 u :
  Store.users st !! uid = Some u →
  charge_refund_exact (User.balance u) amount = true →
  charge_user_balance order_id uid amount st = (st1, Ok tt) →
  ∃ st2,
    refund_user_balance order_id' uid amount st1 = (st2, Ok tt) ∧
    users_eq (Store.users st2) (Store.users st) ∧
    Store.items st2 = Store.items st ∧
    Store.promos st2 = Store.promos st ∧
    Store.logs st2 =
      Store.logs st ++
      [LogCharged order_id uid amount (Decimal.sub (User.balance u) amount);
       LogRefunded order_id' uid amount
         (Decimal.add (Decimal.sub (User.balance u) amount) amount)].
Proof.
  intros Hu Hex. rewrite charge_user_balance_eq, Hu.
  destruct (Decimal.ltb (User.balance u) amount); [done|]. intros [= <-].
  rewrite refund_user_balance_eq. autorewrite with store.
  rewrite lookup_insert_eq. eexists. split; [done|].
  autorewrite with store. rewrite insert_insert_eq.
  split; [by apply (users_eq_round_trip _ _ u)|]. do 2 (split; [done|]).
  by rewrite <- app_assoc.
Qed.

Lemma charge_refund_balance_witness :
  ∃ st2,
    refund_user_balance 7 1 (dec2 9000)
      (charge_user_balance 7 1 (dec2 9000) fixture_store).1 = (st2, Ok tt) ∧
    users_eq (Store.users st2) (Store.users fixture_store) ∧
    Store.items st2 = Store.items fixture_store ∧
    Store.promos st2 = Store.promos fixture_store ∧
    Store.logs st2 =
      Store.logs fixture_store ++
      [LogCharged 7 1 (dec2 9000)
         (Decimal.sub (User.balance (User.mk 1 (dec2 100000))) (dec2 9000));
       LogRefunded 7 1 (dec2 9000)
         (Decimal.add
            (Decimal.sub (User.balance (User.mk 1 (dec2 100000)))
               (dec2 9000))
            (dec2 9000))].
Proof.
  apply (charge_refund_balance 7 7 1 (dec2 9000) fixture_store);
    by vm_compute.
Defined.

End RoundTrips.

(** ** Signs and bounds of decimals *)

Section DecimalSigns.
Import Decimal.

Lemma round_half_even_bounds n d :
  0 ≤ n → 0 < d →
  n / 10 ^ d ≤ round_half_even n d ≤ n / 10 ^ d + 1 ∧
  (n mod 10 ^ d = 0 → round_half_even n d = n / 10 ^ d).
Proof.
  intros Hn Hd. unfold round_half_even. cbn zeta.
  pose proof (pow10_gt0 d ltac:(lia)) as Hp.
  split; [destruct (_ || _); lia|]. intros ->.
  destruct (Z.ltb_spec (10 ^ d) (2 * 0)); [lia|].
  destruct (Z.eqb_spec (2 * 0) (10 ^ d)); [lia|]. done.
Qed.

Lemma round_half_even_nonneg n d : 0 ≤ n → 0 < d → 0 ≤ round_half_even n d.
Proof.
  intros Hn Hd. pose proof (round_half_even_bounds n d Hn Hd) as [H _].
  pose proof (pow10_gt0 d ltac:(lia)).
  pose proof (Z.div_pos n (10 ^ d) Hn ltac:(lia)). lia.
Qed.

(** Rounding to cents does not pass an amount in cents. *)
Lemma round_half_even_le n d b :
  0 ≤ n → 0 < d → n ≤ b * 10 ^ d → round_half_even n d ≤ b.
Proof.
  intros Hn Hd Hb. pose proof (pow10_gt0 d ltac:(lia)) as Hp.
  pose proof (Z.div_mod n (10 ^ d) ltac:(lia)) as Hdm.
  pose proof (Z.mod_pos_bound n (10 ^ d) Hp) as Hr.
  destruct (round_half_even_bounds n d Hn Hd) as [[_ Hup] Hex].
  destruct (decide (n mod 10 ^ d = 0)) as [Hz|Hnz].
  - rewrite Hex by done. apply Z.div_le_upper_bound; lia.
  - assert (n / 10 ^ d < b); [|lia].
    apply Z.div_lt_upper_bound; [lia|]. rewrite Z.mul_comm.
    destruct (decide (n = b * 10 ^ d)) as [Heq|]; [|lia].
    rewrite Heq, Z.mod_mul in Hnz by lia. done.
Qed.

Lemma fix_nonneg x : 0 ≤ coef x → 0 ≤ coef (fix_ x).
Proof.
  intros Hx. unfold fix_. cbn zeta.
  destruct (Z.leb_spec (digits (coef x)) prec) as [|Hlong]; [done|].
  pose proof (round_half_even_nonneg (Z.abs (coef x))
                (digits (coef x) - prec) ltac:(lia) ltac:(lia)).
  destruct (_ =? _); cbn [coef]; [|nia].
  assert (0 < 10 ^ (prec - 1)) by done. nia.
Qed.

Lemma dec_nonneg_coef x : dec_nonneg x ↔ 0 ≤ coef x.
Proof.
  unfold dec_nonneg, leb, compare, zero2. cbn [coef exp].
  pose proof (pow10_gt0 (exp x - Z.min (-2) (exp x)) ltac:(lia)) as Hp.
  rewrite Z.mul_0_l.
  destruct (Z.compare_spec 0 (coef x * 10 ^ (exp x - Z.min (-2) (exp x))));
    split; intros; try done; nia.
Qed.

Lemma leb_cents a b : leb (mk a (-2)) (mk b (-2)) = true ↔ a ≤ b.
Proof.
  unfold leb, compare. cbn [coef exp].
  change (Z.min (-2) (-2)) with (-2). change (10 ^ (-2 - -2)) with 1.
  rewrite !Z.mul_1_r. destruct (Z.compare_spec a b); split; intros;
    try done; lia.
Qed.

Lemma quantize_nonneg x e y :
  0 ≤ coef x → quantize x e = Some y → 0 ≤ coef y.
Proof.
  intros Hx. unfold quantize. destruct (coef x =? 0).
  - rewrite fix_zero. by intros [= <-].
  - destruct (_ <? _); [done|]. destruct (_ <? _); [done|]. intros [= <-].
    apply fix_nonneg. unfold rescale. destruct (coef x =? 0); [done|].
    destruct (Z.leb_spec e (exp x)); cbn [coef].
    + pose proof (pow10_gt0 (exp x - e) ltac:(lia)). nia.
    + pose proof (round_half_even_nonneg (Z.abs (coef x)) (e - exp x)
                    ltac:(lia) ltac:(lia)). nia.
Qed.

(** Quantizing to cents a non-negative value that does not exceed an
    amount in cents gives an amount that does not exceed it either. *)
Lemma quantize_le_cents x b y :
  0 ≤ coef x → ltb (mk b (-2)) x = false →
  quantize x (-2) = Some y → coef y ≤ b.
Proof.
  intros Hx Hle. unfold quantize.
  assert (Hcmp : coef x * 10 ^ (exp x - Z.min (-2) (exp x)) ≤
                 b * 10 ^ (-2 - Z.min (-2) (exp x))).
  { revert Hle. unfold ltb, compare. cbn [coef exp].
    destruct (Z.compare_spec (b * 10 ^ (-2 - Z.min (-2) (exp x)))
                (coef x * 10 ^ (exp x - Z.min (-2) (exp x)))); try done; lia. }
  destruct (Z.eqb_spec (coef x) 0) as [Hz|Hnz].
  - rewrite fix_zero. intros [= <-]. cbn [coef].
    rewrite Hz, Z.mul_0_l in Hcmp.
    pose proof (pow10_gt0 (-2 - Z.min (-2) (exp x)) ltac:(lia)). nia.
  - destruct (_ <? _); [done|].
    destruct (Z.ltb_spec prec (digits (coef (rescale x (-2))))) as [|Hd];
      [done|]. intros [= <-].
    rewrite fix_fits by (apply Z.ltb_lt; by apply digits_le_prec).
    unfold rescale. rewrite (proj2 (Z.eqb_neq _ _) Hnz).
    destruct (Z.leb_spec (-2) (exp x)) as [He|He]; cbn [coef].
    + rewrite Z.min_l in Hcmp by done.
      change (10 ^ (-2 - -2)) with 1 in Hcmp. lia.
    + rewrite Z.min_r, Z.sub_diag in Hcmp by lia.
      change (10 ^ 0) with 1 in Hcmp.
      replace (Z.sgn (coef x)) with 1 by lia. rewrite Z.mul_1_l.
      apply round_half_even_le; lia.
Qed.

End DecimalSigns.

(** ** The amounts of an order *)

Section Amounts.
Import SagaOrchestrator.

Lemma cents_eta x : Decimal.exp x = -2 → x = Decimal.mk (Decimal.coef x) (-2).
Proof. destruct x as [c e]. cbn. by intros ->. Qed.

(** For an item whose price is not negative, a quantity that is not
    negative and a promo whose [discount_amount] is not negative, the three
    amounts are amounts in cents [b], [d] and [b - d] with
    [0 <= d <= b]. *)
Lemma calculate_amounts_cents req st st' amounts :
  0 ≤ OrderRequest.qty req →
  (∀ i, Store.items st !! OrderRequest.sku req = Some i →
        dec_nonneg (InventoryItem.price i)) →
  (∀ c p, OrderRequest.promo_code req = Some c →
          Store.promos st !! c = Some p →
          dec_nonneg (PromoCode.discount_amount p)) →
  _calculate_amounts req st = (st', Ok amounts) →
  ∃ b d,
    amounts = mkOrderAmounts (Decimal.mk b (-2)) (Decimal.mk d (-2))
                (Decimal.mk (b - d) (-2)) ∧
    0 ≤ d ≤ b.
Proof.
  intros Hq Hprice Hpromo. rewrite calculate_amounts_eq.
  destruct (Store.items st !! _) as [i|] eqn:Hi; [|done].
  destruct (Decimal.quantize (Decimal.mul _ _) _) as [b|] eqn:Hb; [|done].
  destruct (Decimal.quantize (DiscountsService.calculate_discount _ _ _) _)
    as [d|] eqn:Hd; [|done].
  destruct (Decimal.quantize (Decimal.sub _ _) _) as [f|] eqn:Hf; [|done].
  intros [= _ <-].
  destruct (quantize_Some _ _ _ Hb) as [Heb Hfb].
  destruct (quantize_Some _ _ _ Hd) as [Hed _].
  assert (0 ≤ Decimal.coef b) as Hb0.
  { eapply quantize_nonneg; [|exact Hb]. apply fix_nonneg. cbn.
    specialize (Hprice i eq_refl). apply dec_nonneg_coef in Hprice. nia. }
  assert (0 ≤ Decimal.coef d ≤ Decimal.coef b) as Hd0.
  { revert Hd. unfold DiscountsService.calculate_discount.
    assert (Decimal.quantize Decimal.zero2 (-2) = Some d →
            0 ≤ Decimal.coef d ≤ Decimal.coef b) as Hzero.
    { intros [= <-]. rewrite fix_zero. cbn. lia. }
    destruct (negb (truthy _)); [done|].
    destruct (OrderRequest.promo_code req) as [c|] eqn:Hc; [|done].
    cbn [mbind option_bind].
    destruct (Store.promos st !! c) as [p|] eqn:Hp; [|done].
    destruct (_ <=? _); [done|].
    specialize (Hpromo c p eq_refl Hp). apply dec_nonneg_coef in Hpromo.
    unfold Decimal.min.
    destruct (Decimal.ltb b (PromoCode.discount_amount p)) eqn:Hlt.
    - rewrite (cents_eta b Heb), quantize_cents
        by (by apply Z.ltb_lt in Hfb).
      intros [= <-]. cbn. lia.
    - intros Hd. split; [eapply quantize_nonneg; [exact Hpromo|exact Hd]|].
      eapply quantize_le_cents; [exact Hpromo| |exact Hd].
      by rewrite <- (cents_eta b Heb). }
  apply quantize_sub_cents in Hf as ->; [|done..].
  exists (Decimal.coef b), (Decimal.coef d).
  by rewrite <- (cents_eta b Heb), <- (cents_eta d Hed).
Qed.

(** X11.  For an item whose price is not negative, a quantity that is not
    negative and a promo whose [discount_amount] is not negative, the
    amounts [_calculate_amounts] returns obey
    [0 <= discount <= base] and [0 <= final <= base]: quantizing the
    discount to cents does not push it out of these bounds. *)
Theorem amounts_within_bounds req st st' amounts :
  0 ≤ OrderRequest.qty req →
  (∀ i, Store.items st !! OrderRequest.sku req = Some i →
        dec_nonneg (InventoryItem.price i)) →
  (∀ c p, OrderRequest.promo_code req = Some c →
          Store.promos st !! c = Some p →
          dec_nonneg (PromoCode.discount_amount p)) →
  _calculate_amounts req st = (st', Ok amounts) →
  dec_nonneg (base_amount amounts) ∧
  dec_nonneg (discount_amount amounts) ∧
  Decimal.leb (discount_amount amounts) (base_amount amounts) = true ∧
  dec_nonneg (final_amount amounts) ∧
  Decimal.leb (final_amount amounts) (base_amount amounts) = true.
Proof.
  intros Hq Hprice Hpromo H.
  destruct (calculate_amounts_cents _ _ _ _ Hq Hprice Hpromo H)
    as (b & d & -> & Hd).
  cbn [base_amount discount_amount final_amount].
  rewrite !dec_nonneg_coef, !leb_cents. cbn [Decimal.coef]. lia.
Qed.

Lemma amounts_within_bounds_witness :
  let amounts := mkOrderAmounts (dec2 10000) (dec2 1000) (dec2 9000) in
  dec_nonneg (base_amount amounts) ∧
  dec_nonneg (discount_amount amounts) ∧
  Decimal.leb (discount_amount amounts) (base_amount amounts) = true ∧
  dec_nonneg (final_amount amounts) ∧
  Decimal.leb (final_amount amounts) (base_amount amounts) = true.
Proof.
  apply (amounts_within_bounds order_with_promo fixture_store fixture_store).
  - by vm_compute.
  - intros i [= <-]. by vm_compute.
  - intros c p [= <-] [= <-]. by vm_compute.
  - by vm_compute.
Defined.

End Amounts.

(** ** Records under their own key *)

Section Invariants.
Import SagaOrchestrator DiscountsService InventoryService BillingService.

#[global] Instance keeps_keys_consistent_preorder :
  PreOrder keeps_keys_consistent.
Proof.
  split; [intros st H; exact H|].
  intros st1 st2 st3 H1 H2 H. apply H2, H1, H.
Qed.

Lemma keys_consistent_set_users st k u :
  keys_consistent st → User.id u = k →
  keys_consistent (Store.set_users st (<[k := u]> (Store.users st))).
Proof.
  intros (HU & HI & HP) Hk. split; [|done]. by apply map_Forall_insert_2.
Qed.

Lemma keys_consistent_set_items st k i :
  keys_consistent st → InventoryItem.sku i = k →
  keys_consistent (Store.set_items st (<[k := i]> (Store.items st))).
Proof.
  intros (HU & HI & HP) Hk. split; [done|]. split; [|done].
  by apply map_Forall_insert_2.
Qed.

Lemma keys_consistent_set_promos st k p :
  keys_consistent st → PromoCode.code p = k →
  keys_consistent (Store.set_promos st (<[k := p]> (Store.promos st))).
Proof.
  intros (HU & HI & HP) Hk. do 2 (split; [done|]).
  by apply map_Forall_insert_2.
Qed.

(** The six operations of the services keep every record under its own
    key: they write a record back where they read it, and change neither
    its [id], nor its [sku], nor its [code]. *)
Lemma keys_consistent_services :
  (∀ order_id c,
     respects keeps_keys_consistent (reserve_promo_use order_id c)) ∧
  (∀ order_id c,
     respects keeps_keys_consistent (release_promo_use order_id c)) ∧
  (∀ order_id sku qty,
     respects keeps_keys_consistent (reserve_inventory order_id sku qty)) ∧
  (∀ order_id sku qty,
     respects keeps_keys_consistent (release_inventory order_id sku qty)) ∧
  (∀ order_id uid amount,
     respects keeps_keys_consistent
       (charge_user_balance order_id uid amount)) ∧
  (∀ order_id uid amount,
     respects keeps_keys_consistent
       (refund_user_balance order_id uid amount)).
Proof.
  split; [|split; [|split; [|split; [|split]]]];
    unfold respects; intros until r;
    rewrite ?reserve_promo_use_eq, ?release_promo_use_eq,
      ?reserve_inventory_eq, ?release_inventory_eq,
      ?charge_user_balance_eq, ?refund_user_balance_eq;
    match goal with
    | |- context [Store.promos ?s !! ?c] =>
        destruct (Store.promos s !! c) as [p|] eqn:Hk
    | |- context [Store.items ?s !! ?c] =>
        destruct (Store.items s !! c) as [p|] eqn:Hk
    | |- context [Store.users ?s !! ?c] =>
        destruct (Store.users s !! c) as [p|] eqn:Hk
    end;
    repeat case_match; intros [= <- _] Hinv; try exact Hinv;
    pose proof Hinv as (HU & HI & HP);
    [apply keys_consistent_set_promos; [done|]; by apply (HP _ _ Hk)
    |apply keys_consistent_set_promos; [done|]; by apply (HP _ _ Hk)
    |apply keys_consistent_set_items; [done|]; by apply (HI _ _ Hk)
    |apply keys_consistent_set_items; [done|]; by apply (HI _ _ Hk)
    |apply keys_consistent_set_users; [done|]; by apply (HU _ _ Hk)
    |apply keys_consistent_set_users; [done|]; by apply (HU _ _ Hk)].
Qed.

Lemma build_steps_keys_consistent req amounts :
  Forall (step_respects keeps_keys_consistent) (build_steps req amounts).
Proof.
  destruct keys_consistent_services as (H1 & H2 & H3 & H4 & H5 & H6).
  apply build_steps_Forall.
  - intros c _. split; [apply H1|apply H2].
  - split; [apply H3|apply H4].
  - split; [apply H5|apply H6].
  - split; intros st st' r [= <- _] Hinv; exact Hinv.
Qed.

(** X12.  If every record of the store sits under its own key
    ([users[k].id == k], [items[k].sku == k], [promos[k].code == k]), it
    still does after each of the three seed helpers, after [seed], after
    each of the six operations of the services, and after any run of
    [execute], whatever its outcome. *)
Theorem keys_stay_consistent st :
  keys_consistent st →
  (∀ uid balance, keys_consistent (Store.add_user uid balance st)) ∧
  (∀ sku price on_hand, keys_consistent (Store.add_item sku price on_hand st)) ∧
  (∀ code uses amount, keys_consistent (Store.add_promo code uses amount st)) ∧
  keys_consistent (seed st) ∧
  (∀ order_id c, keys_consistent (reserve_promo_use order_id c st).1) ∧
  (∀ order_id c, keys_consistent (release_promo_use order_id c st).1) ∧
  (∀ order_id sku qty,
     keys_consistent (reserve_inventory order_id sku qty st).1) ∧
  (∀ order_id sku qty,
     keys_consistent (release_inventory order_id sku qty st).1) ∧
  (∀ order_id uid amount,
     keys_consistent (charge_user_balance order_id uid amount st).1) ∧
  (∀ order_id uid amount,
     keys_consistent (refund_user_balance order_id uid amount st).1) ∧
  (∀ req fail_at_step, keys_consistent (execute req fail_at_step st).1).
Proof.
  intros Hst.
  assert (Hel : ∀ A (m : M A),
            respects keeps_keys_consistent m → keys_consistent (m st).1).
  { intros A m Hm. destruct (m st) as [st' r] eqn:E. by eapply Hm. }
  destruct keys_consistent_services as (H1 & H2 & H3 & H4 & H5 & H6).
  split; [intros; by apply keys_consistent_set_users|].
  split; [intros; by apply keys_consistent_set_items|].
  split; [intros; by apply keys_consistent_set_promos|].
  split.
  { unfold seed.
    do 2 (apply keys_consistent_set_promos; [|done]).
    do 2 (apply keys_consistent_set_items; [|done]).
    by do 2 (apply keys_consistent_set_users; [|done]). }
  split; [intros; apply Hel, H1|]. split; [intros; apply Hel, H2|].
  split; [intros; apply Hel, H3|]. split; [intros; apply Hel, H4|].
  split; [intros; apply Hel, H5|]. split; [intros; apply Hel, H6|].
  intros req fail_at_step. apply Hel.
  apply respects_execute;
    [apply _|by intros e st0 H|intros; apply build_steps_keys_consistent].
Qed.

Lemma keys_stay_consistent_witness :
  keys_consistent fixture_store ∧
  keys_consistent (Store.add_user 3 (dec2 100) fixture_store) ∧
  keys_consistent
    (execute order_failing_late (Some "FinalizeOrder") fixture_store).1.
Proof.
  assert (H : keys_consistent fixture_store).
  { repeat split; apply (bool_decide_unpack _); by vm_compute. }
  destruct (keys_stay_consistent fixture_store H)
    as (Hadd & _ & _ & _ & _ & _ & _ & _ & _ & _ & Hexec).
  split; [exact H|]. split; [apply Hadd|apply Hexec].
Defined.

End Invariants.

(** ** Balances that are not negative *)

Section Balances.
Import SagaOrchestrator BillingService.

#[global] Instance keeps_balances_nonneg_preorder :
  PreOrder keeps_balances_nonneg.
Proof.
  split; [intros st H; exact H|].
  intros st1 st2 st3 H1 H2 H. apply H2, H1, H.
Qed.

Lemma sub_nonneg b a :
  Decimal.ltb b a = false → 0 ≤ Decimal.coef (Decimal.sub b a).
Proof.
  unfold Decimal.ltb, Decimal.compare, Decimal.sub, Decimal.add, Decimal.neg.
  cbn [Decimal.coef Decimal.exp]. intros H. apply fix_nonneg.
  cbn [Decimal.coef].
  destruct (Z.compare_spec
              (Decimal.coef b *
               10 ^ (Decimal.exp b - Z.min (Decimal.exp b) (Decimal.exp a)))
              (Decimal.coef a *
               10 ^ (Decimal.exp a - Z.min (Decimal.exp b) (Decimal.exp a))));
    try done; lia.
Qed.

Lemma add_nonneg x y :
  0 ≤ Decimal.coef x → 0 ≤ Decimal.coef y →
  0 ≤ Decimal.coef (Decimal.add x y).
Proof.
  intros Hx Hy. unfold Decimal.add. apply fix_nonneg. cbn [Decimal.coef].
  pose proof (pow10_gt0 (Decimal.exp x - Z.min (Decimal.exp x) (Decimal.exp y))
                ltac:(lia)).
  pose proof (pow10_gt0 (Decimal.exp y - Z.min (Decimal.exp x) (Decimal.exp y))
                ltac:(lia)).
  nia.
Qed.

Lemma balances_nonneg_set_users st k u :
  balances_nonneg st → dec_nonneg (User.balance u) →
  balances_nonneg (Store.set_users st (<[k := u]> (Store.users st))).
Proof. intros Hst Hu. by apply map_Forall_insert_2. Qed.

(** A charge that returns leaves a balance that is not negative, whatever
    the sign of the amount: the service has checked
    [balance >= amount]. *)
Lemma charge_user_balance_nonneg order_id uid amount :
  respects keeps_balances_nonneg (charge_user_balance order_id uid amount).
Proof.
  intros st st' r. rewrite charge_user_balance_eq.
  destruct (Store.users st !! uid) as [u|] eqn:Hu; [|by intros [= <- _]].
  destruct (Decimal.ltb (User.balance u) amount) eqn:Hlt;
    intros [= <- _] Hinv; [done|].
  apply balances_nonneg_set_users; [done|]. cbn [User.balance User.set_balance].
  by apply dec_nonneg_coef, sub_nonneg.
Qed.

Lemma refund_user_balance_nonneg order_id uid amount :
  dec_nonneg amount →
  respects keeps_balances_nonneg (refund_user_balance order_id uid amount).
Proof.
  intros Ha st st' r. rewrite refund_user_balance_eq.
  destruct (Store.users st !! uid) as [u|] eqn:Hu; intros [= <- _] Hinv;
    [|done].
  apply balances_nonneg_set_users; [done|]. cbn [User.balance User.set_balance].
  apply dec_nonneg_coef, add_nonneg; apply dec_nonneg_coef; [|done].
  by apply (Hinv uid u).
Qed.

Lemma build_steps_balances_nonneg req amounts :
  dec_nonneg (final_amount amounts) →
  Forall (step_respects keeps_balances_nonneg) (build_steps req amounts).
Proof.
  intros Hf. apply build_steps_Forall.
  - intros c _. split; intros st st' r;
      cbn [Step.execute Step.compensate ReservePromoUse];
      rewrite ?reserve_promo_use_eq, ?release_promo_use_eq;
      repeat case_match; intros [= <- _] Hinv; exact Hinv.
  - split; intros st st' r;
      cbn [Step.execute Step.compensate ReserveInventory];
      rewrite ?reserve_inventory_eq, ?release_inventory_eq;
      repeat case_match; intros [= <- _] Hinv; exact Hinv.
  - split; [apply charge_user_balance_nonneg|].
    by apply refund_user_balance_nonneg.
  - split; intros st st' r [= <- _] Hinv; exact Hinv.
Qed.

(** X13.  If no balance of the store is negative, none is after
    [charge_user_balance] with any amount, after [refund_user_balance]
    with an amount that is not negative, after [add_user] with a balance
    that is not negative, and after any run of [execute] for an item
    whose price is not negative and a promo whose [discount_amount] is
    not negative. *)
Theorem balances_stay_nonneg st :
  balances_nonneg st →
  (∀ order_id uid amount,
     balances_nonneg (charge_user_balance order_id uid amount st).1) ∧
  (∀ order_id uid amount, dec_nonneg amount →
     balances_nonneg (refund_user_balance order_id uid amount st).1) ∧
  (∀ uid balance, dec_nonneg balance →
     balances_nonneg (Store.add_user uid balance st)) ∧
  (∀ req fail_at_step,
     (∀ i, Store.items st !! OrderRequest.sku req = Some i →
           dec_nonneg (InventoryItem.price i)) →
     (∀ c p, OrderRequest.promo_code req = Some c →
             Store.promos st !! c = Some p →
             dec_nonneg (PromoCode.discount_amount p)) →
     balances_nonneg (execute req fail_at_step st).1).
Proof.
  intros Hst.
  assert (Hel : ∀ A (m : M A),
            respects keeps_balances_nonneg m → balances_nonneg (m st).1).
  { intros A m Hm. destruct (m st) as [st' r] eqn:E. by eapply Hm. }
  split; [intros; apply Hel, charge_user_balance_nonneg|].
  split; [intros; by apply Hel, refund_user_balance_nonneg|].
  split; [intros; by apply balances_nonneg_set_users|].
  intros req fail_at_step Hprice Hpromo.
  assert (∀ e st0, keeps_balances_nonneg st0 (Store.log e st0)) as Hlog
    by by intros e st0 H.
  destruct (execute req fail_at_step st) as [st' r] eqn:E. cbn [fst].
  unfold execute in E.
  apply bind_inv in E as [(st1 & amounts & Hpre & Hrun)|(e & Hpre & _)].
  - pose proof (respects_pre_saga keeps_balances_nonneg Hlog req _ _ _ Hpre)
      as H1.
    apply pre_saga_Ok in Hpre as (Hq & _ & Hcalc & _).
    destruct (calculate_amounts_cents req st st amounts)
      as (b & d & -> & Hd); [lia|done..|].
    eapply (respects_run_steps keeps_balances_nonneg); [done| |exact Hrun|].
    + apply build_steps_balances_nonneg. cbn [final_amount].
      apply dec_nonneg_coef. cbn. lia.
    + by apply H1.
  - by eapply (respects_pre_saga keeps_balances_nonneg Hlog).
Qed.

Lemma balances_stay_nonneg_witness :
  balances_nonneg fixture_store ∧
  balances_nonneg
    (charge_user_balance 7 2 (dec2 5000) fixture_store).1 ∧
  balances_nonneg
    (execute order_failing_late (Some "FinalizeOrder") fixture_store).1.
Proof.
  assert (H : balances_nonneg fixture_store).
  { apply (bool_decide_unpack _). by vm_compute. }
  destruct (balances_stay_nonneg fixture_store H) as (Hch & _ & _ & Hexec).
  split; [exact H|]. split; [apply Hch|]. apply Hexec.
  - intros i [= <-]. by vm_compute.
  - intros c p [= <-] [= <-]. by vm_compute.
Defined.

End Balances.

(** ** The discount of a completed order *)

Section Discount.
Import SagaOrchestrator.

Lemma quantize_zero_cents :
  Decimal.quantize Decimal.zero2 (-2) = Some Decimal.zero2.
Proof. done. Qed.

(** X14.  An order that completes with a promo code has been granted the
    discount of that code: the code is known, had a use left before the
    run, and the discount of the order is [min(discount_amount, base)]
    in cents; without a promo code the discount is 0.00.  The guard of
    [calculate_discount] and the guard of [reserve_promo_use] agree, so
    no order completes with a promo code that earned it nothing. *)
Theorem completed_order_discount req fail_at_step st st' :
  execute req fail_at_step st = (st', Ok true) →
  ∃ amounts,
    _calculate_amounts req st = (st, Ok amounts) ∧
    if truthy (OrderRequest.promo_code req)
    then ∃ c p,
           OrderRequest.promo_code req = Some c ∧
           Store.promos st !! c = Some p ∧
           0 < PromoCode.remaining_uses p ∧
           Decimal.quantize
             (Decimal.min (PromoCode.discount_amount p) (base_amount amounts))
             (-2) = Some (discount_amount amounts)
    else discount_amount amounts = Decimal.zero2.
Proof.
  intros (st1 & amounts & Hpre & Hrun)%execute_Ok_inv.
  apply pre_saga_Ok in Hpre as (_ & _ & Hcalc & ->).
  exists amounts. split; [done|].
  apply run_steps_inv in Hrun as (st2 & done_ & err & Hfwd & H).
  destruct err as [e|]; [by destruct H|].
  apply forward_build_steps_guards in Hfwd.
  unfold order_can_complete in Hfwd.
  apply andb_true_iff in Hfwd as [[[_ Hp]%andb_true_iff _]%andb_true_iff _].
  revert Hp Hcalc. unfold promo_available. rewrite calculate_amounts_eq.
  cbn [Store.promos Store.log].
  destruct (Store.items st !! _) as [i|]; [|done].
  destruct (Decimal.quantize (Decimal.mul _ _) _) as [b|]; [|done].
  unfold DiscountsService.calculate_discount.
  destruct (OrderRequest.promo_code req) as [c|] eqn:Hc.
  - destruct (truthy (Some c)) eqn:Ht; cbn [negb mbind option_bind].
    + destruct (Store.promos st !! c) as [p|] eqn:Hpc; [|done].
      intros Hu%Z.ltb_lt.
      destruct (Z.leb_spec (PromoCode.remaining_uses p) 0); [lia|].
      destruct (Decimal.quantize (Decimal.min _ _) _) as [d|] eqn:Hd; [|done].
      destruct (Decimal.quantize (Decimal.sub _ _) _) as [f|]; [|done].
      intros [= <-]. by exists c, p.
    + intros _. rewrite quantize_zero_cents.
      destruct (Decimal.quantize (Decimal.sub _ _) _) as [f|]; [|done].
      by intros [= <-].
  - intros _. cbn [truthy negb]. rewrite quantize_zero_cents.
    destruct (Decimal.quantize (Decimal.sub _ _) _) as [f|]; [|done].
    by intros [= <-].
Qed.

Lemma completed_order_discount_witness :
  ∃ amounts,
    _calculate_amounts order_with_promo fixture_store
      = (fixture_store, Ok amounts) ∧
    if truthy (OrderRequest.promo_code order_with_promo)
    then ∃ c p,
           OrderRequest.promo_code order_with_promo = Some c ∧
           Store.promos fixture_store !! c = Some p ∧
           0 < PromoCode.remaining_uses p ∧
           Decimal.quantize
             (Decimal.min (PromoCode.discount_amount p) (base_amount amounts))
             (-2) = Some (discount_amount amounts)
    else discount_amount amounts = Decimal.zero2.
Proof.
  apply (completed_order_discount order_with_promo None fixture_store
           (execute order_with_promo None fixture_store).1).
  by vm_compute.
Defined.

End Discount.

(** ** The lines a run writes *)

Section LinesOf.
Import SagaOrchestrator.
Context (P : LogEntry → Prop).

#[global] Instance appends_lines_preorder : PreOrder (appends_lines P).
Proof.
  split.
  - intros st. exists []. by rewrite app_nil_r.
  - intros st1 st2 st3 (l1 & H1 & F1) (l2 & H2 & F2). exists (l1 ++ l2).
    split; [by rewrite H2, H1, app_assoc|by apply Forall_app].
Qed.

Lemma appends_line e st : P e → appends_lines P st (Store.log e st).
Proof. intros He. exists [e]. split; [done|by constructor]. Qed.

Lemma log_lines e : P e → respects (appends_lines P) (log e).
Proof. intros He st st' r [= <- _]. by apply appends_line. Qed.

Lemma run_lines s :
  P (LogStep (Step.order_id s) (Step.name s)) →
  P (LogStepOk (Step.order_id s) (Step.name s)) →
  respects (appends_lines P) (Step.execute s) →
  respects (appends_lines P) (Step.run s).
Proof.
  intros H1 H2 He. unfold Step.run.
  apply respects_bind; [apply _|by apply log_lines|intros _].
  apply respects_bind; [apply _|done|intros _]. by apply log_lines.
Qed.

Lemma run_compensation_lines s :
  P (LogCompensate (Step.order_id s) (Step.name s)) →
  P (LogCompensateOk (Step.order_id s) (Step.name s)) →
  respects (appends_lines P) (Step.compensate s) →
  respects (appends_lines P) (Step.run_compensation s).
Proof.
  intros H1 H2 He. unfold Step.run_compensation.
  apply respects_bind; [apply _|by apply log_lines|intros _].
  apply respects_bind; [apply _|done|intros _]. by apply log_lines.
Qed.

Lemma forward_lines fail_at_step steps done_ :
  Forall (λ s, respects (appends_lines P) (Step.run s)) steps →
  respects (appends_lines P) (forward fail_at_step steps done_).
Proof.
  intros Hs. revert done_.
  induction Hs as [|s steps Hs _ IH]; intros done_; cbn [forward].
  - apply respects_ret, _.
  - case_decide; [apply respects_ret, _|].
    apply respects_bind; [apply _| |].
    + by apply respects_try.
    + intros [e|[]]; [apply respects_ret, _|apply IH].
Qed.

Lemma compensate_all_lines order_id steps :
  Forall (λ s, respects (appends_lines P) (Step.run_compensation s) ∧
               ∀ e, P (LogCompensationFailed order_id (Step.name s) e))
    steps →
  respects (appends_lines P) (compensate_all order_id steps).
Proof.
  induction 1 as [|s steps [Hs Hf] _ IH]; cbn [compensate_all].
  - apply respects_ret, _.
  - apply respects_bind; [apply _| |by intros _].
    apply respects_bind; [apply _| |].
    + by apply respects_try.
    + intros [e|[]]; [by apply log_lines|apply respects_ret, _].
Qed.

Lemma run_steps_lines order_id fail_at_step steps :
  Forall (λ s, respects (appends_lines P) (Step.run s) ∧
               respects (appends_lines P) (Step.run_compensation s) ∧
               ∀ e, P (LogCompensationFailed order_id (Step.name s) e))
    steps →
  P (LogSagaOk order_id) → (∀ e, P (LogSagaFailed order_id e)) →
  P (LogSagaEnd order_id) →
  respects (appends_lines P) (run_steps order_id fail_at_step steps).
Proof.
  intros Hs Hok Hfail Hend st st' r. unfold run_steps.
  intros [(st1 & [done_ err] & Hfwd & Hk)|(e & Hfwd & _)]%bind_inv.
  - etrans.
    { eapply forward_lines; [|exact Hfwd].
      eapply Forall_impl; [exact Hs|]. by intros s (? & _). }
    destruct (forward_inv _ _ _ _ _ _ Hfwd) as (i & err' & [= -> _] & _).
    destruct err as [e|]; (eapply respects_elim; [|exact Hk]).
    + apply respects_bind; [apply _|by apply log_lines|intros _].
      apply respects_bind; [apply _| |intros _].
      * apply compensate_all_lines, Forall_reverse, Forall_take.
        eapply Forall_impl; [exact Hs|]. by intros s (_ & ? & ?).
      * apply respects_bind; [apply _|by apply log_lines|intros _].
        apply respects_ret, _.
    + apply respects_bind; [apply _|by apply log_lines|intros _].
      apply respects_ret, _.
  - eapply forward_lines; [|exact Hfwd].
    eapply Forall_impl; [exact Hs|]. by intros s (? & _).
Qed.

Lemma pre_saga_lines req :
  P (LogSagaStart (OrderRequest.order_id req) (OrderRequest.user_id req)
       (OrderRequest.sku req) (OrderRequest.qty req)
       (OrderRequest.promo_code req)) →
  (∀ b d f, P (LogAmounts (OrderRequest.order_id req) b d f)) →
  respects (appends_lines P) (pre_saga req).
Proof.
  intros Hstart Hamounts st st' r H.
  destruct r as [amounts|e].
  - apply pre_saga_Ok in H as (_ & _ & _ & ->).
    etrans; by apply appends_line.
  - apply pre_saga_Raise in H as ->. by apply appends_line.
Qed.

End LinesOf.

Section OrderLines.
Import SagaOrchestrator DiscountsService InventoryService BillingService.

Lemma appends_line_of (P : LogEntry → Prop) e st st0 :
  Store.logs st0 = Store.logs st → P e →
  appends_lines P st (Store.log e st0).
Proof.
  intros Hl He. exists [e]. rewrite logs_log, Hl. split; [done|by constructor].
Qed.

Lemma build_steps_order_lines req amounts :
  Forall
    (λ s,
       respects
         (appends_lines (λ e, entry_order_id e = OrderRequest.order_id req))
         (Step.run s) ∧
       respects
         (appends_lines (λ e, entry_order_id e = OrderRequest.order_id req))
         (Step.run_compensation s) ∧
       ∀ e, entry_order_id
              (LogCompensationFailed (OrderRequest.order_id req)
                 (Step.name s) e) = OrderRequest.order_id req)
    (build_steps req amounts).
Proof.
  apply build_steps_Forall; [intros c _|..];
    (split; [apply run_lines; [done..|]
            |split; [apply run_compensation_lines; [done..|]|done]]);
    intros st st' r;
    cbn [Step.execute Step.compensate ReservePromoUse ReserveInventory
         ChargeUserBalance FinalizeOrder];
    rewrite ?reserve_promo_use_eq, ?release_promo_use_eq,
      ?reserve_inventory_eq, ?release_inventory_eq,
      ?charge_user_balance_eq, ?refund_user_balance_eq;
    repeat case_match; intros [= <- _];
    first [reflexivity|by apply appends_line_of].
Qed.

(** X15.  Every line a run of [execute] adds to the log carries the order
    identifier of the request, whatever the outcome: the orchestrator,
    the steps and the services all write under the [order_id] they were
    given, so the lines of one order can be told from those of
    another. *)
Theorem run_writes_its_own_lines req fail_at_step st :
  ∃ new,
    Store.logs (execute req fail_at_step st).1 = Store.logs st ++ new ∧
    Forall (λ e, entry_order_id e = OrderRequest.order_id req) new.
Proof.
  destruct (execute req fail_at_step st) as [st' r] eqn:E. cbn [fst].
  revert E.
  change (execute req fail_at_step st = (st', r) →
          appends_lines (λ e, entry_order_id e = OrderRequest.order_id req)
            st st').
  unfold execute.
  intros [(st1 & amounts & Hpre & Hrun)|(e & Hpre & _)]%bind_inv.
  - etrans; [by eapply pre_saga_lines|].
    eapply run_steps_lines; [|done..|exact Hrun].
    apply build_steps_order_lines.
  - by eapply pre_saga_lines.
Qed.

End OrderLines.

(** ** The log of a failed run *)

Section FailedRunLog.
Import SagaOrchestrator.

Lemma compensate_all_lines_returns (P : LogEntry → Prop) order_id steps :
  Forall (λ s, respects (appends_lines P) (Step.run_compensation s) ∧
               compensation_returns s) steps →
  respects (appends_lines P) (compensate_all order_id steps).
Proof.
  induction 1 as [|s steps [Hs Hr] _ IH]; intros st st' r.
  - intros [= <- _]. reflexivity.
  - intros (st1 & st2 & r1 & Hrun & -> & Hrest)%compensate_all_cons_inv.
    pose proof (run_compensation_returns s st Hr) as Hok.
    rewrite Hrun in Hok. cbn in Hok. subst r1.
    etrans; [by eapply Hs|]. by eapply IH.
Qed.

Lemma build_steps_forward_lines req amounts :
  Forall (λ s, respects (appends_lines (λ e, forward_entry e = true))
                 (Step.run s))
    (build_steps req amounts).
Proof.
  apply build_steps_Forall; [intros c _|..];
    (apply run_lines; [done..|]);
    intros st st' r;
    cbn [Step.execute ReservePromoUse ReserveInventory ChargeUserBalance
         FinalizeOrder];
    rewrite ?reserve_promo_use_eq, ?reserve_inventory_eq,
      ?charge_user_balance_eq;
    repeat case_match; intros [= <- _];
    first [reflexivity|by apply appends_line_of].
Qed.

Lemma build_steps_compensation_lines req amounts :
  Forall (λ s, respects (appends_lines (λ e, compensation_entry e = true))
                 (Step.run_compensation s) ∧
               compensation_returns s)
    (build_steps req amounts).
Proof.
  pose proof (build_steps_compensation_returns req amounts) as Hr.
  apply Forall_and. split; [|done].
  apply build_steps_Forall; [intros c _|..];
    (apply run_compensation_lines; [done..|]);
    intros st st' r;
    cbn [Step.compensate ReservePromoUse ReserveInventory ChargeUserBalance
         FinalizeOrder];
    rewrite ?release_promo_use_eq, ?release_inventory_eq,
      ?refund_user_balance_eq;
    repeat case_match; intros [= <- _];
    first [reflexivity|by apply appends_line_of].
Qed.

Lemma forward_lines_silent l :
  Forall (λ e, forward_entry e = true) l → failure_reasons l = [].
Proof.
  unfold failure_reasons. induction 1 as [|e l He _ IH]; [done|].
  cbn. rewrite IH. by destruct e.
Qed.

Lemma compensation_lines_silent l :
  Forall (λ e, compensation_entry e = true) l → failure_reasons l = [].
Proof.
  unfold failure_reasons. induction 1 as [|e l He _ IH]; [done|].
  cbn. rewrite IH. by destruct e.
Qed.

(** X4.  For a store whose decimals are finite numbers (the values of
    [Decimal.t]; a NaN balance is outside this statement): when
    [execute] returns false, the log gains SAGA START, the amounts, lines
    of the forward pass only (STEP, STEP OK and what the [execute] of the
    steps writes), one SAGA FAILED line, lines of the compensations only
    (COMPENSATE, COMPENSATE OK and what the [compensate] of the steps
    writes), and SAGA END; the exception of the SAGA FAILED line is the
    injected fault for a step of the sequence, or tells what the store
    lacked before the run: an unknown promo code, a promo code with no use
    left, fewer units on hand than [qty], or a balance below the final
    amount.  It is never "user not found" nor "item not found", which only
    the pre-saga phase can raise. *)
Theorem failed_run_reports_its_cause req fail_at_step st st' :
  execute req fail_at_step st = (st', Ok false) →
  ∃ amounts e l1 l2,
    _calculate_amounts req st = (st, Ok amounts) ∧
    Store.logs st' =
      Store.logs st ++
      [LogSagaStart (OrderRequest.order_id req) (OrderRequest.user_id req)
         (OrderRequest.sku req) (OrderRequest.qty req)
         (OrderRequest.promo_code req);
       LogAmounts (OrderRequest.order_id req) (base_amount amounts)
         (discount_amount amounts) (final_amount amounts)] ++
      l1 ++ [LogSagaFailed (OrderRequest.order_id req) e] ++
      l2 ++ [LogSagaEnd (OrderRequest.order_id req)] ∧
    Forall (λ e, forward_entry e = true) l1 ∧
    Forall (λ e, compensation_entry e = true) l2 ∧
    failure_reasons l1 = [] ∧ failure_reasons l2 = [] ∧
    failure_cause req amounts fail_at_step st e.
Proof.
  intros (st1 & amounts & Hpre & Hrun)%execute_Ok_inv.
  apply run_steps_inv in Hrun as (st2 & done_ & err & Hfwd & Herr).
  destruct err as [e|]; [|by destruct Herr as [[=] _]].
  destruct Herr as (_ & st3 & Hcomp & ->).
  apply pre_saga_Ok in Hpre as (_ & Hu & Hcalc & ->).
  pose proof (forward_lines _ _ _ _ (build_steps_forward_lines req amounts)
                _ _ _ Hfwd) as (l1 & Hl1 & F1).
  destruct (forward_inv _ _ _ _ _ _ Hfwd) as (i & err' & [= -> _] & _).
  apply compensate_all_lines_returns
    with (P := λ e, compensation_entry e = true) in Hcomp
    as (l2 & Hl2 & F2);
    [|apply Forall_reverse, Forall_take, build_steps_compensation_lines].
  exists amounts, e, l1, l2. split; [done|]. split.
  { rewrite logs_log, Hl2, logs_log, Hl1. cbn [Store.logs Store.log].
    by rewrite <- !app_assoc. }
  do 2 (split; [done|]).
  split; [by apply forward_lines_silent|].
  split; [by apply compensation_lines_silent|].
  apply build_steps_cause in Hfwd; [done|done|].
  rewrite calculate_amounts_eq in Hcalc. cbn [Store.items Store.log].
  by destruct (Store.items st !! OrderRequest.sku req).
Qed.

Lemma failed_run_reports_its_cause_witness :
  ∃ amounts e l1 l2,
    _calculate_amounts order_over_balance fixture_store
      = (fixture_store, Ok amounts) ∧
    Store.logs (execute order_over_balance None fixture_store).1 =
      Store.logs fixture_store ++
      [LogSagaStart (OrderRequest.order_id order_over_balance)
         (OrderRequest.user_id order_over_balance)
         (OrderRequest.sku order_over_balance)
         (OrderRequest.qty order_over_balance)
         (OrderRequest.promo_code order_over_balance);
       LogAmounts (OrderRequest.order_id order_over_balance)
         (base_amount amounts) (discount_amount amounts)
         (final_amount amounts)] ++
      l1 ++ [LogSagaFailed (OrderRequest.order_id order_over_balance) e] ++
      l2 ++ [LogSagaEnd (OrderRequest.order_id order_over_balance)] ∧
    Forall (λ e, forward_entry e = true) l1 ∧
    Forall (λ e, compensation_entry e = true) l2 ∧
    failure_reasons l1 = [] ∧ failure_reasons l2 = [] ∧
    failure_cause order_over_balance amounts None fixture_store e.
Proof.
  apply (failed_run_reports_its_cause order_over_balance None fixture_store).
  by vm_compute.
Defined.

End FailedRunLog.

(** ** The log is never read *)

Section LogBlind.
Import SagaOrchestrator DiscountsService InventoryService BillingService.

Lemma with_earlier_logs_log l e st :
  with_earlier_logs l (Store.log e st) = Store.log e (with_earlier_logs l st).
Proof.
  unfold with_earlier_logs, Store.log. cbn. by rewrite app_assoc.
Qed.

Lemma log_blind_ret {A} (a : A) : log_blind (ret a).
Proof. done. Qed.

Lemma log_blind_raise {A} e : log_blind (@raise A e).
Proof. done. Qed.

Lemma log_blind_trap {A} (o : option A) : log_blind (trap o).
Proof. by destruct o. Qed.

Lemma log_blind_log e : log_blind (log e).
Proof.
  intros l st. unfold log, modify. cbn. by rewrite with_earlier_logs_log.
Qed.

Lemma log_blind_bind {A B} (m : M A) (k : A → M B) :
  log_blind m → (∀ a, log_blind (k a)) → log_blind (bind m k).
Proof.
  intros Hm Hk l st. unfold bind. rewrite Hm.
  destruct (m st) as [st1 [a|e]]; cbn [fst snd]; [apply Hk|done].
Qed.

(** The same, when what follows is only known to be blind after a value
    the first part can return. *)
Lemma log_blind_bind_of {A B} (m : M A) (k : A → M B) :
  log_blind m →
  (∀ st st' a, m st = (st', Ok a) → log_blind (k a)) →
  log_blind (bind m k).
Proof.
  intros Hm Hk l st. unfold bind. rewrite Hm.
  destruct (m st) as [st1 [a|e]] eqn:E; cbn [fst snd]; [|done].
  by eapply Hk.
Qed.

Lemma log_blind_try {A} (m : M A) : log_blind m → log_blind (try_ m).
Proof.
  intros Hm l st. unfold try_. rewrite Hm.
  by destruct (m st) as [st1 [a|e]].
Qed.

(** Reading the store to choose what to do next is blind to the log when
    the choice only looks at the entities. *)
Lemma log_blind_get_bind {A} (k : Store.t → M A) :
  (∀ l st, k (with_earlier_logs l st) = k st) →
  (∀ st0, log_blind (k st0)) →
  log_blind (bind get k).
Proof.
  intros Hk1 Hk2 l st. unfold bind, get. by rewrite Hk1, Hk2.
Qed.

Lemma log_blind_modify f :
  (∀ l st, f (with_earlier_logs l st) = with_earlier_logs l (f st)) →
  log_blind (modify f).
Proof. intros Hf l st. unfold modify. cbn. by rewrite Hf. Qed.

Ltac log_blind_service :=
  apply log_blind_get_bind; [done|intros st0];
  repeat case_match;
  try apply log_blind_raise; try apply log_blind_ret;
  (apply log_blind_bind; [by apply log_blind_modify|intros _]);
  apply log_blind_log.

Lemma log_blind_services :
  (∀ order_id c, log_blind (reserve_promo_use order_id c)) ∧
  (∀ order_id c, log_blind (release_promo_use order_id c)) ∧
  (∀ order_id sku qty, log_blind (reserve_inventory order_id sku qty)) ∧
  (∀ order_id sku qty, log_blind (release_inventory order_id sku qty)) ∧
  (∀ order_id uid amount,
     log_blind (charge_user_balance order_id uid amount)) ∧
  (∀ order_id uid amount,
     log_blind (refund_user_balance order_id uid amount)).
Proof.
  split; [|split; [|split; [|split; [|split]]]]; intros;
    [unfold reserve_promo_use|unfold release_promo_use
    |unfold reserve_inventory|unfold release_inventory
    |unfold charge_user_balance|unfold refund_user_balance];
    log_blind_service.
Qed.

Lemma log_blind_run s : log_blind (Step.execute s) → log_blind (Step.run s).
Proof.
  intros Hs. unfold Step.run.
  apply log_blind_bind; [apply log_blind_log|intros _].
  apply log_blind_bind; [done|intros _]. apply log_blind_log.
Qed.

Lemma log_blind_run_compensation s :
  log_blind (Step.compensate s) → log_blind (Step.run_compensation s).
Proof.
  intros Hs. unfold Step.run_compensation.
  apply log_blind_bind; [apply log_blind_log|intros _].
  apply log_blind_bind; [done|intros _]. apply log_blind_log.
Qed.

Lemma log_blind_forward fail_at_step steps done_ :
  Forall (λ s, log_blind (Step.execute s)) steps →
  log_blind (forward fail_at_step steps done_).
Proof.
  intros Hs. revert done_.
  induction Hs as [|s steps Hs _ IH]; intros done_; cbn [forward].
  - apply log_blind_ret.
  - case_decide; [apply log_blind_ret|].
    apply log_blind_bind; [by apply log_blind_try, log_blind_run|].
    intros [e|[]]; [apply log_blind_ret|apply IH].
Qed.

Lemma log_blind_compensate_all order_id steps :
  Forall (λ s, log_blind (Step.compensate s)) steps →
  log_blind (compensate_all order_id steps).
Proof.
  induction 1 as [|s steps Hs _ IH]; cbn [compensate_all].
  - apply log_blind_ret.
  - apply log_blind_bind; [|by intros _].
    apply log_blind_bind;
      [by apply log_blind_try, log_blind_run_compensation|].
    intros [e|[]]; [apply log_blind_log|apply log_blind_ret].
Qed.

Lemma log_blind_run_steps order_id fail_at_step steps :
  Forall (λ s, log_blind (Step.execute s) ∧ log_blind (Step.compensate s))
    steps →
  log_blind (run_steps order_id fail_at_step steps).
Proof.
  intros Hs. unfold run_steps. apply log_blind_bind_of.
  { apply log_blind_forward. eapply Forall_impl; [exact Hs|].
    by intros s [? _]. }
  intros st st1 [done_ err] Hfwd.
  destruct (forward_inv _ _ _ _ _ _ Hfwd) as (i & err' & [= -> _] & _).
  destruct err as [e|].
  - apply log_blind_bind; [apply log_blind_log|intros _].
    apply log_blind_bind; [|intros _].
    + apply log_blind_compensate_all, Forall_reverse, Forall_take.
      eapply Forall_impl; [exact Hs|]. by intros s [_ ?].
    + apply log_blind_bind; [apply log_blind_log|intros _].
      apply log_blind_ret.
  - apply log_blind_bind; [apply log_blind_log|intros _]. apply log_blind_ret.
Qed.

Lemma log_blind_calculate_amounts req : log_blind (_calculate_amounts req).
Proof.
  unfold _calculate_amounts.
  apply log_blind_get_bind; [done|intros st0].
  destruct (_ !! _); [|apply log_blind_raise].
  repeat (apply log_blind_bind; [apply log_blind_trap|intros ?]).
  apply log_blind_ret.
Qed.

Lemma log_blind_pre_saga req : log_blind (pre_saga req).
Proof.
  unfold pre_saga.
  apply log_blind_bind; [apply log_blind_log|intros _].
  destruct (_ <=? _); [apply log_blind_raise|].
  apply log_blind_get_bind; [done|intros st0].
  destruct (_ !! _); [|apply log_blind_raise].
  apply log_blind_bind; [apply log_blind_calculate_amounts|intros a].
  apply log_blind_bind; [apply log_blind_log|intros _]. apply log_blind_ret.
Qed.

Lemma build_steps_log_blind req amounts :
  Forall (λ s, log_blind (Step.execute s) ∧ log_blind (Step.compensate s))
    (build_steps req amounts).
Proof.
  destruct log_blind_services as (H1 & H2 & H3 & H4 & H5 & H6).
  apply build_steps_Forall.
  - intros c _. split; [apply H1|apply H2].
  - split; [apply H3|apply H4].
  - split; [apply H5|apply H6].
  - split; apply log_blind_log.
Qed.

Lemma log_blind_execute req fail_at_step :
  log_blind (execute req fail_at_step).
Proof.
  unfold execute.
  apply log_blind_bind; [apply log_blind_pre_saga|intros amounts].
  apply log_blind_run_steps, build_steps_log_blind.
Qed.

(** X16.  [execute] never reads the log: started on a store whose log
    holds more lines at its head, it returns or raises the same, leaves
    the same users, items and promos, and appends the same lines.  The
    outcome of an order depends on the entities alone. *)
Theorem execute_ignores_the_log req fail_at_step l st :
  execute req fail_at_step (with_earlier_logs l st) =
  (with_earlier_logs l (execute req fail_at_step st).1,
   (execute req fail_at_step st).2).
Proof. apply log_blind_execute. Qed.

End LogBlind.

(** ** After a failed run *)

Section AfterFailure.
Import SagaOrchestrator.

(** The entities a failed run leaves: the items and the promos it started
    with, and the users it started with unless the charge had completed,
    which only the fault injected at FinalizeOrder allows. *)
Lemma failed_run_entities req fail_at_step st st' :
  execute req fail_at_step st = (st', Ok false) →
  Store.items st' = Store.items st ∧
  Store.promos st' = Store.promos st ∧
  (Store.users st' = Store.users st ∨ fail_at_step = Some "FinalizeOrder").
Proof.
  intros (st1 & amounts & Hpre & Hrun)%execute_Ok_inv.
  apply run_steps_inv in Hrun as (st2 & done_ & err & Hfwd & Herr).
  destruct err as [e|]; [|by destruct Herr as [[=] _]].
  destruct Herr as (_ & st3 & Hcomp & ->).
  apply pre_saga_Ok in Hpre as (_ & _ & _ & ->).
  cbn [Store.users Store.items Store.promos Store.log].
  revert Hfwd Hcomp. rewrite build_steps_order_steps.
  assert (Hcore : ∀ sta done0,
    forward fail_at_step
      (order_steps (OrderRequest.order_id req) (OrderRequest.sku req)
         (OrderRequest.qty req) (OrderRequest.user_id req)
         (final_amount amounts)) done0 sta = (st2, Ok (done_, Some e)) →
    ∃ taken, done_ = done0 ++ taken ∧
      ∀ stb,
        compensate_all (OrderRequest.order_id req) (reverse taken)
          (Store.log (LogSagaFailed (OrderRequest.order_id req) e) st2)
          = (stb, Ok tt) →
        Store.items stb = Store.items sta ∧
        Store.promos stb = Store.promos sta ∧
        (Store.users stb = Store.users sta ∨
         fail_at_step = Some "FinalizeOrder")).
  { intros sta done0 (taken & -> & Hundo)%order_steps_failure.
    exists taken. split; [done|]. intros stb Hc.
    apply Hundo in Hc as (_ & ? & ? & [?|[? _]]); auto. done. }
  destruct (OrderRequest.promo_code req) as [c|] eqn:Hc;
    [destruct (truthy (Some c)) eqn:Ht|]; cbn [app].
  - intros [(_ & -> & -> & _)|[(_ & e1 & Hp & -> & _)|(_ & stp & Hp & H)]]
      %forward_cons_inv.
    + intros [= <-]. auto.
    + intros [= <-].
      apply run_ReservePromoUse in Hp as (HUp & HIp & HPp).
      autorewrite with store. auto.
    + apply run_ReservePromoUse in Hp as (HUp & HIp & p & Hp & _ & HPp).
      apply Hcore in H as (taken & -> & Hundo).
      rewrite reverse_app, compensate_all_app.
      intros [(stb & [] & Hc1 & Hc2)|(e' & _ & [=])]%bind_inv.
      apply Hundo in Hc1 as (HIb & HPb & HUb).
      change (reverse [ReservePromoUse (OrderRequest.order_id req) c])
        with [ReservePromoUse (OrderRequest.order_id req) c] in Hc2.
      apply compensate_all_cons_inv in Hc2
        as (stc & std & r1 & Hcomp & -> & Hrest).
      apply run_compensation_ReservePromoUse in Hcomp
        as (-> & HUc & HIc & HPc).
      injection Hrest as <-.
      autorewrite with store in *. cbn [Store.promos Store.log] in *.
      split; [congruence|]. split.
      * rewrite HPc, HPb, HPp, lookup_insert_eq, set_remaining_uses_restore.
        by apply insert_restore.
      * destruct HUb as [HUb|?]; [left; congruence|by right].
  - intros H Hcomp.
    apply Hcore in H as (taken & -> & Hundo).
    cbn [app] in Hcomp. by apply Hundo in Hcomp.
  - intros H Hcomp.
    apply Hcore in H as (taken & -> & Hundo).
    cbn [app] in Hcomp. by apply Hundo in Hcomp.
Qed.

(** Two stores with the same entities give the same run, but for the
    lines already in their logs. *)
Lemma execute_same_entities req fail_at_step st st1 :
  same_entities st st1 →
  (execute req fail_at_step st1).2 = (execute req fail_at_step st).2 ∧
  same_entities (execute req fail_at_step st).1
    (execute req fail_at_step st1).1.
Proof.
  intros (HU & HI & HP).
  pose (st0 := Store.mk (Store.users st) (Store.items st) (Store.promos st) []).
  assert (st = with_earlier_logs (Store.logs st) st0) as Hst.
  { unfold with_earlier_logs, st0. cbn. rewrite app_nil_r. by destruct st. }
  assert (st1 = with_earlier_logs (Store.logs st1) st0) as Hst1.
  { unfold with_earlier_logs, st0. cbn. rewrite app_nil_r, <- HU, <- HI, <- HP.
    by destruct st1. }
  pose proof (log_blind_execute req fail_at_step (Store.logs st) st0) as H.
  pose proof (log_blind_execute req fail_at_step (Store.logs st1) st0) as H1.
  rewrite <- Hst in H. rewrite <- Hst1 in H1. rewrite H, H1. done.
Qed.

(** X17.  A run that returns false, unless it was made to fail at
    FinalizeOrder, leaves the three dictionaries identical to those it
    started with (every balance in the same representation, not only of
    the same value); so any order run after it, the same one again or
    another, returns or raises what it would have without the failed run,
    and leaves the same users, items and promos. *)
Theorem failed_run_leaves_no_trace req fail_at_step st st1 :
  execute req fail_at_step st = (st1, Ok false) →
  fail_at_step ≠ Some "FinalizeOrder" →
  same_entities st st1 ∧
  ∀ req' fail_at_step',
    (execute req' fail_at_step' st1).2 = (execute req' fail_at_step' st).2 ∧
    same_entities (execute req' fail_at_step' st).1
      (execute req' fail_at_step' st1).1.
Proof.
  intros (HI & HP & [HU|Hf])%failed_run_entities Hfail; [|done].
  assert (same_entities st st1) as Hsame by done.
  split; [done|]. intros req' fail_at_step'. by apply execute_same_entities.
Qed.

Lemma failed_run_leaves_no_trace_witness :
  let st1 := (execute order_over_balance None fixture_store).1 in
  same_entities fixture_store st1 ∧
  ∀ req' fail_at_step',
    (execute req' fail_at_step' st1).2
      = (execute req' fail_at_step' fixture_store).2 ∧
    same_entities (execute req' fail_at_step' fixture_store).1
      (execute req' fail_at_step' st1).1.
Proof.
  apply (failed_run_leaves_no_trace order_over_balance None fixture_store);
    by vm_compute.
Defined.

End AfterFailure.

(** ** The seed of the command line *)

Section Seed.
Import SagaOrchestrator.

Lemma pre_saga_returns req st amounts :
  0 < OrderRequest.qty req →
  is_Some (Store.users st !! OrderRequest.user_id req) →
  _calculate_amounts req st = (st, Ok amounts) →
  pre_saga req st =
  (Store.log
     (LogAmounts (OrderRequest.order_id req) (base_amount amounts)
        (discount_amount amounts) (final_amount amounts))
     (Store.log
        (LogSagaStart (OrderRequest.order_id req) (OrderRequest.user_id req)
           (OrderRequest.sku req) (OrderRequest.qty req)
           (OrderRequest.promo_code req)) st),
   Ok amounts).
Proof.
  intros Hq [u Hu] Hcalc.
  unfold pre_saga, bind at 1, log at 1, modify.
  destruct (Z.leb_spec (OrderRequest.qty req) 0); [lia|].
  unfold bind at 1, get. rewrite users_log, Hu.
  unfold bind at 1. rewrite calculate_amounts_log, Hcalc. done.
Qed.

Lemma insert_twice_twice `{Countable K} {V} (m : gmap K V) i j x y :
  i ≠ j →
  <[j := y]> (<[i := x]> (<[j := y]> (<[i := x]> m)))
  = <[j := y]> (<[i := x]> m).
Proof.
  intros Hij. rewrite (insert_insert_ne _ i j) by done.
  by rewrite !insert_insert_eq.
Qed.

Lemma users_seed st :
  Store.users (seed st) =
  <[2 := User.mk 2 (dec2 5000)]>
    (<[1 := User.mk 1 (dec2 100000)]> (Store.users st)).
Proof. done. Qed.

Lemma items_seed st :
  Store.items (seed st) =
  <["ITEM002" := InventoryItem.mk "ITEM002" (dec2 10000) 5]>
    (<["ITEM001" := InventoryItem.mk "ITEM001" (dec2 10000) 10]>
       (Store.items st)).
Proof. done. Qed.

Lemma promos_seed st :
  Store.promos (seed st) =
  <["EXPIRED" := PromoCode.mk "EXPIRED" 0 (dec2 1500)]>
    (<["DISCOUNT10" := PromoCode.mk "DISCOUNT10" 5 (dec2 1000)]>
       (Store.promos st)).
Proof. done. Qed.

Lemma logs_seed st : Store.logs (seed st) = Store.logs st.
Proof. done. Qed.

(** X18.  [seed] can be run on any store: it leaves the log and every
    entity under another key as they are, puts the two users, the two
    items and the two promos of the demo under their keys whatever was
    there, and running it twice is running it once; after it, the order
    the command line places by default (user 1, one unit of ITEM001, no
    promo, no fault) completes, whatever the store held before. *)
Theorem seed_resets st :
  seed (seed st) = seed st ∧
  Store.logs (seed st) = Store.logs st ∧
  (∀ k, k ≠ 1 → k ≠ 2 →
        Store.users (seed st) !! k = Store.users st !! k) ∧
  (∀ k, k ≠ "ITEM001" → k ≠ "ITEM002" →
        Store.items (seed st) !! k = Store.items st !! k) ∧
  (∀ k, k ≠ "DISCOUNT10" → k ≠ "EXPIRED" →
        Store.promos (seed st) !! k = Store.promos st !! k) ∧
  balance_of 1 (seed st) = Some (dec2 100000) ∧
  balance_of 2 (seed st) = Some (dec2 5000) ∧
  on_hand_of "ITEM001" (seed st) = Some 10 ∧
  on_hand_of "ITEM002" (seed st) = Some 5 ∧
  uses_of "DISCOUNT10" (seed st) = Some 5 ∧
  uses_of "EXPIRED" (seed st) = Some 0 ∧
  ∀ order_id,
    (execute (OrderRequest.mk order_id 1 "ITEM001" 1 None) None (seed st)).2
    = Ok true.
Proof.
  assert (Store.users (seed st) !! 1 = Some (User.mk 1 (dec2 100000))) as Hu.
  { by rewrite users_seed, lookup_insert_ne, lookup_insert_eq. }
  assert (Store.items (seed st) !! "ITEM001"
          = Some (InventoryItem.mk "ITEM001" (dec2 10000) 10)) as Hi.
  { by rewrite items_seed, lookup_insert_ne, lookup_insert_eq. }
  split.
  { apply store_ext; rewrite ?logs_seed; [| | |done].
    - rewrite !users_seed. by apply insert_twice_twice.
    - rewrite !items_seed. by apply insert_twice_twice.
    - rewrite !promos_seed. by apply insert_twice_twice. }
  split; [apply logs_seed|].
  split; [intros k H1 H2; by rewrite users_seed, !lookup_insert_ne|].
  split; [intros k H1 H2; by rewrite items_seed, !lookup_insert_ne|].
  split; [intros k H1 H2; by rewrite promos_seed, !lookup_insert_ne|].
  unfold balance_of, on_hand_of, uses_of.
  split; [by rewrite Hu|].
  split; [by rewrite users_seed, lookup_insert_eq|].
  split; [by rewrite Hi|].
  split; [by rewrite items_seed, lookup_insert_eq|].
  split; [by rewrite promos_seed, lookup_insert_ne, lookup_insert_eq|].
  split; [by rewrite promos_seed, lookup_insert_eq|].
  intros order_id.
  set (st1 := seed st) in *.
  set (req := OrderRequest.mk order_id 1 "ITEM001" 1 None).
  set (amounts := mkOrderAmounts (dec2 10000) Decimal.zero2 (dec2 10000)).
  assert (_calculate_amounts req st1 = (st1, Ok amounts)) as Hcalc.
  { rewrite calculate_amounts_eq. cbn [OrderRequest.sku req]. by rewrite Hi. }
  assert (is_Some (Store.users st1 !! OrderRequest.user_id req)) as Hsome
    by by exists (User.mk 1 (dec2 100000)).
  rewrite (execute_after_pre_saga _ _ _ _ _
             (pre_saga_returns req st1 amounts ltac:(done) Hsome Hcalc)).
  match goal with
  | |- context [run_steps _ _ _ ?s] =>
      destruct (forward_build_steps_ok req amounts None s)
        as (st' & i & u & Hfwd & _)
  end.
  - unfold order_can_complete, stock_available, balance_available.
    cbn [Store.users Store.items Store.log OrderRequest.sku
         OrderRequest.user_id req].
    rewrite Hu, Hi. reflexivity.
  - unfold run_steps, bind at 1. by rewrite Hfwd.
Qed.

End Seed.

(** ** The exceptions [execute] lets out *)

Section Raises.
Import SagaOrchestrator.

(** X19.  [execute] raises in four cases only, checked in this order: the
    quantity is not positive; else the user is unknown; else the item is
    unknown; else one of the three amounts has no representation in cents
    within the precision of the context ([quantize] traps).  Nothing a
    step raises, and no injected fault, ever reaches the caller: the
    fault directive plays no part in whether [execute] raises. *)
Theorem execute_raises_iff req fail_at_step st e :
  (execute req fail_at_step st).2 = Raise e ↔
  (OrderRequest.qty req ≤ 0 ∧ e = QtyNotPositive) ∨
  (0 < OrderRequest.qty req ∧
   Store.users st !! OrderRequest.user_id req = None ∧
   e = UserNotFound (OrderRequest.user_id req)) ∨
  (0 < OrderRequest.qty req ∧
   is_Some (Store.users st !! OrderRequest.user_id req) ∧
   Store.items st !! OrderRequest.sku req = None ∧
   e = ItemNotFound (OrderRequest.sku req)) ∨
  (0 < OrderRequest.qty req ∧
   is_Some (Store.users st !! OrderRequest.user_id req) ∧
   is_Some (Store.items st !! OrderRequest.sku req) ∧
   (_calculate_amounts req st).2 = Raise InvalidOperation ∧
   e = InvalidOperation).
Proof.
  unfold execute, bind at 1.
  destruct (pre_saga req st) as [st1 [amounts|e']] eqn:Hpre.
  - destruct (run_steps_Ok (OrderRequest.order_id req) fail_at_step
                (build_steps req amounts) st1) as (st' & b & ->).
    cbn [snd]. split; [done|].
    apply pre_saga_Ok in Hpre as (Hq & [u Hu] & Hcalc & _).
    rewrite Hcalc, Hu. cbn [snd].
    rewrite calculate_amounts_eq in Hcalc.
    intros [[? _]|[(_ & [=] & _)|[(_ & _ & Hn & _)|(_ & _ & _ & [=] & _)]]];
      [lia|]. by rewrite Hn in Hcalc.
  - cbn [snd]. revert Hpre.
    unfold pre_saga, bind at 1, log at 1, modify.
    destruct (Z.leb_spec (OrderRequest.qty req) 0) as [Hq|Hq].
    { intros [= _ <-]. split.
      - intros [= <-]. by left.
      - intros [[_ ->]|[(? & _)|[(? & _)|(? & _)]]]; [done|lia..]. }
    unfold bind at 1, get. rewrite users_log.
    destruct (Store.users st !! _) as [u|] eqn:Hu.
    2:{ intros [= _ <-]. split.
        - intros [= <-]. right. by left.
        - intros [[? _]|[(_ & _ & ->)|[(_ & [? [=]] & _)|(_ & [? [=]] & _)]]];
            [lia|done]. }
    unfold bind at 1. rewrite calculate_amounts_log, calculate_amounts_eq.
    cbn [snd].
    destruct (Store.items st !! _) as [i|] eqn:Hi; cbn [snd].
    2:{ intros [= _ <-]. split.
        - intros [= <-]. do 2 right. left. eauto.
        - intros [[? _]|[(_ & [=] & _)|[(_ & _ & _ & ->)|(_ & _ & [? [=]] & _)]]];
            [lia|done]. }
    intros Hpre.
    assert (e' = InvalidOperation ∧
            match
              Decimal.quantize
                (Decimal.mul (InventoryItem.price i)
                   (Decimal.of_int (OrderRequest.qty req))) (-2)
            with
            | Some base =>
                match
                  Decimal.quantize
                    (DiscountsService.calculate_discount st
                       (OrderRequest.promo_code req) base) (-2)
                with
                | Some discount =>
                    match Decimal.quantize (Decimal.sub base discount) (-2)
                    with
                    | Some final =>
                        Ok (mkOrderAmounts base discount final)
                    | None => Raise InvalidOperation
                    end
                | None => Raise InvalidOperation
                end
            | None => Raise InvalidOperation
            end = Raise InvalidOperation) as [-> Hinv].
    { revert Hpre.
      repeat (destruct (Decimal.quantize _ _); cbn [bind];
              [|by intros [= _ <-]]).
      done. }
    split.
    + intros [= <-]. do 3 right. eauto 10.
    + intros [[? _]|[(_ & [=] & _)|[(_ & _ & [=] & _)|(_ & _ & _ & _ & ->)]]];
        [lia|done].
Qed.

End Raises.
